(** * Wood's dictionary of quotations: the entry parser of [parse book.py]

    A shallow embedding of [format_output], [refactor_src_info],
    [process_entry] and [process_Wood] (src/EDA.py, lines 94-285), with the
    part of Python's [re] and [str] that these functions call, and of the
    tally and the ranking of the sources (lines 313-355).

    Python strings are modelled as lists of 8-bit characters, read as the code
    points 0..255; the character classes below are Python's Unicode classes
    restricted to that range.  The four tables imported from [custom_data]
    are not part of the sources; the parser is stated over arbitrary tables. *)

From Stdlib Require Import Ascii String.
From stdpp Require Import base option list gmap strings.

Open Scope list_scope.

Abbreviation str := (list ascii).

(** A string literal stands for the list of its characters. *)
Coercion list_ascii_of_string : string >-> list.

(* ===================================================================== *)
(** ** Characters *)
(* ===================================================================== *)

Module Char.

Definition code (c : ascii) : nat := nat_of_ascii c.

Definition between (lo hi : nat) (c : ascii) : bool :=
  (lo <=? code c)%nat && (code c <=? hi)%nat.

(** [\d]: the decimal digits. *)
Definition is_digit (c : ascii) : bool := between 48 57 c.

(** [\w]: alphanumeric characters and the underscore. *)
Definition is_word (c : ascii) : bool :=
  between 48 57 c || between 65 90 c || between 97 122 c
  || Ascii.eqb c "_"%char
  || (code c =? 170)%nat || between 178 179 c || (code c =? 181)%nat
  || between 185 186 c || between 188 190 c
  || between 192 214 c || between 216 246 c || between 248 255 c.

(** The characters that [str.strip] and [str.rstrip] remove. *)
Definition is_space (c : ascii) : bool :=
  between 9 13 c || between 28 32 c
  || (code c =? 133)%nat || (code c =? 160)%nat.

Definition newline : ascii := "010"%char.

Definition is_newline (c : ascii) : bool := Ascii.eqb c newline.

End Char.

(* ===================================================================== *)
(** ** The methods of [str] that the parser calls *)
(* ===================================================================== *)

Module Str.

Fixpoint eqb (a b : str) : bool :=
  match a, b with
  | [], [] => true
  | x :: a', y :: b' => Ascii.eqb x y && eqb a' b'
  | _, _ => false
  end.

(** [s.startswith(p)], also used for [s[:n] == p] with [n = len(p)]. *)
Fixpoint starts_with (p s : str) : bool :=
  match p, s with
  | [], _ => true
  | x :: p', y :: s' => Ascii.eqb x y && starts_with p' s'
  | _ :: _, [] => false
  end.

Fixpoint drop_while (f : ascii -> bool) (s : str) : str :=
  match s with
  | [] => []
  | c :: s' => if f c then drop_while f s' else s
  end.

(** [s.lstrip()] *)
Definition lstrip (s : str) : str := drop_while Char.is_space s.

(** [s.rstrip()] *)
Definition rstrip (s : str) : str := rev (lstrip (rev s)).

(** [s.strip()] *)
Definition strip (s : str) : str := rstrip (lstrip s).

(** [s.replace(old, new)]: every occurrence of [old], leftmost first and
    without overlap.  [skip] counts the characters of a replaced
    occurrence that are still to be passed over. *)
Fixpoint replace_go (old new : str) (s : str) (skip : nat) : str :=
  match skip with
  | S k =>
      match s with
      | [] => []
      | _ :: s' => replace_go old new s' k
      end
  | O =>
      match s with
      | [] => []
      | c :: s' =>
          if starts_with old s
          then new ++ replace_go old new s' (length old - 1)
          else c :: replace_go old new s' 0
      end
  end.

Definition replace (old new s : str) : str :=
  match old with
  | [] => new ++ flat_map (fun c => c :: new) s
  | _ :: _ => replace_go old new s 0
  end.

Definition cons_hd (c : ascii) (l : list str) : list str :=
  match l with
  | [] => [[c]]
  | f :: fs => (c :: f) :: fs
  end.

(** [s.split(sep)] for a separator that is not empty. *)
Fixpoint split_go (sep : str) (s : str) (skip : nat) : list str :=
  match skip with
  | S k =>
      match s with
      | [] => [[]]
      | _ :: s' => split_go sep s' k
      end
  | O =>
      match s with
      | [] => [[]]
      | c :: s' =>
          if starts_with sep s
          then [] :: split_go sep s' (length sep - 1)
          else cons_hd c (split_go sep s' 0)
      end
  end.

Definition split (sep s : str) : list str := split_go sep s 0.

(** [sep.join(l)] *)
Fixpoint join (sep : str) (l : list str) : str :=
  match l with
  | [] => []
  | [x] => x
  | x :: l' => x ++ sep ++ join sep l'
  end.

(** [l[::2]] *)
Fixpoint every_other {A} (l : list A) : list A :=
  match l with
  | [] => []
  | x :: l' =>
      x :: match l' with
           | [] => []
           | _ :: l'' => every_other l''
           end
  end.

(** [s.count(c)] for a single character [c] *)
Definition count (c : ascii) (s : str) : nat := count_occ ascii_dec s c.

(** [l[-1]], for a list that [split] returned. *)
Definition last_field (l : list str) : str := List.last l [].

End Str.

(* ===================================================================== *)
(** ** Regular expressions

    The patterns of the parser use literals, [.], [\d], repetition of a
    single character class ([*], [*?], [+], [{2,}]), the anchors [^], [$]
    and [\b], alternation and one capturing group.  [Re.exec] is a
    backtracking matcher in continuation-passing style with the priorities
    of Python's engine: alternatives left to right, greedy repetition
    longest first, lazy repetition shortest first. *)
(* ===================================================================== *)

Module Re.

Inductive cls :=
| Any                 (* [.]: every character but the newline *)
| Digit               (* [\d] *)
| Lit (c : ascii).    (* one literal character *)

Definition cls_ok (k : cls) (c : ascii) : bool :=
  match k with
  | Any => negb (Char.is_newline c)
  | Digit => Char.is_digit c
  | Lit x => Ascii.eqb c x
  end.

Inductive re :=
| Eps
| Chr (k : cls)
| Rep (greedy : bool) (min : nat) (k : cls)   (* [k{min,}] or [k{min,}?] *)
| Bol                                         (* [^] *)
| Eol                                         (* [$] *)
| WordB                                       (* [\b] *)
| Cat (r1 r2 : re)
| Alt (r1 r2 : re)
| Grp (r : re).                               (* [( r )], group 1 *)

(** The literal string [l] as a pattern. *)
Fixpoint lits (l : str) : re :=
  match l with
  | [] => Eps
  | [c] => Chr (Lit c)
  | c :: l' => Cat (Chr (Lit c)) (lits l')
  end.

Fixpoint has_group (r : re) : bool :=
  match r with
  | Cat r1 r2 | Alt r1 r2 => has_group r1 || has_group r2
  | Grp _ => true
  | _ => false
  end.

(** The state of a match attempt: the character before the current
    position ([None] at the start of the string), the text from the
    current position on, and what group 1 holds. *)
Record mstate := MState {
  ms_prev : option ascii;
  ms_rest : str;
  ms_grp : option str
}.

Definition word_opt (o : option ascii) : bool :=
  match o with
  | Some c => Char.is_word c
  | None => false
  end.

Definition at_boundary (prev : option ascii) (rest : str) : bool :=
  xorb (word_opt prev) (word_opt (head rest)).

Definition at_eol (rest : str) : bool :=
  match rest with
  | [] => true
  | [c] => Char.is_newline c
  | _ => false
  end.

Section Matcher.
Context {A : Type}.

(** [k*]: as many characters of the class as possible, then fewer. *)
Fixpoint star_greedy (c : cls) (k : mstate -> option A)
    (prev : option ascii) (grp : option str) (rest : str) : option A :=
  match rest with
  | x :: rest' =>
      if cls_ok c x then
        match star_greedy c k (Some x) grp rest' with
        | Some a => Some a
        | None => k (MState prev rest grp)
        end
      else k (MState prev rest grp)
  | [] => k (MState prev rest grp)
  end.

(** [k*?]: as few characters of the class as possible, then more. *)
Fixpoint star_lazy (c : cls) (k : mstate -> option A)
    (prev : option ascii) (grp : option str) (rest : str) : option A :=
  match k (MState prev rest grp) with
  | Some a => Some a
  | None =>
      match rest with
      | x :: rest' =>
          if cls_ok c x then star_lazy c k (Some x) grp rest' else None
      | [] => None
      end
  end.

(** The [min] compulsory characters of a repetition. *)
Fixpoint rep_min (c : cls) (min : nat) (k : mstate -> option A)
    (prev : option ascii) (grp : option str) (rest : str) : option A :=
  match min with
  | O => k (MState prev rest grp)
  | S min' =>
      match rest with
      | x :: rest' =>
          if cls_ok c x then rep_min c min' k (Some x) grp rest' else None
      | [] => None
      end
  end.

Fixpoint exec (r : re) (st : mstate) (k : mstate -> option A) : option A :=
  match r with
  | Eps => k st
  | Chr c =>
      match ms_rest st with
      | x :: rest' =>
          if cls_ok c x then k (MState (Some x) rest' (ms_grp st)) else None
      | [] => None
      end
  | Rep greedy min c =>
      rep_min c min
        (fun st' =>
           (if greedy then star_greedy else star_lazy)
             c k (ms_prev st') (ms_grp st') (ms_rest st'))
        (ms_prev st) (ms_grp st) (ms_rest st)
  | Bol => match ms_prev st with None => k st | Some _ => None end
  | Eol => if at_eol (ms_rest st) then k st else None
  | WordB => if at_boundary (ms_prev st) (ms_rest st) then k st else None
  | Cat r1 r2 => exec r1 st (fun st' => exec r2 st' k)
  | Alt r1 r2 =>
      match exec r1 st k with
      | Some a => Some a
      | None => exec r2 st k
      end
  | Grp r1 =>
      exec r1 st
        (fun st' =>
           let n := length (ms_rest st) - length (ms_rest st') in
           k (MState (ms_prev st') (ms_rest st')
                (Some (take n (ms_rest st)))))
  end.
End Matcher.

(** One attempt at the position whose previous character is [prev] and
    whose text is [rest]: the number of characters matched and group 1.
    With [must_advance] a match of no character is refused, which is how
    the engine restarts after an empty match. *)
Definition match_at (r : re) (must_advance : bool)
    (prev : option ascii) (rest : str) : option (nat * option str) :=
  exec r (MState prev rest None)
    (fun st' =>
       let n := length rest - length (ms_rest st') in
       if must_advance && (n =? 0)%nat then None else Some (n, ms_grp st')).

(** What a scan of the whole string yields, left to right: the characters
    outside every match, and the matches. *)
Inductive piece :=
| Keep (c : ascii)
| Hit (whole : str) (grp : option str).

Fixpoint scan_go (r : re) (prev : option ascii) (rest : str) (skip : nat)
    : list piece :=
  match skip with
  | S k =>
      match rest with
      | [] => []
      | c :: rest' => scan_go r (Some c) rest' k
      end
  | O =>
      match rest with
      | [] =>
          match match_at r false prev [] with
          | Some (_, g) => [Hit [] g]
          | None => []
          end
      | c :: rest' =>
          match match_at r false prev rest with
          | Some (S n, g) => Hit (take (S n) rest) g :: scan_go r (Some c) rest' n
          | Some (O, g) =>
              Hit [] g ::
              match match_at r true prev rest with
              | Some (S n, g') =>
                  Hit (take (S n) rest) g' :: scan_go r (Some c) rest' n
              | _ => Keep c :: scan_go r (Some c) rest' 0
              end
          | None => Keep c :: scan_go r (Some c) rest' 0
          end
      end
  end.

Definition scan (r : re) (s : str) : list piece := scan_go r None s 0.

(** What a piece contributes to the result of [re.sub]. *)
Definition emit (repl : str) (p : piece) : str :=
  match p with
  | Keep c => [c]
  | Hit _ _ => repl
  end.

(** [re.sub(r, repl, s)] for a replacement without backslash escapes. *)
Definition sub (r : re) (repl : str) (s : str) : str :=
  flat_map (emit repl) (scan r s).

(** What a piece contributes to the result of [re.findall]: group 1 of a
    match when the pattern has a group, the whole match otherwise. *)
Definition found (r : re) (p : piece) : list str :=
  match p with
  | Keep _ => []
  | Hit w g => [if has_group r then default [] g else w]
  end.

(** [re.findall(r, s)] *)
Definition findall (r : re) (s : str) : list str :=
  flat_map (found r) (scan r s).

Definition is_hit (p : piece) : bool :=
  match p with
  | Keep _ => false
  | Hit _ _ => true
  end.

(** [re.search(r, s) is not None] *)
Definition has_match (r : re) (s : str) : bool :=
  existsb is_hit (scan r s).

End Re.

(* ===================================================================== *)
(** ** The parser *)
(* ===================================================================== *)

Import Re.

(** [cat [r1; ...; rn]] is the pattern [r1...rn], [alt [r1; ...; rn]] the
    pattern [r1|...|rn]. *)
Fixpoint cat (l : list re) : re :=
  match l with
  | [] => Eps
  | [r] => r
  | r :: l' => Cat r (cat l')
  end.

Fixpoint alt (l : list re) : re :=
  match l with
  | [] => Eps
  | [r] => r
  | r :: l' => Alt r (alt l')
  end.

(** [\bw\b] and [\bw.\b] *)
Definition whole_word (w : str) : re := cat [WordB; lits w; WordB].
Definition whole_word_dot (w : str) : re := cat [WordB; lits w; Chr Any; WordB].

(** What [process_entry] hands on as the source information: [None], a list
    of tokens or a string. *)
Inductive src_value :=
| SrcNone
| SrcTokens (l : list str)
| SrcText (t : str).

Inductive error :=
| AssertionError (msg : str)
| IndexError (msg : str).

Inductive outcome (A : Type) :=
| Returned (a : A)
| Raised (e : error).
Arguments Returned {A} a.
Arguments Raised {A} e.

(** [(original, translation, src_origin, src_info)] *)
Definition entry : Type := str * str * str * src_value.

(** [(src_origin, original, translation, src_info)], the first two
    optional. *)
Definition row : Type := str * option str * str * src_value.

(** Python's truth value of the source information. *)
Definition src_truthy (v : src_value) : bool :=
  match v with
  | SrcNone => false
  | SrcTokens l => negb (bool_decide (l = []))
  | SrcText t => negb (bool_decide (t = []))
  end.

(** Lines 94-101. *)
Definition format_output (e : entry) : row :=
  let '(original, translation, src_origin, src_info) := e in
  let src_info := if src_truthy src_info then src_info else SrcNone in
  if bool_decide (translation = [])
  then (src_origin, None, original, src_info)
  else (src_origin, Some original, translation, src_info).

(** Line 107: [\bPr.\b|\bPr\b|\bProv.\b|\bProv\b] *)
Definition proverb_re : re :=
  alt [whole_word_dot "Pr"; whole_word "Pr";
       whole_word_dot "Prov"; whole_word "Prov"].

(** Line 108: [\bM.\b|\bM\b] *)
Definition maxim_re : re :=
  alt [whole_word_dot "M"; whole_word "M"].

(** Lines 107-108, the two substitutions of [refactor_src_info]. *)
Definition expand_abbrev (res : str) : str :=
  let res := sub proverb_re "Proverb" res in
  sub maxim_re "Maxim" res.

(** Lines 104-109. *)
Definition refactor_src_info (src_info : list str) : str :=
  expand_abbrev (Str.join ". " src_info).

(** Lines 113-121. *)
Definition rule (pattern : re) (repl : str) : re * str := (pattern, repl).

Definition substitutions : list (re * str) :=
  [ rule (Rep true 1 Digit) "";                              (* \d+ *)
    rule (lits "(?)") "";                                    (* \(\?\) *)
    rule (Chr (Lit Char.newline)) " ";                       (* \n *)
    rule (Rep true 2 (Lit " ")) " ";                         (* [ ]{2,} *)
    rule (lits "_ _") " ";                                   (* _ _ *)
    rule (cat [lits "= ("; Rep false 0 Any; Chr (Lit ")"); Chr Any]) "=";
                                                             (* = \(.*?\). *)
    rule (cat [lits "(_lit"; Chr Any; lits "_ "; Rep false 0 Any;
               Chr (Lit ")")]) "" ].                         (* \(_lit._ .*?\) *)

(** Lines 123-125. *)
Definition normalize (s : str) : str :=
  fold_left (fun clean rule => sub rule.1 rule.2 clean) substitutions s.

(** Line 129: [^.*?_.*?_] *)
Definition span_re : re :=
  cat [Bol; Rep false 0 Any; Chr (Lit "_"); Rep false 0 Any; Chr (Lit "_")].

(** Lines 141-158. *)
Definition delete_conditions : list re :=
  [ lits ","; lits "'";
    whole_word "to"; whole_word "To";
    whole_word "at"; whole_word "At";
    whole_word "on"; whole_word "On";
    whole_word "by"; whole_word "By";
    whole_word "in"; whole_word "In";
    whole_word "said"; whole_word "Said";
    whole_word "upon"; whole_word "Upon" ].

(** Line 162: ["(" + word + ").*$"] *)
Definition delete_pattern (word : re) : re :=
  cat [Grp word; Rep true 0 Any; Eol].

(** Lines 161-163. *)
Definition delete_elaborations (src_info_string : str) : str :=
  fold_left (fun acc word => sub (delete_pattern word) "" acc)
    delete_conditions src_info_string.

(** Lines 165-169. *)
Definition src_tokens (src_info_string : str) : list str :=
  omap (fun token =>
          if bool_decide (Str.strip token = []) then None
          else Some (Str.strip token))
    (Str.split "." (Str.replace "_" "" src_info_string)).

(** Line 176: [\[Greek: (.*?)\]] *)
Definition greek_re : re :=
  cat [lits "[Greek: "; Grp (Rep false 0 Any); Chr (Lit "]")].

(** Line 205: [, _i.e._.*?$] *)
Definition ie_re : re :=
  cat [lits ", _i"; Chr Any; lits "e"; Chr Any; lits "_"; Rep false 0 Any; Eol].

Section Parser.

(** The tables of [custom_data]. *)
Variable shakespeare_aliases : gset str.
Variable auth_lang_map : gmap str str.
Variable auth_abbrev_map : gmap str str.
Variable origin_abbrev_map : gmap str str.

(** Lines 129-173: the source information, in the last [_..._] of the
    text, is cut off the text and split into tokens. *)
Definition extract_attribution (clean : str) : str * option (list str) :=
  let reversed_src_info := findall span_re (rev clean) in
  match reversed_src_info with
  | [] => (clean, None)
  | m :: _ =>
      let src_info_string := rev m in
      let clean := Str.rstrip (Str.replace src_info_string "" clean) in
      let src_info_string := Str.rstrip src_info_string in
      let src_info_string := delete_elaborations src_info_string in
      let src_info := src_tokens src_info_string in
      let src_info :=
        if bool_decide (refactor_src_info src_info ∈ shakespeare_aliases)
        then [("Shakespeare" : str)]
        else src_info in
      (clean, Some src_info)
  end.

(** Lines 178-191. *)
Definition greek_entry (clean : str) (src_info : option (list str))
    (original : str) : outcome entry :=
  let translation := Str.replace ("[Greek: " ++ original ++ "]") "" clean in
  if bool_decide (take 2 translation = "--") then
    let translation := Str.rstrip (drop 2 translation) in
    let src_info :=
      match src_info with
      | None => SrcNone
      | Some [] => SrcTokens []
      | Some (first :: others) =>
          SrcText (refactor_src_info
                     (if bool_decide (first = "Gr") then others
                      else first :: others))
      end in
    Returned (original, translation, ("Greek" : str), src_info)
  else Raised (AssertionError (translation ++ " should start with an emdash")).

(** Lines 216-261. *)
Definition resolve_origin (original translation : str)
    (src_info : option (list str)) : entry :=
  let fallback (src_info : src_value) : entry :=
    (original, translation,
     if bool_decide (translation = []) then ("UNK" : str) else ("Latin" : str),
     src_info) in
  match src_info with
  | Some (first :: others) =>
      let author := refactor_src_info (first :: others) in
      match auth_lang_map !! author with
      | Some src_origin =>
          (original, translation, src_origin,
           SrcText (default author (auth_abbrev_map !! author)))
      | None =>
          if bool_decide (first ∈ [("L" : str); ("Law" : str)]) then
            (original, translation, ("Latin" : str),
             SrcText (refactor_src_info (("Law" : str) :: others)))
          else
            match origin_abbrev_map !! first with
            | Some src_origin =>
                (original, translation, src_origin,
                 SrcText (refactor_src_info others))
            | None =>
                fallback (SrcText (refactor_src_info (first :: others)))
            end
      end
  | _ => fallback SrcNone
  end.

(** Lines 198-261. *)
Definition delimited_entry (clean : str) (src_info : option (list str))
    : outcome entry :=
  let chunks := filter (fun chunk => chunk ≠ []) (Str.split "=" clean) in
  let original := Str.join " " (Str.every_other chunks) in
  let translation := Str.last_field (Str.split "=" clean) in
  let translation := sub ie_re "" translation in
  let original := Str.rstrip original in
  let translation := Str.rstrip translation in
  if bool_decide (translation = []) then
    Returned (resolve_origin original translation src_info)
  else if bool_decide (take 2 translation = "--") then
    Returned (resolve_origin original (drop 2 translation) src_info)
  else
    Raised (AssertionError (translation ++ " should start with an emdash.")).

(** Lines 176-261. *)
Definition parse_entry (clean : str) (src_info : option (list str))
    : outcome entry :=
  match findall greek_re clean with
  | original :: _ => greek_entry clean src_info original
  | [] => delimited_entry clean src_info
  end.

(** Lines 112-261. *)
Definition process_entry (s : str) : outcome entry :=
  let '(clean, src_info) := extract_attribution (normalize s) in
  parse_entry clean src_info.

(** The state of [process_Wood]: the rows appended to [cleaned], the lines
    of the entry being read, and what was printed. *)
Record wood := Wood {
  cleaned : list row;
  lst : list str;
  printed : list str
}.

(** Lines 270-280, the body of the loop. *)
Definition wood_line (w : wood) (line : str) : wood :=
  if bool_decide (line ≠ [Char.newline]) then
    Wood (cleaned w) (lst w ++ [line]) (printed w)
  else
    match process_entry (concat (lst w)) with
    | Returned e => Wood (cleaned w ++ [format_output e]) [] (printed w)
    | Raised (IndexError msg) =>
        Wood (cleaned w) [] (printed w ++ ["IndexError: " ++ msg])
    | Raised (AssertionError msg) =>
        Wood (cleaned w) [] (printed w ++ ["AssertionError: " ++ msg])
    end.

(** Lines 264-285, for a file with the given lines: the list returned, or
    the exception that leaves the function. *)
Definition process_Wood (lines : list str) : outcome (list row) :=
  let w := fold_left wood_line lines (Wood [] [] []) in
  match process_entry (concat (lst w)) with
  | Returned e => Returned (cleaned w ++ [format_output e])
  | Raised err => Raised err
  end.

End Parser.

(* ===================================================================== *)
(** ** The tally of the sources (lines 313-355) *)
(* ===================================================================== *)

(** [authorset], a [dict] from sources to counts, with its keys in the
    order of their insertion. *)
Definition authors : Type := list (str * Z).

(** Lines 320-323: [authorset[src] += 1], or [authorset[src] = 1] when the
    key is missing. *)
Fixpoint count_author (src : str) (authorset : authors) : authors :=
  match authorset with
  | [] => [(src, 1%Z)]
  | (name, count) :: others =>
      if bool_decide (name = src) then (name, (count + 1)%Z) :: others
      else (name, count) :: count_author src others
  end.

(** Lines 317-323, without the writing of the log.  A source that is a list
    with tokens cannot be a key: the [TypeError] ends the loop, which is
    [None] here. *)
Fixpoint tally (processed : list row) (authorset : authors) : option authors :=
  match processed with
  | [] => Some authorset
  | (_, _, _, src) :: others =>
      if src_truthy src then
        match src with
        | SrcText t => tally others (count_author t authorset)
        | _ => None
        end
      else tally others authorset
  end.

(** Line 327: [sorted(..., key=lambda x: x[1], reverse=True)], a stable sort
    by falling counts: of two items with the same count the one that came
    first stays first. *)
Fixpoint insert_by_count (item : str * Z) (sorted : list (str * Z))
    : list (str * Z) :=
  match sorted with
  | [] => [item]
  | other :: rest =>
      if (other.2 <=? item.2)%Z then item :: other :: rest
      else other :: insert_by_count item rest
  end.

Definition sorted_by_count (items : list (str * Z)) : list (str * Z) :=
  foldr insert_by_count [] items.

(** Line 337. *)
Definition generic_auths : list str :=
  [("Proverb" : str); ("Maxim" : str); ("Anon" : str); ("Saying" : str);
   ("Quoted" : str)].

(** Lines 338-346: the counts of the generic and of the other sources, each
    under its rank [i]. *)
Fixpoint split_by_rank (i : nat) (auth_counts : list (str * Z))
    : list (nat * Z) * list (nat * Z) :=
  match auth_counts with
  | [] => ([], [])
  | (name, count) :: others =>
      let '(generic_auth_counts, specific_auth_counts) :=
        split_by_rank (S i) others in
      if bool_decide (name ∈ generic_auths)
      then ((i, count) :: generic_auth_counts, specific_auth_counts)
      else (generic_auth_counts, (i, count) :: specific_auth_counts)
  end.

(** Line 348: [sum(authorset.values())] *)
Definition total_docs (authorset : authors) : Z :=
  foldr Z.add 0%Z (map snd authorset).

(** Lines 351-355: what the generator yields, from the running count
    [cum_count] on. *)
Fixpoint cumulative_from (cum_count : Z) (counts : list Z) : list Z :=
  match counts with
  | [] => []
  | count :: others =>
      let cum_count := (cum_count + count)%Z in
      cum_count :: cumulative_from cum_count others
  end.

Definition cumulative_counts (counts : list Z) : list Z :=
  cumulative_from 0 counts.
(* ===================================================================== *)
(** ** Auxiliary definitions *)
(* ===================================================================== *)

(** The character before the position reached after [consumed]. *)
Definition prev_after (prev : option ascii) (consumed : str) : option ascii :=
  match last consumed with
  | Some c => Some c
  | None => prev
  end.

(** No attempt of [r] succeeds at any position from [rest] on. *)
Fixpoint quiet (r : re) (prev : option ascii) (rest : str) : Prop :=
  match_at r false prev rest = None /\
  match rest with
  | [] => True
  | c :: rest' => quiet r (Some c) rest'
  end.

(** [sub] from inside the string. *)
Definition sub_from (r : re) (repl : str) (prev : option ascii) (rest : str)
    : str :=
  flat_map (emit repl) (scan_go r prev rest 0).

(** Every successful attempt of [r] takes at least one character. *)
Definition nonnull (r : re) : Prop :=
  forall prev rest n g, match_at r false prev rest = Some (n, g) -> (0 < n)%nat.

(** The text before the first position at which [mark] holds. *)
Fixpoint cut_at (mark : str -> bool) (s : str) : str :=
  match s with
  | [] => []
  | x :: s' => if mark s then [] else x :: cut_at mark s'
  end.

(** The text begins with the character [c]. *)
Definition begins_with (c : ascii) (s : str) : bool :=
  match s with
  | x :: _ => Ascii.eqb x c
  | [] => false
  end.

(** The text begins with a comma or an apostrophe. *)
Definition at_comma_or_apostrophe (s : str) : bool :=
  begins_with "," s || begins_with "'" s.

(** The text begins with [, _i.e._], where each dot of the pattern stands for
    any character but the newline. *)
Definition at_ie_marker (s : str) : bool :=
  match s with
  | c1 :: c2 :: c3 :: c4 :: x :: c5 :: y :: c6 :: _ =>
      Str.eqb [c1; c2; c3; c4] ", _i" && cls_ok Any x && Ascii.eqb c5 "e"
      && cls_ok Any y && Ascii.eqb c6 "_"
  | _ => false
  end.

(** [pat] occurs in [s] at index [i]. *)
Definition occurs_at (pat s : str) (i : nat) : Prop :=
  Str.starts_with pat (drop i s) = true.

(** The origin and the source information of an entry. *)
Definition entry_origin (e : entry) : str := e.1.2.
Definition entry_src (e : entry) : src_value := e.2.

(** One of the three rules of lines 219-247 applies to the source
    information: the author is in the table, the first token is [L] or
    [Law], or the first token is an abbreviation of an origin. *)
Definition rule_applies (auth_lang_map origin_abbrev_map : gmap str str)
    (src_info : option (list str)) : Prop :=
  match src_info with
  | Some (first :: others) =>
      is_Some (auth_lang_map !! refactor_src_info (first :: others)) \/
      first ∈ [("L" : str); ("Law" : str)] \/
      is_Some (origin_abbrev_map !! first)
  | _ => False
  end.

(** The positions that a pattern can reach: [reach r st st'] says that [r]
    matches from the state [st] up to the state [st'].  The backtracking
    matcher succeeds exactly when its continuation succeeds at one of the
    states that can be reached. *)
Fixpoint reach (r : re) (st st' : mstate) : Prop :=
  match r with
  | Eps => st' = st
  | Chr c =>
      exists x rest,
        ms_rest st = x :: rest /\ cls_ok c x = true /\
        st' = MState (Some x) rest (ms_grp st)
  | Rep _ min c =>
      exists taken rest,
        ms_rest st = taken ++ rest /\ forallb (cls_ok c) taken = true /\
        min <= length taken /\
        st' = MState (prev_after (ms_prev st) taken) rest (ms_grp st)
  | Bol => ms_prev st = None /\ st' = st
  | Eol => at_eol (ms_rest st) = true /\ st' = st
  | WordB => at_boundary (ms_prev st) (ms_rest st) = true /\ st' = st
  | Cat r1 r2 => exists m, reach r1 st m /\ reach r2 m st'
  | Alt r1 r2 => reach r1 st st' \/ reach r2 st st'
  | Grp r1 =>
      exists m,
        reach r1 st m /\
        st' = MState (ms_prev m) (ms_rest m)
                (Some (take (length (ms_rest st) - length (ms_rest m))
                         (ms_rest st)))
  end.

(** Wherever [r'] fails from [s] on, [r] fails too. *)
Fixpoint calm (r r' : re) (prev : option ascii) (s : str) : Prop :=
  (match_at r' false prev s = None -> match_at r false prev s = None) /\
  match s with
  | [] => True
  | c :: s' => calm r r' (Some c) s'
  end.

(** How the previous character [q] of the result relates to the previous
    character [p] of the text during a substitution: both are word
    characters or neither is, or the result is inside a word that has just
    begun in the text. *)
Definition in_step (q p : option ascii) (s : str) : Prop :=
  word_opt q = word_opt p \/
  (word_opt q = true /\ word_opt (head s) = true).

(** The entries of a file: the texts that a blank line ends, and the text
    after the last blank line; [lst] holds the lines read since the last
    blank line. *)
Fixpoint blocks_from (lst lines : list str) : list str * str :=
  match lines with
  | [] => ([], concat lst)
  | line :: lines' =>
      if bool_decide (line ≠ [Char.newline])
      then blocks_from (lst ++ [line]) lines'
      else (concat lst :: (blocks_from [] lines').1, (blocks_from [] lines').2)
  end.

(** The source information of a row is [None] or a string that is not
    empty. *)
Definition src_plain (v : src_value) : Prop :=
  v = SrcNone \/ exists t, t <> [] /\ v = SrcText t.

(** The row of an entry, if the entry is parsed, and what is printed for
    it, if it raises. *)
Definition entry_row (shakespeare_aliases : gset str)
    (auth_lang_map auth_abbrev_map origin_abbrev_map : gmap str str)
    (block : str) : option row :=
  match process_entry shakespeare_aliases auth_lang_map auth_abbrev_map
          origin_abbrev_map block with
  | Returned e => Some (format_output e)
  | Raised _ => None
  end.

Definition entry_print (shakespeare_aliases : gset str)
    (auth_lang_map auth_abbrev_map origin_abbrev_map : gmap str str)
    (block : str) : option str :=
  match process_entry shakespeare_aliases auth_lang_map auth_abbrev_map
          origin_abbrev_map block with
  | Returned _ => None
  | Raised (IndexError msg) => Some ("IndexError: " ++ msg)
  | Raised (AssertionError msg) => Some ("AssertionError: " ++ msg)
  end.

(** A text without white space at its end. *)
Definition trimmed_right (s : str) : Prop := Str.rstrip s = s.

(** The source information that [process_entry] hands on is [None], the
    empty list or a string. *)
Definition src_kind (v : src_value) : Prop :=
  v = SrcNone \/ v = SrcTokens [] \/ exists t, v = SrcText t.

(** The least number of characters that a match of the pattern takes. *)
Fixpoint min_len (r : re) : nat :=
  match r with
  | Eps | Bol | Eol | WordB => 0
  | Chr _ => 1
  | Rep _ min _ => min
  | Cat r1 r2 => min_len r1 + min_len r2
  | Alt r1 r2 => Nat.min (min_len r1) (min_len r2)
  | Grp r1 => min_len r1
  end.

(** The original and the translation of an entry. *)
Definition entry_original (e : entry) : str := e.1.1.1.
Definition entry_translation (e : entry) : str := e.1.1.2.

(** The source of a row that is counted in the tally. *)
Definition row_source (r : row) : option str :=
  match r.2 with
  | SrcText t => if bool_decide (t = []) then None else Some t
  | _ => None
  end.

(** [authorset.get(name)] *)
Fixpoint author_count (name : str) (authorset : authors) : option Z :=
  match authorset with
  | [] => None
  | (other, count) :: others =>
      if bool_decide (other = name) then Some count
      else author_count name others
  end.

(** How often [name] occurs in a list of sources. *)
Definition occurrences (name : str) (sources : list str) : nat :=
  length (filter (fun source => source = name) sources).

(** The sum of a list of counts. *)
Definition sum_counts (counts : list Z) : Z := foldr Z.add 0%Z counts.

(** A list of items in the order of falling counts. *)
Fixpoint falling (items : list (str * Z)) : Prop :=
  match items with
  | [] => True
  | item :: others =>
      Forall (fun other : str * Z => (other.2 <= item.2)%Z) others /\
      falling others
  end.

(** [t] is [s] without the white space at its end: what is taken off is
    white space, and [t] does not end with white space. *)
Definition trimmed_of (t s : str) : Prop :=
  (exists blanks,
      s = t ++ blanks /\ Forall (fun c => Char.is_space c = true) blanks) /\
  (forall c, last t = Some c -> Char.is_space c = false).

(** [first], and then every one of [others] after a separator [sep]. *)
Definition separated (sep : ascii) (first : str) (others : list str) : str :=
  first ++ flat_map (cons sep) others.

(** Words with one space between them. *)
Definition spaced (words : list str) : str :=
  match words with
  | [] => []
  | word :: others => separated " " word others
  end.

(** The trigger words of lines 144-157, the delete conditions after the
    comma and the apostrophe. *)
Definition trigger_words : list re := drop 2 delete_conditions.

(** Lines 161-163 for the trigger words alone. *)
Definition cut_at_trigger_words (s : str) : str :=
  fold_left (fun acc word => sub (delete_pattern word) "" acc) trigger_words s.

(* ===================================================================== *)
(** ** The matcher *)
(* ===================================================================== *)

Section MatcherFacts.
Context {A : Type}.
Implicit Types (k : mstate -> option A) (c : cls) (st : mstate).

Lemma prev_after_nil prev : prev_after prev [] = prev.
Proof. reflexivity. Qed.

Lemma prev_after_cons prev x l :
  prev_after prev (x :: l) = prev_after (Some x) l.
Proof.
  unfold prev_after. destruct l as [|y l]; [reflexivity|].
  change (last (x :: y :: l)) with (last (y :: l)).
  destruct (last (y :: l)) eqn:E; [reflexivity|].
  apply last_None in E. discriminate.
Qed.

Lemma prev_after_app prev l1 l2 :
  prev_after prev (l1 ++ l2) = prev_after (prev_after prev l1) l2.
Proof.
  revert prev. induction l1 as [|x l1 IH]; intros prev; [reflexivity|].
  simpl. rewrite !prev_after_cons. apply IH.
Qed.

Lemma prev_after_snoc prev l x : prev_after prev (l ++ [x]) = Some x.
Proof. rewrite prev_after_app. reflexivity. Qed.

(** A successful repetition took some characters of the class and handed
    the rest to the continuation. *)
Lemma star_greedy_inv c k prev grp rest a :
  star_greedy c k prev grp rest = Some a ->
  exists taken rest',
    rest = taken ++ rest' /\ forallb (cls_ok c) taken = true /\
    k (MState (prev_after prev taken) rest' grp) = Some a.
Proof.
  revert prev. induction rest as [|x rest IH]; intros prev H; simpl in H.
  - exists [], []. auto.
  - destruct (cls_ok c x) eqn:Hx.
    + destruct (star_greedy c k (Some x) grp rest) eqn:E.
      * injection H as ->. apply IH in E as (taken & rest' & -> & Hall & Hk).
        exists (x :: taken), rest'. rewrite prev_after_cons. simpl.
        rewrite Hx. auto.
      * exists [], (x :: rest). auto.
    + exists [], (x :: rest). auto.
Qed.

Lemma star_lazy_inv c k prev grp rest a :
  star_lazy c k prev grp rest = Some a ->
  exists taken rest',
    rest = taken ++ rest' /\ forallb (cls_ok c) taken = true /\
    k (MState (prev_after prev taken) rest' grp) = Some a.
Proof.
  revert prev. induction rest as [|x rest IH]; intros prev H; simpl in H.
  - destruct (k (MState prev [] grp)) eqn:E; [|discriminate].
    exists [], []. injection H as ->. auto.
  - destruct (k (MState prev (x :: rest) grp)) eqn:E.
    + injection H as ->. exists [], (x :: rest). auto.
    + destruct (cls_ok c x) eqn:Hx; [|discriminate].
      apply IH in H as (taken & rest' & -> & Hall & Hk).
      exists (x :: taken), rest'. rewrite prev_after_cons. simpl.
      rewrite Hx. auto.
Qed.

Lemma rep_min_inv c n k prev grp rest a :
  rep_min c n k prev grp rest = Some a ->
  exists taken rest',
    rest = taken ++ rest' /\ forallb (cls_ok c) taken = true /\
    length taken = n /\
    k (MState (prev_after prev taken) rest' grp) = Some a.
Proof.
  revert prev rest. induction n as [|n IH]; intros prev rest H; simpl in H.
  - exists [], rest. auto.
  - destruct rest as [|x rest]; [discriminate|].
    destruct (cls_ok c x) eqn:Hx; [|discriminate].
    apply IH in H as (taken & rest' & -> & Hall & Hlen & Hk).
    exists (x :: taken), rest'. rewrite prev_after_cons. simpl.
    rewrite Hx, Hlen. auto.
Qed.

(** A successful match ends in a success of the continuation, at a
    position further on in the text. *)
Lemma exec_inv r : forall st k a,
  exec r st k = Some a ->
  exists st', ms_rest st' `suffix_of` ms_rest st /\ k st' = Some a.
Proof.
  induction r as [| c | greedy n c | | | | r1 IH1 r2 IH2 | r1 IH1 r2 IH2 | r1 IH1];
    intros st k a H; simpl in H.
  - exists st. auto.
  - destruct (ms_rest st) as [|x rest] eqn:E; [discriminate|].
    destruct (cls_ok c x); [|discriminate].
    eexists. split; [|exact H]. simpl. exists [x]. reflexivity.
  - apply rep_min_inv in H as (t1 & rest1 & E1 & _ & _ & H). simpl in H.
    assert (exists t2 rest2, rest1 = t2 ++ rest2 /\
              k (MState (prev_after (prev_after (ms_prev st) t1) t2) rest2 (ms_grp st)) = Some a)
      as (t2 & rest2 & E2 & Hk).
    { destruct greedy.
      - apply star_greedy_inv in H as (t2 & rest2 & ? & _ & ?). eauto.
      - apply star_lazy_inv in H as (t2 & rest2 & ? & _ & ?). eauto. }
    eexists. split; [|exact Hk]. simpl. exists (t1 ++ t2).
    rewrite E1, E2, app_assoc. reflexivity.
  - destruct (ms_prev st); [discriminate|]. exists st. auto.
  - destruct (at_eol (ms_rest st)); [|discriminate]. exists st. auto.
  - destruct (at_boundary (ms_prev st) (ms_rest st)); [|discriminate].
    exists st. auto.
  - apply IH1 in H as (st1 & S1 & H). apply IH2 in H as (st2 & S2 & H).
    exists st2. split; [|exact H]. etrans; eassumption.
  - destruct (exec r1 st k) eqn:E.
    + injection H as ->. eauto.
    + eauto.
  - apply IH1 in H as (st1 & S1 & H). eexists. split; [|exact H]. exact S1.
Qed.

(** Only what the continuation does further on in the text matters. *)
Lemma star_greedy_ext c k1 k2 prev grp rest :
  (forall st', ms_rest st' `suffix_of` rest -> k1 st' = k2 st') ->
  star_greedy c k1 prev grp rest = star_greedy c k2 prev grp rest.
Proof.
  revert prev. induction rest as [|x rest IH]; intros prev H; simpl.
  - apply H. reflexivity.
  - rewrite (IH (Some x)).
    2:{ intros st' S'. apply H. apply suffix_cons_r, S'. }
    rewrite (H (MState prev (x :: rest) grp)) by reflexivity. reflexivity.
Qed.

Lemma star_lazy_ext c k1 k2 prev grp rest :
  (forall st', ms_rest st' `suffix_of` rest -> k1 st' = k2 st') ->
  star_lazy c k1 prev grp rest = star_lazy c k2 prev grp rest.
Proof.
  revert prev. induction rest as [|x rest IH]; intros prev H; simpl.
  - rewrite (H (MState prev [] grp)) by reflexivity. reflexivity.
  - rewrite (IH (Some x)).
    2:{ intros st' S'. apply H. apply suffix_cons_r, S'. }
    rewrite (H (MState prev (x :: rest) grp)) by reflexivity. reflexivity.
Qed.

Lemma rep_min_ext c n k1 k2 prev grp rest :
  (forall st', ms_rest st' `suffix_of` rest -> k1 st' = k2 st') ->
  rep_min c n k1 prev grp rest = rep_min c n k2 prev grp rest.
Proof.
  revert prev rest. induction n as [|n IH]; intros prev rest H; simpl.
  - apply H. reflexivity.
  - destruct rest as [|x rest]; [reflexivity|].
    destruct (cls_ok c x); [|reflexivity].
    apply IH. intros st' S'. apply H. apply suffix_cons_r, S'.
Qed.

Lemma exec_ext r : forall st k1 k2,
  (forall st', ms_rest st' `suffix_of` ms_rest st -> k1 st' = k2 st') ->
  exec r st k1 = exec r st k2.
Proof.
  induction r as [| c | greedy n c | | | | r1 IH1 r2 IH2 | r1 IH1 r2 IH2 | r1 IH1];
    intros st k1 k2 H; simpl.
  - apply H. reflexivity.
  - destruct (ms_rest st) as [|x rest] eqn:E; [reflexivity|].
    destruct (cls_ok c x); [|reflexivity].
    apply H. simpl. exists [x]. reflexivity.
  - apply rep_min_ext. intros st1 S1.
    destruct greedy; [apply star_greedy_ext | apply star_lazy_ext];
      intros st2 S2; apply H; etrans; eassumption.
  - destruct (ms_prev st); [reflexivity|]. apply H. reflexivity.
  - destruct (at_eol (ms_rest st)); [|reflexivity]. apply H. reflexivity.
  - destruct (at_boundary (ms_prev st) (ms_rest st)); [|reflexivity].
    apply H. reflexivity.
  - apply IH1. intros st1 S1. apply IH2. intros st2 S2. apply H.
    etrans; eassumption.
  - rewrite (IH1 st k1 k2 H), (IH2 st k1 k2 H). reflexivity.
  - apply IH1. intros st1 S1. apply H. exact S1.
Qed.
End MatcherFacts.

(* ===================================================================== *)
(** ** Scanning a string *)
(* ===================================================================== *)

Section ScanFacts.
Variable r : re.

Lemma match_at_le b prev rest n g :
  match_at r b prev rest = Some (n, g) -> n <= length rest.
Proof.
  unfold match_at. intros H. apply exec_inv in H as (st' & _ & H).
  destruct (b && _); [discriminate|]. injection H as <- _. lia.
Qed.

Lemma scan_go_drop k : forall rest prev,
  k <= length rest ->
  scan_go r prev rest k = scan_go r (prev_after prev (take k rest)) (drop k rest) 0.
Proof.
  induction k as [|k IH]; intros rest prev Hk.
  - rewrite take_0, drop_0. reflexivity.
  - destruct rest as [|c rest]; simpl in Hk; [lia|].
    simpl. rewrite prev_after_cons. apply IH. lia.
Qed.

(** Where no attempt succeeds the scan keeps every character. *)
Lemma scan_quiet rest : forall prev,
  quiet r prev rest -> scan_go r prev rest 0 = map Keep rest.
Proof.
  induction rest as [|c rest IH]; intros prev [H0 H]; simpl.
  - rewrite H0. reflexivity.
  - rewrite H0. f_equal. apply IH, H.
Qed.

Lemma quiet_of_scan rest : forall prev,
  existsb is_hit (scan_go r prev rest 0) = false -> quiet r prev rest.
Proof.
  induction rest as [|c rest IH]; intros prev H; simpl in H |- *.
  - destruct (match_at r false prev []) as [[n g]|]; [discriminate|]. auto.
  - destruct (match_at r false prev (c :: rest)) as [[[|n] g]|];
      try discriminate.
    split; [reflexivity|]. apply IH, H.
Qed.

Lemma flat_map_emit_keep repl (l : str) : flat_map (emit repl) (map Keep l) = l.
Proof. induction l as [|c l IH]; simpl; [|rewrite IH]; reflexivity. Qed.

Lemma flat_map_found_keep (l : str) : flat_map (found r) (map Keep l) = [].
Proof. induction l as [|c l IH]; simpl; [|rewrite IH]; reflexivity. Qed.

Lemma sub_quiet repl s : quiet r None s -> sub r repl s = s.
Proof.
  intros H. unfold sub, scan. rewrite (scan_quiet _ _ H).
  apply flat_map_emit_keep.
Qed.

Lemma findall_quiet s : quiet r None s -> findall r s = [].
Proof.
  intros H. unfold findall, scan. rewrite (scan_quiet _ _ H).
  apply flat_map_found_keep.
Qed.

(** A substitution whose pattern matches nowhere leaves the string as it
    is. *)
Lemma sub_no_match repl s : has_match r s = false -> sub r repl s = s.
Proof. intros H. apply sub_quiet, quiet_of_scan, H. Qed.

(** Every character of the result comes from the string or from the
    replacement. *)
Lemma sub_go_chars repl x rest : forall prev k,
  x ∈ flat_map (emit repl) (scan_go r prev rest k) -> x ∈ rest \/ x ∈ repl.
Proof.
  assert (Hhit : forall (w : str) g (l : list piece),
             x ∈ flat_map (emit repl) (Hit w g :: l) ->
             x ∈ repl \/ x ∈ flat_map (emit repl) l).
  { intros w g l H. simpl in H. apply elem_of_app in H. exact H. }
  induction rest as [|c rest IH]; intros prev k H.
  - destruct k; simpl in H.
    + destruct (match_at r false prev []) as [[n g]|]; simpl in H.
      * rewrite app_nil_r in H. auto.
      * inversion H.
    + inversion H.
  - assert (Hrec : forall p k', x ∈ flat_map (emit repl) (scan_go r p rest k') ->
               x ∈ c :: rest \/ x ∈ repl).
    { intros p k' H'. apply IH in H' as [H'|H']; [left; right|right]; exact H'. }
    assert (Hkeep : x ∈ flat_map (emit repl) (Keep c :: scan_go r (Some c) rest 0) ->
               x ∈ c :: rest \/ x ∈ repl).
    { simpl. intros H'. apply elem_of_cons in H' as [->|H'].
      - left; left.
      - eapply Hrec, H'. }
    destruct k; simpl in H; [|eapply Hrec, H].
    destruct (match_at r false prev (c :: rest)) as [[[|n] g]|].
    + apply Hhit in H as [H|H]; [auto|].
      destruct (match_at r true prev (c :: rest)) as [[[|n'] g']|];
        [apply Hkeep, H| |apply Hkeep, H].
      apply Hhit in H as [H|H]; [auto|]. eapply Hrec, H.
    + apply Hhit in H as [H|H]; [auto|]. eapply Hrec, H.
    + apply Hkeep, H.
Qed.

Lemma sub_chars repl x s : x ∈ sub r repl s -> x ∈ s \/ x ∈ repl.
Proof. apply sub_go_chars. Qed.

Lemma sub_sub_from repl s : sub r repl s = sub_from r repl None s.
Proof. reflexivity. Qed.

(** The scan of a pattern that takes a character at every match, one
    position at a time. *)
Lemma sub_from_nil repl prev : nonnull r -> sub_from r repl prev [] = [].
Proof.
  intros Hnn. unfold sub_from. simpl.
  destruct (match_at r false prev []) as [[n g]|] eqn:E; [|reflexivity].
  pose proof (Hnn _ _ _ _ E). pose proof (match_at_le _ _ _ _ _ E).
  simpl in *. lia.
Qed.

Lemma sub_from_cons repl prev c rest :
  nonnull r ->
  sub_from r repl prev (c :: rest) =
  match match_at r false prev (c :: rest) with
  | Some (n, _) =>
      repl ++ sub_from r repl (prev_after prev (take n (c :: rest)))
                (drop n (c :: rest))
  | None => c :: sub_from r repl (Some c) rest
  end.
Proof.
  intros Hnn. unfold sub_from. simpl.
  destruct (match_at r false prev (c :: rest)) as [[n g]|] eqn:E;
    [|reflexivity].
  pose proof (Hnn _ _ _ _ E). pose proof (match_at_le _ _ _ _ _ E) as Hle.
  destruct n as [|n]; [lia|]. simpl in Hle |- *.
  rewrite scan_go_drop by lia. rewrite prev_after_cons. reflexivity.
Qed.

Lemma quiet_nil prev : quiet r prev [] <-> match_at r false prev [] = None.
Proof. simpl. tauto. Qed.

Lemma quiet_cons prev c rest :
  quiet r prev (c :: rest) <->
  match_at r false prev (c :: rest) = None /\ quiet r (Some c) rest.
Proof. reflexivity. Qed.

Lemma sub_from_quiet repl prev rest :
  quiet r prev rest -> sub_from r repl prev rest = rest.
Proof.
  intros H. unfold sub_from. rewrite (scan_quiet _ _ H).
  apply flat_map_emit_keep.
Qed.
End ScanFacts.

(* ===================================================================== *)
(** ** The text normalizer (lines 112-125) *)
(* ===================================================================== *)

Lemma match_at_chr k b prev c rest :
  match_at (Chr k) b prev (c :: rest) =
  if cls_ok k c then Some (1, None) else None.
Proof.
  unfold match_at. cbn [exec ms_rest ms_grp].
  destruct (cls_ok k c); [|reflexivity].
  replace (length (c :: rest) - length rest) with 1 by (simpl; lia).
  rewrite andb_false_r. reflexivity.
Qed.

(** The third rule leaves no newline behind. *)
Lemma newline_replaced rest : forall prev,
  Char.newline ∉ sub_from (Chr (Lit Char.newline)) " " prev rest.
Proof.
  unfold sub_from.
  induction rest as [|c rest IH]; intros prev; simpl.
  - inversion 1.
  - rewrite match_at_chr. cbn [cls_ok].
    destruct (Ascii.eqb_spec c Char.newline) as [->|Hc]; simpl.
    + rewrite not_elem_of_cons. split; [discriminate|apply IH].
    + rewrite not_elem_of_cons. split; [congruence|apply IH].
  Qed.

Lemma sub_keeps_no_newline r repl s :
  Char.newline ∉ repl -> Char.newline ∉ s -> Char.newline ∉ sub r repl s.
Proof. intros Hr Hs H. apply sub_chars in H as [H|H]; auto. Qed.

Lemma normalize_unfold s :
  normalize s =
  fold_left (fun clean rule => sub rule.1 rule.2 clean) (drop 3 substitutions)
    (sub (Chr (Lit Char.newline)) " "
       (fold_left (fun clean rule => sub rule.1 rule.2 clean)
          (take 2 substitutions) s)).
Proof. reflexivity. Qed.

Lemma fold_sub_no_newline rules s :
  Forall (fun rule : re * str => Char.newline ∉ rule.2) rules ->
  Char.newline ∉ s ->
  Char.newline ∉ fold_left (fun clean rule => sub rule.1 rule.2 clean) rules s.
Proof.
  intros H. revert s. induction H as [|rule rules Hr _ IH]; intros s Hs; simpl.
  - exact Hs.
  - apply IH, sub_keeps_no_newline; assumption.
Qed.

Lemma normalize_no_newline s : Char.newline ∉ normalize s.
Proof.
  rewrite normalize_unfold. apply fold_sub_no_newline.
  - repeat constructor; simpl; intros H;
      repeat (apply elem_of_cons in H as [H|H]; [discriminate|]);
      inversion H.
  - apply newline_replaced.
Qed.

Lemma fold_sub_clean rules s :
  Forall (fun rule : re * str => has_match rule.1 s = false) rules ->
  fold_left (fun clean rule => sub rule.1 rule.2 clean) rules s = s.
Proof.
  induction 1 as [|rule rules Hr _ IH]; simpl; [reflexivity|].
  rewrite sub_no_match by exact Hr. exact IH.
Qed.

(** C8, as the code has it: the seven rules are total functions on strings,
    each of them leaves a string in which its pattern does not match as it
    is, and the result is a single line, without any newline.  Nothing is
    trimmed: a string that no rule matches, such as the empty string, comes
    out unchanged, with the white space that it has at its ends. *)
Theorem normalize_rules_noop_single_line (s : str) :
  (forall pattern repl t,
      (pattern, repl) ∈ substitutions ->
      has_match pattern t = false -> sub pattern repl t = t) /\
  (Forall (fun rule : re * str => has_match rule.1 s = false) substitutions ->
   normalize s = s) /\
  normalize "" = [] /\
  Char.newline ∉ normalize s.
Proof.
  split; [|split; [|split]].
  - intros pattern repl t _. apply sub_no_match.
  - apply fold_sub_clean.
  - reflexivity.
  - apply normalize_no_newline.
Qed.

Lemma normalize_rules_noop_single_line_witness :
  sub (lits "(?)") "" " Ab ovo. " = " Ab ovo. " /\
  normalize " Ab ovo. " = " Ab ovo. ".
Proof.
  destruct (normalize_rules_noop_single_line " Ab ovo. ") as (H1 & H2 & _ & _).
  split.
  - apply (H1 (lits "(?)") "" " Ab ovo. "); [|vm_compute; reflexivity].
    right. left.
  - apply H2. repeat constructor.
Defined.

(** C8, as stated, fails: the normalizer does not trim. *)
Lemma normalize_not_trimmed :
  normalize " a " = " a " /\ normalize " a " <> Str.strip (normalize " a ").
Proof. split; [reflexivity|]. intros H. vm_compute in H. discriminate. Qed.

(* ===================================================================== *)
(** ** The source information (lines 127-173) *)
(* ===================================================================== *)

(** A lazy repetition passes over the characters at which its continuation
    fails. *)
Lemma star_lazy_skip {A} c (k : mstate -> option A) grp taken rest : forall prev,
  (forall x, x ∈ taken ->
     cls_ok c x = true /\ forall p t, k (MState p (x :: t) grp) = None) ->
  star_lazy c k prev grp (taken ++ rest) =
  star_lazy c k (prev_after prev taken) grp rest.
Proof.
  induction taken as [|x taken IH]; intros prev H; [reflexivity|].
  destruct (H x) as [Hx Hk]; [left|].
  rewrite prev_after_cons. simpl. rewrite Hk, Hx. apply IH.
  intros y Hy. apply H. right. exact Hy.
Qed.

Lemma cls_ok_any x : x <> Char.newline -> cls_ok Any x = true.
Proof.
  intros H. simpl. unfold Char.is_newline.
  destruct (Ascii.eqb_spec x Char.newline); [contradiction|reflexivity].
Qed.

Lemma cls_ok_lit_ne x y : x <> y -> cls_ok (Lit y) x = false.
Proof. intros H. simpl. destruct (Ascii.eqb_spec x y); [contradiction|reflexivity]. Qed.

Lemma cls_ok_lit_eq x : cls_ok (Lit x) x = true.
Proof. simpl. apply Ascii.eqb_refl. Qed.

(** [^.*?_.*?_] needs two underscores. *)
Lemma span_match_count b prev s n g :
  match_at span_re b prev s = Some (n, g) -> 2 <= Str.count "_" s.
Proof.
  unfold match_at, span_re.
  cbn [cat exec lits ms_prev ms_rest ms_grp rep_min].
  destruct prev; [discriminate|]. intros H.
  apply star_lazy_inv in H as (t1 & r1 & -> & _ & H). cbn [ms_rest] in H.
  destruct r1 as [|x r1]; [discriminate|].
  destruct (Ascii.eqb_spec x "_") as [->|Hx];
    [rewrite cls_ok_lit_eq in H | rewrite cls_ok_lit_ne in H by exact Hx; discriminate].
  apply star_lazy_inv in H as (t2 & r2 & -> & _ & H). cbn [ms_rest] in H.
  destruct r2 as [|y r2]; [discriminate|].
  destruct (Ascii.eqb_spec y "_") as [->|Hy];
    [|rewrite cls_ok_lit_ne in H by exact Hy; discriminate].
  unfold Str.count.
  rewrite count_occ_app, count_occ_cons_eq, count_occ_app, count_occ_cons_eq
    by reflexivity.
  lia.
Qed.

Lemma span_not_at_start b c s : match_at span_re b (Some c) s = None.
Proof. reflexivity. Qed.

Lemma span_quiet_inside s : forall c, quiet span_re (Some c) s.
Proof.
  induction s as [|x s IH]; intros c; simpl; split; auto using span_not_at_start.
Qed.

Lemma span_quiet s : Str.count "_" s < 2 -> quiet span_re None s.
Proof.
  intros H.
  assert (H0 : match_at span_re false None s = None).
  { destruct (match_at span_re false None s) as [[n g]|] eqn:E; [|reflexivity].
    apply span_match_count in E. lia. }
  destruct s as [|x s]; simpl; split; auto using span_quiet_inside.
Qed.

(** With [c] and [b] free of underscores and newlines, [^.*?_.*?_] takes
    [c_b_] off the front of [c_b_a]. *)
Lemma span_match (c b a : str) :
  "_"%char ∉ c -> Char.newline ∉ c -> "_"%char ∉ b -> Char.newline ∉ b ->
  match_at span_re false None (c ++ "_"%char :: b ++ "_"%char :: a) =
  Some (length (c ++ "_"%char :: b ++ ["_"%char]), None).
Proof.
  intros Hc1 Hc2 Hb1 Hb2.
  unfold match_at, span_re.
  cbn [cat exec lits ms_prev ms_rest ms_grp rep_min].
  rewrite star_lazy_skip.
  2:{ intros x Hx. split.
      - apply cls_ok_any. intros ->. contradiction.
      - intros p t. cbn [ms_rest]. rewrite cls_ok_lit_ne; [reflexivity|].
        intros ->. contradiction. }
  cbn [star_lazy ms_rest ms_grp]. rewrite cls_ok_lit_eq.
  rewrite star_lazy_skip.
  2:{ intros x Hx. split.
      - apply cls_ok_any. intros ->. contradiction.
      - intros p t. cbn [ms_rest]. rewrite cls_ok_lit_ne; [reflexivity|].
        intros ->. contradiction. }
  cbn [star_lazy ms_rest ms_grp]. rewrite cls_ok_lit_eq.
  cbn [andb]. do 2 f_equal.
  rewrite !length_app. simpl. rewrite !length_app. simpl. lia.
Qed.

(** The first attempt of a scan that succeeds. *)
Lemma scan_hit r prev rest n g :
  match_at r false prev rest = Some (n, g) -> 0 < n ->
  scan_go r prev rest 0 =
  Hit (take n rest) g ::
  scan_go r (prev_after prev (take n rest)) (drop n rest) 0.
Proof.
  intros H Hn. pose proof (match_at_le _ _ _ _ _ _ H) as Hle.
  destruct rest as [|x rest]; simpl in Hle; [lia|].
  destruct n as [|n]; [lia|]. simpl. rewrite H.
  rewrite scan_go_drop by lia. rewrite prev_after_cons. reflexivity.
Qed.

Lemma span_findall (c b a : str) :
  "_"%char ∉ c -> Char.newline ∉ c -> "_"%char ∉ b -> Char.newline ∉ b ->
  findall span_re (c ++ "_"%char :: b ++ "_"%char :: a) =
  [c ++ "_"%char :: b ++ ["_"%char]].
Proof.
  intros Hc1 Hc2 Hb1 Hb2. unfold findall, scan.
  pose proof (span_match c b a Hc1 Hc2 Hb1 Hb2) as H.
  rewrite (scan_hit _ _ _ _ _ H) by (rewrite length_app; simpl; lia).
  set (m := c ++ "_"%char :: b ++ ["_"%char]).
  assert (E : c ++ "_"%char :: b ++ "_"%char :: a = m ++ a).
  { unfold m. rewrite <- !app_assoc. simpl. rewrite <- app_assoc. reflexivity. }
  rewrite E, take_app_length, drop_app_length.
  assert (Hp : prev_after None m = Some "_"%char).
  { replace m with ((c ++ "_"%char :: b) ++ ["_"%char])
      by (unfold m; rewrite <- app_assoc; reflexivity).
    apply prev_after_snoc. }
  rewrite Hp, (scan_quiet _ _ _ (span_quiet_inside a _)).
  simpl. rewrite flat_map_found_keep. reflexivity.
Qed.

(** [str.replace] *)
Lemma starts_with_app p t : Str.starts_with p (p ++ t) = true.
Proof.
  induction p as [|x p IH]; simpl; [reflexivity|].
  rewrite Ascii.eqb_refl. exact IH.
Qed.

Lemma replace_go_skip_all old new s : Str.replace_go old new s (length s) = [].
Proof. induction s as [|x s IH]; simpl; [reflexivity|exact IH]. Qed.

(** An occurrence at the end, with nothing like its first character before
    it, is the only one. *)
Lemma replace_at_end h old new (a : str) :
  h ∉ a ->
  Str.replace (h :: old) new (a ++ h :: old) = a ++ new.
Proof.
  unfold Str.replace. induction a as [|x a IH]; intros Ha.
  - cbn [app Str.replace_go].
    pose proof (starts_with_app (h :: old) []) as E.
    rewrite app_nil_r in E. rewrite E.
    simpl. rewrite Nat.sub_0_r, replace_go_skip_all, app_nil_r. reflexivity.
  - apply not_elem_of_cons in Ha as [Hx Ha].
    cbn [app Str.replace_go Str.starts_with].
    destruct (Ascii.eqb_spec h x) as [->|_]; [contradiction|].
    simpl. f_equal. apply IH, Ha.
Qed.

(** Closed decidable statements are settled by evaluation. *)
Ltac decide_by_vm :=
  lazymatch goal with
  | |- ?P => exact (bool_decide_unpack P ltac:(vm_compute; exact I))
  end.

Lemma rev_span (a b c : str) :
  rev (a ++ "_" ++ b ++ "_" ++ c) =
  rev c ++ "_"%char :: rev b ++ "_"%char :: rev a.
Proof.
  cbn [list_ascii_of_string app].
  rewrite rev_app_distr. cbn [rev]. rewrite rev_app_distr. cbn [rev].
  rewrite <- !app_assoc. reflexivity.
Qed.

Lemma not_elem_of_rev (x : ascii) (l : str) : x ∉ l -> x ∉ rev l.
Proof.
  intros H Hin. apply H. apply list_elem_of_In, in_rev, list_elem_of_In.
  exact Hin.
Qed.

(** C3, as the code has it: a text with fewer than two underscores holds no
    [_..._]; it is handed on as it is, not trimmed, and there is no source
    information. *)
Theorem extract_attribution_without_span (aliases : gset str) (text : str) :
  Str.count "_" text < 2 ->
  extract_attribution aliases text = (text, None).
Proof.
  intros H. unfold extract_attribution.
  rewrite findall_quiet; [reflexivity|].
  apply span_quiet. unfold Str.count in *. rewrite count_occ_rev. exact H.
Qed.

Lemma extract_attribution_without_span_witness :
  extract_attribution ∅ "Know thyself. " = ("Know thyself. " : str, None).
Proof.
  apply (extract_attribution_without_span ∅ "Know thyself. ").
  vm_compute. lia.
Defined.

(** C3, as stated, fails: the text is not trimmed when there is no span. *)
Lemma extract_attribution_not_trimmed :
  Str.count "_" "a " < 2 /\
  extract_attribution ∅ "a " = ("a " : str, None) /\
  extract_attribution ∅ "a " <> (Str.rstrip "a ", None).
Proof.
  split; [vm_compute; lia|]. split; [vm_compute; reflexivity|].
  intros H. vm_compute in H. discriminate.
Qed.

(** C4, as the code has it: in a text [a_b_c] with one span, everything from
    the opening underscore to the end of the text is cut off, the span and
    what follows it; the text that remains is [a], trimmed on the right;
    the tokens are read from what was cut off, and a known alias of
    Shakespeare becomes the one token [Shakespeare]. *)
Theorem extract_attribution_one_span (aliases : gset str) (a b c : str) :
  "_"%char ∉ a -> "_"%char ∉ b -> "_"%char ∉ c ->
  Char.newline ∉ b -> Char.newline ∉ c ->
  extract_attribution aliases (a ++ "_" ++ b ++ "_" ++ c) =
  (Str.rstrip a,
   Some
     (let tokens :=
        src_tokens (delete_elaborations (Str.rstrip ("_" ++ b ++ "_" ++ c))) in
      if bool_decide (refactor_src_info tokens ∈ aliases)
      then [("Shakespeare" : str)]
      else tokens)).
Proof.
  intros Ha Hb Hc Hnb Hnc. unfold extract_attribution.
  rewrite rev_span, span_findall by (apply not_elem_of_rev; assumption).
  assert (E : rev (rev c ++ "_"%char :: rev b ++ ["_"%char]) =
              "_"%char :: b ++ "_"%char :: c).
  { rewrite rev_app_distr. cbn [rev]. rewrite rev_app_distr. cbn [rev app].
    rewrite !rev_involutive, <- !app_assoc. reflexivity. }
  rewrite E. cbn [list_ascii_of_string app].
  rewrite replace_at_end by exact Ha. rewrite app_nil_r. reflexivity.
Qed.

Lemma extract_attribution_one_span_witness :
  extract_attribution ∅ ("=Ab ovo.=--From the egg. " ++ "_" ++ "Hor" ++ "_" ++ ".") =
  ("=Ab ovo.=--From the egg." : str, Some [("Hor" : str)]).
Proof.
  rewrite (extract_attribution_one_span ∅ "=Ab ovo.=--From the egg. " "Hor" ".").
  - vm_compute. reflexivity.
  - decide_by_vm.
  - decide_by_vm.
  - decide_by_vm.
  - decide_by_vm.
  - decide_by_vm.
Defined.

(** C4, as stated, fails: what follows the span goes with it. *)
Lemma extract_attribution_takes_tail :
  extract_attribution ∅ ("a " ++ "_b_" ++ " c") = ("a" : str, Some [("b c" : str)]) /\
  extract_attribution ∅ ("a " ++ "_b_" ++ " c") <>
  (Str.rstrip ("a " ++ " c"), Some (src_tokens (delete_elaborations "_b_"))).
Proof.
  split; [vm_compute; reflexivity|]. intros H. vm_compute in H. discriminate.
Qed.

(* ===================================================================== *)
(** ** Cutting the elaborations off the source information (lines 141-163) *)
(* ===================================================================== *)

Lemma at_eol_cons x rest : Char.newline ∉ x :: rest -> at_eol (x :: rest) = false.
Proof.
  intros H. destruct rest; [|reflexivity]. simpl. unfold Char.is_newline.
  destruct (Ascii.eqb_spec x Char.newline) as [->|]; [|reflexivity].
  exfalso. apply H. left.
Qed.

(** On a text without newline, [.*$] and [.*?$] take everything. *)
Lemma greedy_to_end {A} (k : mstate -> option A) grp rest : forall prev,
  Char.newline ∉ rest ->
  star_greedy Any (fun st => if at_eol (ms_rest st) then k st else None)
    prev grp rest =
  k (MState (prev_after prev rest) [] grp).
Proof.
  induction rest as [|x rest IH]; intros prev H; [reflexivity|].
  pose proof (at_eol_cons _ _ H) as He.
  apply not_elem_of_cons in H as [Hx H].
  cbn [star_greedy]. rewrite cls_ok_any by congruence.
  rewrite IH by exact H. rewrite prev_after_cons. cbn [ms_rest]. rewrite He.
  destruct (k _); reflexivity.
Qed.

Lemma lazy_to_end {A} (k : mstate -> option A) grp rest : forall prev,
  Char.newline ∉ rest ->
  star_lazy Any (fun st => if at_eol (ms_rest st) then k st else None)
    prev grp rest =
  k (MState (prev_after prev rest) [] grp).
Proof.
  induction rest as [|x rest IH]; intros prev H.
  - simpl. destruct (k _); reflexivity.
  - pose proof (at_eol_cons _ _ H) as He.
    apply not_elem_of_cons in H as [Hx H].
    cbn [star_lazy ms_rest]. rewrite He, cls_ok_any by congruence.
    rewrite IH by exact H. rewrite prev_after_cons. reflexivity.
Qed.

Lemma no_newline_suffix (l1 l2 : str) :
  l1 `suffix_of` l2 -> Char.newline ∉ l2 -> Char.newline ∉ l1.
Proof. intros [k ->] H Hin. apply H, elem_of_app. right. exact Hin. Qed.

Lemma no_newline_prefix (l1 l2 : str) :
  l1 `prefix_of` l2 -> Char.newline ∉ l2 -> Char.newline ∉ l1.
Proof. intros [k ->] H Hin. apply H, elem_of_app. left. exact Hin. Qed.

(** On a text without newline [(word).*$] succeeds where [word] does, and
    then takes the text to its end. *)
Lemma delete_pattern_exec word prev rest :
  Char.newline ∉ rest ->
  match_at (delete_pattern word) false prev rest =
  exec word (MState prev rest None)
    (fun st' =>
       Some (length rest,
             Some (take (length rest - length (ms_rest st')) rest))).
Proof.
  intros H. unfold match_at, delete_pattern.
  cbn [cat exec rep_min ms_rest ms_prev ms_grp andb].
  apply exec_ext. intros st' Hs. cbn [ms_rest ms_prev ms_grp].
  rewrite (greedy_to_end
             (fun st => Some (length rest - length (ms_rest st), ms_grp st))).
  - cbn [ms_rest ms_grp]. rewrite Nat.sub_0_r. reflexivity.
  - eapply no_newline_suffix; eassumption.
Qed.

Lemma delete_pattern_all word prev rest n g :
  Char.newline ∉ rest ->
  match_at (delete_pattern word) false prev rest = Some (n, g) ->
  n = length rest.
Proof.
  intros H E. rewrite delete_pattern_exec in E by exact H.
  apply exec_inv in E as (st' & _ & E). congruence.
Qed.

Lemma sub_from_end_empty r prev : sub_from r "" prev [] = [].
Proof.
  unfold sub_from. simpl. destruct (match_at r false prev []) as [[n g]|];
    reflexivity.
Qed.

(** A match that takes the rest of the text ends the result. *)
Lemma sub_from_hit_all r prev rest g :
  rest <> [] ->
  match_at r false prev rest = Some (length rest, g) ->
  sub_from r "" prev rest = [].
Proof.
  intros Hne E. unfold sub_from.
  rewrite (scan_hit _ _ _ _ _ E) by (destruct rest; [congruence|simpl; lia]).
  rewrite drop_all. cbn [flat_map emit app list_ascii_of_string].
  apply sub_from_end_empty.
Qed.

Lemma sub_from_miss r repl prev x rest :
  match_at r false prev (x :: rest) = None ->
  sub_from r repl prev (x :: rest) = x :: sub_from r repl (Some x) rest.
Proof. intros E. unfold sub_from. simpl. rewrite E. reflexivity. Qed.

(** What is left of a text without newline is its beginning. *)
Lemma delete_prefix word rest : forall prev,
  Char.newline ∉ rest ->
  sub_from (delete_pattern word) "" prev rest `prefix_of` rest.
Proof.
  induction rest as [|x rest IH]; intros prev H.
  - rewrite sub_from_end_empty. reflexivity.
  - destruct (match_at (delete_pattern word) false prev (x :: rest))
      as [[n g]|] eqn:E.
    + pose proof (delete_pattern_all _ _ _ _ _ H E) as ->.
      rewrite (sub_from_hit_all _ _ (x :: rest) g);
        [apply prefix_nil|discriminate|exact E].
    + rewrite sub_from_miss by exact E. apply prefix_cons, IH.
      apply not_elem_of_cons in H as [_ H]. exact H.
Qed.

(** [(c).*$] cuts a text without newline at the first [c]. *)
Lemma delete_char_cut c rest : forall prev,
  Char.newline ∉ rest ->
  sub_from (delete_pattern (lits [c])) "" prev rest = cut_at (begins_with c) rest.
Proof.
  induction rest as [|x rest IH]; intros prev H.
  - apply sub_from_end_empty.
  - pose proof (delete_pattern_exec (lits [c]) prev (x :: rest) H) as E.
    cbn [lits exec ms_rest ms_grp cls_ok] in E.
    cbn [cut_at begins_with].
    destruct (Ascii.eqb x c).
    + eapply sub_from_hit_all; [discriminate|exact E].
    + rewrite sub_from_miss by exact E. f_equal. apply IH.
      apply not_elem_of_cons in H as [_ H]. exact H.
Qed.

Lemma cut_at_prefix mark s : cut_at mark s `prefix_of` s.
Proof.
  induction s as [|x s IH]; simpl; [reflexivity|].
  destruct (mark (x :: s)); [apply prefix_nil|apply prefix_cons, IH].
Qed.

Lemma cut_at_twice c1 c2 s :
  cut_at (begins_with c2) (cut_at (begins_with c1) s) =
  cut_at (fun t => begins_with c1 t || begins_with c2 t) s.
Proof.
  induction s as [|x s IH]; [reflexivity|].
  cbn [cut_at begins_with]. destruct (Ascii.eqb x c1); [reflexivity|].
  cbn [cut_at begins_with orb]. destruct (Ascii.eqb x c2); [reflexivity|].
  f_equal. exact IH.
Qed.

Lemma fold_delete_prefix words s :
  Char.newline ∉ s ->
  fold_left (fun acc word => sub (delete_pattern word) "" acc) words s
    `prefix_of` s.
Proof.
  revert s. induction words as [|word words IH]; intros s H; simpl.
  - reflexivity.
  - pose proof (delete_prefix word s None H) as Hp.
    etrans; [apply IH|exact Hp].
    eapply no_newline_prefix; eassumption.
Qed.

(** The sixteen cuts leave a beginning of the text before its first comma
    or apostrophe. *)
Lemma delete_elaborations_prefix s :
  Char.newline ∉ s ->
  delete_elaborations s `prefix_of` cut_at at_comma_or_apostrophe s.
Proof.
  intros H. unfold delete_elaborations, delete_conditions.
  cbn [fold_left]. rewrite !sub_sub_from.
  change (lits ",") with (lits [","%char]).
  change (lits "'") with (lits ["'"%char]).
  rewrite (delete_char_cut "," s None H).
  assert (H1 : Char.newline ∉ cut_at (begins_with ",") s).
  { eapply no_newline_prefix; [apply cut_at_prefix|exact H]. }
  rewrite (delete_char_cut "'" _ None H1), cut_at_twice.
  apply (fold_delete_prefix
           [whole_word "to"; whole_word "To"; whole_word "at"; whole_word "At";
            whole_word "on"; whole_word "On"; whole_word "by"; whole_word "By";
            whole_word "in"; whole_word "In"; whole_word "said";
            whole_word "Said"; whole_word "upon"; whole_word "Upon"]).
  eapply no_newline_prefix; [apply cut_at_prefix|exact H].
Qed.

(** What [^.*?_.*?_] takes holds no newline. *)
Lemma span_no_newline s n g :
  match_at span_re false None s = Some (n, g) ->
  Char.newline ∉ take n s.
Proof.
  unfold match_at, span_re.
  cbn [cat exec lits ms_prev ms_rest ms_grp rep_min andb].
  intros H.
  apply star_lazy_inv in H as (t1 & r1 & -> & H1 & H). cbn [ms_rest] in H.
  destruct r1 as [|x r1]; [discriminate|].
  destruct (Ascii.eqb_spec x "_") as [->|Hx];
    [rewrite cls_ok_lit_eq in H | rewrite cls_ok_lit_ne in H by exact Hx; discriminate].
  apply star_lazy_inv in H as (t2 & r2 & -> & H2 & H). cbn [ms_rest] in H.
  destruct r2 as [|y r2]; [discriminate|].
  destruct (Ascii.eqb_spec y "_") as [->|Hy];
    [rewrite cls_ok_lit_eq in H | rewrite cls_ok_lit_ne in H by exact Hy; discriminate].
  injection H as <- _.
  assert (E : t1 ++ "_"%char :: t2 ++ "_"%char :: r2 =
              (t1 ++ "_"%char :: t2 ++ ["_"%char]) ++ r2).
  { rewrite <- !app_assoc. simpl. rewrite <- app_assoc. reflexivity. }
  rewrite E, length_app, Nat.add_sub, take_app_length.
  assert (Hany : forall t : str, forallb (cls_ok Any) t = true -> Char.newline ∉ t).
  { intros t Ht Hin. rewrite forallb_forall in Ht.
    apply list_elem_of_In, Ht in Hin. discriminate. }
  rewrite not_elem_of_app, not_elem_of_cons, not_elem_of_app, not_elem_of_cons.
  repeat split; try discriminate; auto using not_elem_of_nil.
Qed.

Lemma findall_head r s m l :
  nonnull r -> findall r s = m :: l ->
  exists pre n g,
    match_at r false (prev_after None pre) (drop (length pre) s) = Some (n, g) /\
    pre `prefix_of` s /\
    m = (if has_group r then default [] g else take n (drop (length pre) s)).
Proof.
  intros Hnn. unfold findall, scan.
  assert (G : forall rest prev,
             flat_map (found r) (scan_go r prev rest 0) = m :: l ->
             exists pre n g,
               match_at r false (prev_after prev pre) (drop (length pre) rest)
                 = Some (n, g) /\
               pre `prefix_of` rest /\
               m = (if has_group r then default [] g
                    else take n (drop (length pre) rest))).
  { induction rest as [|x rest IH]; intros prev H.
    - simpl in H. destruct (match_at r false prev []) as [[n g]|] eqn:E;
        [|discriminate].
      pose proof (Hnn _ _ _ _ E). pose proof (match_at_le _ _ _ _ _ _ E).
      simpl in *. lia.
    - destruct (match_at r false prev (x :: rest)) as [[n g]|] eqn:E.
      + pose proof (Hnn _ _ _ _ E) as Hn.
        rewrite (scan_hit _ _ _ _ _ E Hn) in H. simpl in H.
        injection H as H _. exists [], n, g. repeat split.
        * exact E.
        * apply prefix_nil.
        * symmetry. exact H.
      + simpl in H. rewrite E in H. simpl in H.
        apply IH in H as (pre & n & g & H1 & H2 & H3).
        exists (x :: pre), n, g. rewrite prev_after_cons. repeat split.
        * exact H1.
        * apply prefix_cons, H2.
        * exact H3. }
  apply G.
Qed.

Lemma span_nonnull : nonnull span_re.
Proof.
  intros prev s n g H. pose proof (span_match_count _ _ _ _ _ H) as Hc.
  revert H. unfold match_at, span_re.
  cbn [cat exec lits ms_prev ms_rest ms_grp rep_min andb].
  destruct prev; [discriminate|]. intros H.
  apply star_lazy_inv in H as (t1 & r1 & -> & _ & H). cbn [ms_rest] in H.
  destruct r1 as [|x r1]; [discriminate|].
  destruct (cls_ok (Lit "_") x); [|discriminate].
  apply star_lazy_inv in H as (t2 & r2 & -> & _ & H). cbn [ms_rest] in H.
  destruct r2 as [|y r2]; [discriminate|].
  destruct (cls_ok (Lit "_") y); [|discriminate].
  injection H as <- _. rewrite !length_app. simpl. rewrite !length_app. simpl.
  lia.
Qed.

Lemma elem_of_drop_while f (x : ascii) s : x ∈ Str.drop_while f s -> x ∈ s.
Proof.
  induction s as [|y s IH]; simpl; [auto|].
  destruct (f y); [|auto]. intros H. right. auto.
Qed.

Lemma elem_of_rev (x : ascii) (l : str) : x ∈ rev l <-> x ∈ l.
Proof.
  split; intros H; apply list_elem_of_In; apply list_elem_of_In in H.
  - apply in_rev. exact H.
  - apply in_rev in H. exact H.
Qed.

Lemma elem_of_rstrip (x : ascii) s : x ∈ Str.rstrip s -> x ∈ s.
Proof.
  unfold Str.rstrip, Str.lstrip. rewrite elem_of_rev. intros H.
  apply elem_of_drop_while in H. apply elem_of_rev, H.
Qed.

(** The text before the first comma or apostrophe. *)
Lemma cut_at_first (mark : str -> bool) (u : str) x v :
  mark (x :: v) = true ->
  (forall u1 y u2, u = u1 ++ y :: u2 -> mark (y :: u2 ++ x :: v) = false) ->
  cut_at mark (u ++ x :: v) = u.
Proof.
  intros Hx. induction u as [|y u IH]; intros Hu.
  - cbn [app cut_at]. rewrite Hx. reflexivity.
  - cbn [app cut_at]. rewrite (Hu [] y u eq_refl). f_equal. apply IH.
    intros u1 z u2 ->. apply (Hu (y :: u1) z u2). reflexivity.
Qed.

Lemma cut_at_comma_or_apostrophe_first (u : str) x v :
  x = ","%char \/ x = "'"%char ->
  ","%char ∉ u -> "'"%char ∉ u ->
  cut_at at_comma_or_apostrophe (u ++ x :: v) = u.
Proof.
  intros Hx Hc Ha. apply cut_at_first.
  - destruct Hx as [-> | ->]; reflexivity.
  - intros u1 y u2 ->. unfold at_comma_or_apostrophe. cbn [begins_with].
    apply orb_false_intro.
    + destruct (Ascii.eqb_spec y ","); [|reflexivity]. subst y.
      exfalso. apply Hc. apply elem_of_app. right. left.
    + destruct (Ascii.eqb_spec y "'"); [|reflexivity]. subst y.
      exfalso. apply Ha. apply elem_of_app. right. left.
Qed.

Lemma cut_at_none (s : str) :
  ","%char ∉ s -> "'"%char ∉ s -> cut_at at_comma_or_apostrophe s = s.
Proof.
  induction s as [|y s IH]; intros Hc Ha; [reflexivity|].
  apply not_elem_of_cons in Hc as [Hc1 Hc], Ha as [Ha1 Ha].
  cbn [cut_at]. unfold at_comma_or_apostrophe at 1. cbn [begins_with].
  destruct (Ascii.eqb_spec y ","); [congruence|].
  destruct (Ascii.eqb_spec y "'"); [congruence|].
  cbn [orb]. f_equal. apply IH; assumption.
Qed.

(** The first two cuts are the cut at the first comma or apostrophe; the
    trigger words cut what is left. *)
Lemma delete_elaborations_cut s :
  Char.newline ∉ s ->
  delete_elaborations s =
  cut_at_trigger_words (cut_at at_comma_or_apostrophe s).
Proof.
  intros H. unfold delete_elaborations, cut_at_trigger_words, trigger_words,
    delete_conditions.
  cbn [fold_left drop]. rewrite !sub_sub_from.
  change (lits ",") with (lits [","%char]).
  change (lits "'") with (lits ["'"%char]).
  rewrite (delete_char_cut "," s None H).
  assert (H1 : Char.newline ∉ cut_at (begins_with ",") s).
  { eapply no_newline_prefix; [apply cut_at_prefix|exact H]. }
  rewrite (delete_char_cut "'" _ None H1), cut_at_twice. reflexivity.
Qed.

Lemma cut_at_trigger_words_prefix s :
  Char.newline ∉ s -> cut_at_trigger_words s `prefix_of` s.
Proof. apply fold_delete_prefix. Qed.

Lemma span_tokens (aliases : gset str) (a b c : str) :
  "_"%char ∉ b -> "_"%char ∉ c -> Char.newline ∉ b -> Char.newline ∉ c ->
  (extract_attribution aliases (a ++ "_" ++ b ++ "_" ++ c)).2 =
  Some
    (let tokens :=
       src_tokens (delete_elaborations (Str.rstrip ("_" ++ b ++ "_" ++ c))) in
     if bool_decide (refactor_src_info tokens ∈ aliases)
     then [("Shakespeare" : str)]
     else tokens).
Proof.
  intros Hb Hc Hnb Hnc. unfold extract_attribution.
  rewrite rev_span, span_findall by (apply not_elem_of_rev; assumption).
  assert (E : rev (rev c ++ "_"%char :: rev b ++ ["_"%char]) =
              "_"%char :: b ++ "_"%char :: c).
  { rewrite rev_app_distr. cbn [rev]. rewrite rev_app_distr. cbn [rev app].
    rewrite !rev_involutive, <- !app_assoc. reflexivity. }
  rewrite E. reflexivity.
Qed.

(** C10: the source information is cut at its first comma or apostrophe, as
    it is at the trigger words.  In a text that ends with [_b_c], where
    neither [b] nor [c] holds an underscore or a newline, the substring
    taken is [raw], that is [_b_c] trimmed on the right.  The tokens are
    read from [kept], which is what the cuts at the trigger words leave of
    [head], the part of [raw] before its first comma or apostrophe (all of
    [raw] when it has neither): [kept] is a beginning of [head], so that no
    token holds text that comes after a comma or an apostrophe of [raw];
    only the replacement of an alias by [Shakespeare] comes after that. *)
Theorem attribution_cut_at_comma_or_apostrophe
    (aliases : gset str) (a b c : str) :
  let raw := Str.rstrip ("_" ++ b ++ "_" ++ c) in
  let head := cut_at at_comma_or_apostrophe raw in
  let kept := cut_at_trigger_words head in
  "_"%char ∉ b -> "_"%char ∉ c -> Char.newline ∉ b -> Char.newline ∉ c ->
  (extract_attribution aliases (a ++ "_" ++ b ++ "_" ++ c)).2 =
    Some (if bool_decide (refactor_src_info (src_tokens kept) ∈ aliases)
          then [("Shakespeare" : str)]
          else src_tokens kept) /\
  kept `prefix_of` head /\
  (forall (u : str) x (v : str),
      raw = u ++ x :: v -> x = ","%char \/ x = "'"%char ->
      ","%char ∉ u -> "'"%char ∉ u -> head = u) /\
  (","%char ∉ raw -> "'"%char ∉ raw -> head = raw).
Proof.
  intros raw head kept Hb Hc Hnb Hnc.
  assert (Hraw : Char.newline ∉ raw).
  { intros Hin. apply elem_of_rstrip in Hin.
    cbn [list_ascii_of_string app] in Hin.
    apply elem_of_cons in Hin as [Hin|Hin]; [discriminate|].
    apply elem_of_app in Hin as [Hin|Hin]; [contradiction|].
    apply elem_of_cons in Hin as [Hin|Hin]; [discriminate|contradiction]. }
  split; [|split; [|split]].
  - rewrite span_tokens by assumption. cbv zeta. fold raw.
    rewrite (delete_elaborations_cut raw Hraw). reflexivity.
  - apply cut_at_trigger_words_prefix.
    eapply no_newline_prefix; [apply cut_at_prefix|exact Hraw].
  - intros u x v E Hx Hu1 Hu2. unfold head. rewrite E.
    apply cut_at_comma_or_apostrophe_first; assumption.
  - apply cut_at_none.
Qed.

Lemma attribution_cut_at_comma_or_apostrophe_witness :
  (extract_attribution ∅
     ("=Sir, I am no friend.= " ++ "_" ++ "Johnson, to Boswell's wife." ++
      "_" ++ "")).2 = Some [("Johnson" : str)] /\
  cut_at at_comma_or_apostrophe
    (Str.rstrip ("_" ++ "Johnson, to Boswell's wife." ++ "_" ++ "")) =
  "_Johnson".
Proof.
  assert (Hb : "_"%char ∉ ("Johnson, to Boswell's wife." : str))
    by decide_by_vm.
  assert (Hc : "_"%char ∉ ("" : str)) by decide_by_vm.
  assert (Hnb : Char.newline ∉ ("Johnson, to Boswell's wife." : str))
    by decide_by_vm.
  assert (Hnc : Char.newline ∉ ("" : str)) by decide_by_vm.
  destruct (attribution_cut_at_comma_or_apostrophe ∅
              "=Sir, I am no friend.= " "Johnson, to Boswell's wife." ""
              Hb Hc Hnb Hnc)
    as (H1 & _ & H2 & _).
  split.
  - rewrite H1. vm_compute. reflexivity.
  - apply (H2 "_Johnson" ","%char " to Boswell's wife._");
      [vm_compute; reflexivity|left; reflexivity|decide_by_vm..].
Defined.

(* ===================================================================== *)
(** ** Entries from the Greek (lines 175-191) *)
(* ===================================================================== *)

(** A literal string matches where the text starts with it. *)
Lemma exec_lits {A} (l : str) : forall st (k : mstate -> option A),
  exec (lits l) st k =
  if Str.starts_with l (ms_rest st)
  then k (MState (prev_after (ms_prev st) l) (drop (length l) (ms_rest st))
            (ms_grp st))
  else None.
Proof.
  induction l as [|c l IH]; intros [prev rest grp] k.
  - reflexivity.
  - assert (Hc : exec (lits (c :: l)) (MState prev rest grp) k =
                 exec (Chr (Lit c)) (MState prev rest grp)
                   (fun st' => exec (lits l) st' k)).
    { destruct l; reflexivity. }
    rewrite Hc. cbn [exec ms_rest ms_prev ms_grp Str.starts_with cls_ok].
    destruct rest as [|x rest]; [reflexivity|].
    rewrite (Ascii.eqb_sym c x).
    destruct (Ascii.eqb_spec x c) as [->|]; [|reflexivity].
    rewrite IH. cbn [ms_rest ms_prev ms_grp andb length drop].
    rewrite prev_after_cons. reflexivity.
Qed.

Lemma greek_no_opener b prev s :
  Str.starts_with "[Greek: " s = false -> match_at greek_re b prev s = None.
Proof.
  intros H. unfold match_at, greek_re. cbn [cat exec].
  rewrite exec_lits. cbn [ms_rest]. rewrite H. reflexivity.
Qed.

(** [\[Greek: (.*?)\]] at a span whose content has neither bracket nor
    newline: the group is the content. *)
Lemma greek_match prev (X q : str) :
  "]"%char ∉ X -> Char.newline ∉ X ->
  match_at greek_re false prev ("[Greek: " ++ X ++ "]" ++ q) =
  Some (length ("[Greek: " ++ X ++ "]" : str), Some X).
Proof.
  intros H1 H2. unfold match_at, greek_re. cbn [cat exec].
  rewrite exec_lits. cbn [ms_rest ms_prev ms_grp].
  rewrite starts_with_app, drop_app_length.
  cbn [rep_min ms_rest ms_prev ms_grp exec].
  rewrite star_lazy_skip.
  2:{ intros x Hx. split.
      - apply cls_ok_any. intros ->. contradiction.
      - intros p t. cbn [ms_rest]. rewrite cls_ok_lit_ne; [reflexivity|].
        intros ->. contradiction. }
  cbn [list_ascii_of_string app star_lazy ms_rest ms_prev ms_grp].
  rewrite cls_ok_lit_eq. cbn [andb]. f_equal. f_equal.
  - simpl. rewrite !length_app. simpl. lia.
  - f_equal. rewrite length_app. simpl.
    replace (length X + S (length q) - S (length q)) with (length X) by lia.
    apply take_app_length.
Qed.

(** A scan passes over a beginning of the text in which no attempt
    succeeds. *)
Lemma scan_skip_prefix r (pre rest : str) : forall prev,
  (forall i p, i < length pre ->
     match_at r false p (drop i (pre ++ rest)) = None) ->
  scan_go r prev (pre ++ rest) 0 =
  map Keep pre ++ scan_go r (prev_after prev pre) rest 0.
Proof.
  induction pre as [|x pre IH]; intros prev H; [reflexivity|].
  pose proof (H 0 prev ltac:(simpl; lia)) as H0. rewrite drop_0 in H0.
  cbn [app scan_go map] in H0 |- *. rewrite H0.
  rewrite prev_after_cons. f_equal. apply IH.
  intros i p Hi. apply (H (S i) p). simpl. lia.
Qed.

Lemma greek_findall (p X q : str) :
  (forall i, i < length p ->
     ~ occurs_at "[Greek: " (p ++ "[Greek: " ++ X ++ "]" ++ q) i) ->
  "]"%char ∉ X -> Char.newline ∉ X ->
  exists l, findall greek_re (p ++ "[Greek: " ++ X ++ "]" ++ q) = X :: l.
Proof.
  intros Hp H1 H2. unfold findall, scan.
  rewrite scan_skip_prefix.
  2:{ intros i prev Hi. apply greek_no_opener.
      specialize (Hp i Hi). unfold occurs_at in Hp.
      destruct (Str.starts_with _ _); [contradiction|reflexivity]. }
  rewrite flat_map_app, flat_map_found_keep.
  rewrite (scan_hit _ _ _ _ _ (greek_match _ X q H1 H2))
    by (rewrite length_app; simpl; lia).
  cbn [flat_map found app]. eexists. reflexivity.
Qed.

Lemma take2_dashes (t : str) :
  bool_decide (take 2 t = "--") = Str.starts_with "--" t.
Proof.
  destruct t as [|x [|y t]]; [reflexivity| |].
  { cbn [take Str.starts_with list_ascii_of_string].
    rewrite andb_false_r. apply bool_decide_eq_false_2. discriminate. }
  cbn [take Str.starts_with list_ascii_of_string].
  destruct (Ascii.eqb_spec "-" x) as [<-|Hx];
    destruct (Ascii.eqb_spec "-" y) as [<-|Hy]; cbn [andb];
    first [ apply bool_decide_eq_true_2; reflexivity
          | apply bool_decide_eq_false_2; congruence ].
Qed.

Lemma drop_while_head f (s : str) :
  match Str.drop_while f s with
  | [] => True
  | x :: _ => f x = false
  end.
Proof.
  induction s as [|y s IH]; simpl; [exact I|].
  destruct (f y) eqn:E; [exact IH|exact E].
Qed.

Lemma drop_while_split f (s : str) :
  exists taken,
    s = taken ++ Str.drop_while f s /\ Forall (fun c => f c = true) taken.
Proof.
  induction s as [|x s (taken & E & H)]; [exists []; split; [reflexivity|constructor]|].
  cbn [Str.drop_while]. destruct (f x) eqn:Ex.
  - exists (x :: taken). split; [cbn; f_equal; exact E|constructor; assumption].
  - exists []. split; [reflexivity|constructor].
Qed.

(** [s.rstrip()] is [s] without the white space at its end. *)
Lemma rstrip_trimmed_of (s : str) : trimmed_of (Str.rstrip s) s.
Proof.
  unfold trimmed_of, Str.rstrip, Str.lstrip. split.
  - destruct (drop_while_split Char.is_space (rev s)) as (taken & E & H).
    exists (rev taken). split.
    + rewrite <- rev_app_distr, <- E, rev_involutive. reflexivity.
    + apply List.Forall_rev, H.
  - intros c. pose proof (drop_while_head Char.is_space (rev s)) as H.
    destruct (Str.drop_while Char.is_space (rev s)) as [|x t]; [discriminate|].
    cbn [rev]. rewrite last_snoc. intros [= <-]. exact H.
Qed.

(** C5: an entry whose first bracketed span is [[Greek: X]].  The original
    is [X] and the origin Greek; what remains when the span is taken out
    has to start with the two dashes, or the entry raises the assertion
    error; the translation is what follows the dashes without the white
    space at its end: what is taken off is white space, and the translation
    does not end with white space; a first token [Gr] is dropped before the
    tokens are joined and expanded. *)
Theorem greek_form
    (auth_lang_map auth_abbrev_map origin_abbrev_map : gmap str str)
    (p X q : str) (src_info : option (list str)) :
  let clean := p ++ "[Greek: " ++ X ++ "]" ++ q in
  let remainder := Str.replace ("[Greek: " ++ X ++ "]") "" clean in
  let translation := Str.rstrip (drop 2 remainder) in
  (forall i, i < length p -> ~ occurs_at "[Greek: " clean i) ->
  "]"%char ∉ X -> Char.newline ∉ X ->
  parse_entry auth_lang_map auth_abbrev_map origin_abbrev_map clean src_info =
  (if Str.starts_with "--" remainder then
     Returned
       (X, translation, ("Greek" : str),
        match src_info with
        | None => SrcNone
        | Some [] => SrcTokens []
        | Some (first :: others) =>
            SrcText (refactor_src_info
                       (if bool_decide (first = "Gr") then others
                        else first :: others))
        end)
   else Raised (AssertionError (remainder ++ " should start with an emdash")))
  /\
  (exists blanks,
      drop 2 remainder = translation ++ blanks /\
      Forall (fun c => Char.is_space c = true) blanks) /\
  (forall c, last translation = Some c -> Char.is_space c = false).
Proof.
  intros clean remainder translation Hp H1 H2. split.
  - subst translation remainder clean. unfold parse_entry.
    destruct (greek_findall p X q Hp H1 H2) as [l ->].
    unfold greek_entry. rewrite take2_dashes. reflexivity.
  - exact (rstrip_trimmed_of (drop 2 remainder)).
Qed.

Lemma greek_form_witness :
  extract_attribution ∅
    (normalize "--Know thyself. [Greek: gnothi seauton] _Gr. Pr._") =
    ("--Know thyself. " ++ "[Greek: " ++ "gnothi seauton" ++ "]" ++ "",
     Some [("Gr" : str); ("Pr" : str)]) /\
  parse_entry ∅ ∅ ∅
    ("--Know thyself. " ++ "[Greek: " ++ "gnothi seauton" ++ "]" ++ "")
    (Some [("Gr" : str); ("Pr" : str)]) =
  Returned ("gnothi seauton" : str, "Know thyself." : str, "Greek" : str,
            SrcText "Proverb").
Proof.
  split; [vm_compute; reflexivity|].
  assert (Hp : forall i, i < length ("--Know thyself. " : str) ->
               ~ occurs_at "[Greek: "
                   ("--Know thyself. " ++ "[Greek: " ++ "gnothi seauton" ++
                    "]" ++ "") i).
  { intros i Hi H.
    do 16 (destruct i as [|i]; [vm_compute in H; discriminate|]).
    cbn in Hi. lia. }
  assert (H1 : "]"%char ∉ ("gnothi seauton" : str)) by decide_by_vm.
  assert (H2 : Char.newline ∉ ("gnothi seauton" : str)) by decide_by_vm.
  destruct (greek_form ∅ ∅ ∅ "--Know thyself. " "gnothi seauton" ""
              (Some [("Gr" : str); ("Pr" : str)]) Hp H1 H2) as [H _].
  rewrite H. vm_compute. reflexivity.
Defined.

(* ===================================================================== *)
(** ** Entries with a delimited original (lines 193-214) *)
(* ===================================================================== *)

Lemma split_nil c : Str.split [c] [] = [[]].
Proof. reflexivity. Qed.

Lemma split_cons c x s :
  Str.split [c] (x :: s) =
  if Ascii.eqb c x then [] :: Str.split [c] s
  else Str.cons_hd x (Str.split [c] s).
Proof.
  unfold Str.split. cbn [Str.split_go Str.starts_with length].
  rewrite andb_true_r. reflexivity.
Qed.

Lemma split_not_nil c s : Str.split [c] s <> [].
Proof.
  destruct s as [|x s]; [discriminate|]. rewrite split_cons.
  destruct (Ascii.eqb c x); [discriminate|].
  destruct (Str.split [c] s); discriminate.
Qed.

(** The fields of [a], then those of [t], are the fields of [a c t]. *)
Lemma split_app_sep c (a t : str) :
  Str.split [c] (a ++ c :: t) = Str.split [c] a ++ Str.split [c] t.
Proof.
  induction a as [|x a IH]; cbn [app].
  - rewrite split_cons, Ascii.eqb_refl. reflexivity.
  - rewrite !split_cons, IH. destruct (Ascii.eqb c x); [reflexivity|].
    pose proof (split_not_nil c a).
    destruct (Str.split [c] a); [contradiction|reflexivity].
Qed.

Lemma split_no_sep c (t : str) : c ∉ t -> Str.split [c] t = [t].
Proof.
  induction t as [|x t IH]; intros H; [reflexivity|].
  apply not_elem_of_cons in H as [Hx H]. rewrite split_cons, IH by exact H.
  destruct (Ascii.eqb_spec c x); [contradiction|reflexivity].
Qed.

(** The last field is the text after the last separator. *)
Lemma last_field_after c (a t : str) :
  c ∉ t -> Str.last_field (Str.split [c] (a ++ c :: t)) = t.
Proof.
  intros H. rewrite split_app_sep, (split_no_sep c t H).
  unfold Str.last_field. apply last_last.
Qed.

Lemma last_field_whole c (t : str) :
  c ∉ t -> Str.last_field (Str.split [c] t) = t.
Proof. intros H. rewrite (split_no_sep c t H). reflexivity. Qed.

(** [l[::2]] holds the elements of [l] at the even indices. *)
Lemma every_other_lookup {A} (l : list A) : forall i,
  Str.every_other l !! i = l !! (2 * i).
Proof.
  induction l as [l IH] using (induction_ltof1 _ (@length A)).
  unfold ltof in IH. intros i.
  destruct l as [|x [|y l]]; [reflexivity| |].
  - destruct i; [reflexivity|]. simpl. replace (i + S (i + 0)) with (S (2 * i)) by lia.
    reflexivity.
  - destruct i; [reflexivity|]. cbn [Str.every_other].
    replace (2 * S i) with (S (S (2 * i))) by lia. cbn [lookup list_lookup].
    apply IH. simpl. lia.
Qed.

(** A substitution by nothing whose matches take the rest of the text cuts
    the text at the first match. *)
Lemma sub_from_cut_at r (mark : str -> bool) :
  (forall prev x rest,
      Char.newline ∉ x :: rest ->
      match_at r false prev (x :: rest) =
      if mark (x :: rest) then Some (length (x :: rest), None) else None) ->
  forall rest prev,
    Char.newline ∉ rest -> sub_from r "" prev rest = cut_at mark rest.
Proof.
  intros Hm. induction rest as [|x rest IH]; intros prev H.
  - apply sub_from_end_empty.
  - pose proof (Hm prev x rest H) as E. cbn [cut_at].
    destruct (mark (x :: rest)).
    + eapply sub_from_hit_all; [discriminate|exact E].
    + rewrite sub_from_miss by exact E. f_equal. apply IH.
      apply not_elem_of_cons in H as [_ H]. exact H.
Qed.

Lemma ie_match prev (s : str) :
  Char.newline ∉ s ->
  match_at ie_re false prev s =
  if at_ie_marker s then Some (length s, None) else None.
Proof.
  intros H. unfold match_at, ie_re. cbn [cat exec]. rewrite exec_lits.
  cbn [ms_rest ms_prev ms_grp].
  destruct s as [|c1 [|c2 [|c3 [|c4 s]]]]; try reflexivity;
    try (cbn [Str.starts_with list_ascii_of_string];
         rewrite ?andb_false_r; reflexivity).
  cbn [at_ie_marker].
  assert (E : Str.starts_with ", _i" (c1 :: c2 :: c3 :: c4 :: s) =
              Str.eqb [c1; c2; c3; c4] ", _i").
  { cbn [Str.starts_with Str.eqb list_ascii_of_string].
    rewrite (Ascii.eqb_sym "," c1), (Ascii.eqb_sym " " c2),
      (Ascii.eqb_sym "_" c3), (Ascii.eqb_sym "i" c4). reflexivity. }
  rewrite E.
  destruct (Str.eqb [c1; c2; c3; c4] ", _i");
    [|destruct s as [|? [|? [|? [|? ?]]]]; reflexivity].
  cbn [length skipn list_ascii_of_string exec lits ms_rest ms_prev ms_grp rep_min].
  rewrite drop_0.
  destruct s as [|x [|c5 [|y [|c6 s]]]]; try reflexivity;
    try (cbn [andb]; repeat (match goal with |- context [if ?b then _ else _] =>
           destruct b end); reflexivity).
  cbn [andb].
  destruct (cls_ok Any x); [|reflexivity].
  cbn [cls_ok]. destruct (Ascii.eqb c5 "e"); [|reflexivity].
  change (negb (Char.is_newline y)) with (cls_ok Any y).
  destruct (cls_ok Any y); [|reflexivity].
  destruct (Ascii.eqb c6 "_"); [|reflexivity].
  rewrite (lazy_to_end
             (fun st =>
                Some (length (c1 :: c2 :: c3 :: c4 :: x :: c5 :: y :: c6 :: s)
                      - length (ms_rest st), ms_grp st))).
  - cbn [ms_rest ms_grp]. rewrite Nat.sub_0_r. reflexivity.
  - intros Hin. apply H. do 8 right. exact Hin.
Qed.

(** [, _i.e._.*?$] cuts a text without newline at the first [, _i.e._]. *)
Lemma ie_cut (t : str) :
  Char.newline ∉ t -> sub ie_re "" t = cut_at at_ie_marker t.
Proof.
  intros H. rewrite sub_sub_from. apply sub_from_cut_at; [|exact H].
  intros prev x rest Hn. apply ie_match, Hn.
Qed.

(** The sections of a text, between its equals signs. *)
Lemma separated_cons c (first next : str) (others : list str) :
  separated c first (next :: others) = first ++ c :: separated c next others.
Proof. unfold separated. cbn [flat_map app]. reflexivity. Qed.

Lemma split_separated c (others : list str) : forall first : str,
  Forall (fun section : str => c ∉ section) (first :: others) ->
  Str.split [c] (separated c first others) = first :: others.
Proof.
  induction others as [|next others IH]; intros first H.
  - unfold separated. cbn [flat_map]. rewrite app_nil_r.
    apply split_no_sep. apply Forall_cons in H as [H _]. exact H.
  - apply Forall_cons in H as [Hf H].
    rewrite separated_cons, split_app_sep, (split_no_sep c first Hf), IH
      by exact H.
    reflexivity.
Qed.

(** Every text is made of sections without equals sign. *)
Lemma separated_sections c (s : str) :
  exists (first : str) (others : list str),
    s = separated c first others /\
    Forall (fun section : str => c ∉ section) (first :: others).
Proof.
  induction s as [|x s (first & others & -> & H)].
  - exists [], []. split; [reflexivity|]. repeat constructor. inversion 1.
  - destruct (decide (x = c)) as [->|Hx].
    + exists [], (first :: others). split; [reflexivity|].
      constructor; [inversion 1|exact H].
    + exists (x :: first), others. split; [reflexivity|].
      apply Forall_cons in H as [Hf H]. constructor; [|exact H].
      intros Hin. apply elem_of_cons in Hin as [Hin|Hin]; [congruence|].
      contradiction.
Qed.

Lemma elem_of_separated c x (section : str) (others : list str) :
  forall first : str,
    section ∈ first :: others -> x ∈ section -> x ∈ separated c first others.
Proof.
  induction others as [|next others IH]; intros first Hs Hx.
  - apply list_elem_of_singleton in Hs as ->. unfold separated.
    cbn [flat_map]. rewrite app_nil_r. exact Hx.
  - rewrite separated_cons. apply elem_of_app.
    apply elem_of_cons in Hs as [->|Hs]; [left; exact Hx|].
    right. right. apply IH; assumption.
Qed.

Lemma last_field_cons (others : list str) : forall first : str,
  Str.last_field (first :: others) = default first (last others).
Proof.
  unfold Str.last_field.
  induction others as [|next others IH]; intros first; [reflexivity|].
  change (List.last (first :: next :: others) [])
    with (List.last (next :: others) []).
  rewrite IH. destruct others as [|l others]; [reflexivity|].
  change (last (next :: l :: others)) with (last (l :: others)).
  destruct (last (l :: others)) eqn:E; [reflexivity|].
  apply last_None in E. discriminate.
Qed.

Lemma last_section_elem (first : str) (others : list str) :
  default first (last others) ∈ first :: others.
Proof.
  destruct (last others) as [x|] eqn:E; cbn [default from_option id].
  - right. apply last_Some in E as [l ->]. apply elem_of_app. right. left.
  - left.
Qed.

Lemma join_spaced (words : list str) : Str.join " " words = spaced words.
Proof.
  destruct words as [|word others]; [reflexivity|]. unfold spaced.
  revert word. induction others as [|next others IH]; intros word.
  - unfold separated. cbn [Str.join flat_map]. rewrite app_nil_r. reflexivity.
  - rewrite separated_cons, <- IH. reflexivity.
Qed.

(** C6, as the code has it: an entry that is not from the Greek, made of
    the sections [first] and [others] between its equals signs.  The
    original is made of the sections that are not empty, those at the even
    indices, with one space between them; the translation is the last
    section, the text after the last equals sign, cut at a clarification
    [, _i.e._ ...]; both are then trimmed on the right: what is taken off is
    white space, and they do not end with white space.  It is the trimmed
    translation that, when it is not empty, has to start with the two
    dashes, which are taken off, or the entry raises the assertion error. *)
Theorem delimited_form
    (auth_lang_map auth_abbrev_map origin_abbrev_map : gmap str str)
    (first : str) (others : list str) (src_info : option (list str)) :
  let clean := separated "=" first others in
  let fragments := filter (fun chunk => chunk ≠ []) (first :: others) in
  let after := default first (last others) in
  let original := Str.rstrip (spaced (Str.every_other fragments)) in
  let translation := Str.rstrip (cut_at at_ie_marker after) in
  Forall (fun section : str => "="%char ∉ section) (first :: others) ->
  Char.newline ∉ clean ->
  findall greek_re clean = [] ->
  (forall i, Str.every_other fragments !! i = fragments !! (2 * i)) /\
  trimmed_of original (spaced (Str.every_other fragments)) /\
  trimmed_of translation (cut_at at_ie_marker after) /\
  parse_entry auth_lang_map auth_abbrev_map origin_abbrev_map clean src_info =
  if bool_decide (translation = []) then
    Returned (resolve_origin auth_lang_map auth_abbrev_map origin_abbrev_map
                original [] src_info)
  else if Str.starts_with "--" translation then
    Returned (resolve_origin auth_lang_map auth_abbrev_map origin_abbrev_map
                original (drop 2 translation) src_info)
  else Raised (AssertionError (translation ++ " should start with an emdash.")).
Proof.
  intros clean fragments after original translation Hs Hn Hg.
  split; [|split; [|split]].
  - apply every_other_lookup.
  - apply rstrip_trimmed_of.
  - apply rstrip_trimmed_of.
  - unfold parse_entry, delimited_entry. rewrite Hg.
    change (Str.split "=" clean) with (Str.split ["="%char] clean).
    unfold clean. rewrite (split_separated "=" others first Hs).
    rewrite last_field_cons, join_spaced. fold fragments. fold after.
    assert (Ha : Char.newline ∉ after).
    { intros Hin. apply Hn.
      exact (elem_of_separated "=" _ after others first
               (last_section_elem first others) Hin). }
    rewrite (ie_cut after Ha). fold original. fold translation.
    rewrite take2_dashes.
    destruct (bool_decide (translation = [])) eqn:E; [|reflexivity].
    apply bool_decide_eq_true in E. rewrite E. reflexivity.
Qed.

Lemma delimited_form_witness :
  extract_attribution ∅
    (normalize "=Ab ovo.=--From the egg, _i.e._ from the start. _Hor._") =
    (separated "=" ""
       [("Ab ovo." : str); ("--From the egg, _i.e._ from the start." : str)],
     Some [("Hor" : str)]) /\
  parse_entry ∅ ∅ ∅
    (separated "=" ""
       [("Ab ovo." : str); ("--From the egg, _i.e._ from the start." : str)])
    (Some [("Hor" : str)]) =
  Returned ("Ab ovo." : str, "From the egg" : str, "Latin" : str,
            SrcText "Hor").
Proof.
  split; [vm_compute; reflexivity|].
  assert (Hs : Forall (fun section : str => "="%char ∉ section)
                 [("" : str); ("Ab ovo." : str);
                  ("--From the egg, _i.e._ from the start." : str)]).
  { repeat constructor; decide_by_vm. }
  assert (Hn : Char.newline ∉
                 separated "=" ""
                   [("Ab ovo." : str);
                    ("--From the egg, _i.e._ from the start." : str)])
    by decide_by_vm.
  assert (Hg : findall greek_re
                 (separated "=" ""
                    [("Ab ovo." : str);
                     ("--From the egg, _i.e._ from the start." : str)]) = [])
    by (vm_compute; reflexivity).
  destruct (delimited_form ∅ ∅ ∅ ""
              [("Ab ovo." : str);
               ("--From the egg, _i.e._ from the start." : str)]
              (Some [("Hor" : str)]) Hs Hn Hg) as (_ & _ & _ & H).
  rewrite H. vm_compute. reflexivity.
Defined.

(** C6, as stated, fails.  The last fragment of [=Know thyself.= ] is a
    space: it is not empty and does not begin with the two dashes, and the
    entry is returned all the same, without translation, as the test comes
    after the trimming.  And a clarification [, i.e. ...] without the
    underscores is not cut off. *)
Lemma translation_tested_after_trimming :
  extract_attribution ∅ (normalize "=Know thyself.= ") =
    ("=Know thyself.= " : str, None) /\
  findall greek_re "=Know thyself.= " = [] /\
  Str.last_field (Str.split "=" "=Know thyself.= ") = " " /\
  Str.starts_with "--" " " = false /\
  parse_entry ∅ ∅ ∅ "=Know thyself.= " None =
    Returned ("Know thyself." : str, "" : str, "UNK" : str, SrcNone) /\
  extract_attribution ∅
    (normalize "=Ab ovo.=--From the egg, i.e. from the start.") =
    ("=Ab ovo.=--From the egg, i.e. from the start." : str, None) /\
  parse_entry ∅ ∅ ∅ "=Ab ovo.=--From the egg, i.e. from the start." None =
    Returned ("Ab ovo." : str, "From the egg, i.e. from the start." : str,
              "Latin" : str, SrcNone).
Proof. repeat split; vm_compute; reflexivity. Qed.

(* ===================================================================== *)
(** ** The origin (lines 216-261) *)
(* ===================================================================== *)

(** C7: when the tokens, joined and expanded, are an author of the table,
    the origin is the language of the author and the source information is
    the abbreviation registered for the author, or else the author; the
    entry is returned at once, whatever the first token is, so the rules for
    law maxims and for abbreviations of origins are not tried.  This is so
    for every original and translation, hence for every entry with a
    delimited original that does not raise the assertion error. *)
Theorem author_rule_first
    (auth_lang_map auth_abbrev_map origin_abbrev_map : gmap str str)
    (first : str) (others : list str) (lang : str) :
  let author := refactor_src_info (first :: others) in
  let src := SrcText (default author (auth_abbrev_map !! author)) in
  auth_lang_map !! author = Some lang ->
  (forall original translation,
      resolve_origin auth_lang_map auth_abbrev_map origin_abbrev_map
        original translation (Some (first :: others)) =
      (original, translation, lang, src)) /\
  (forall clean e,
      delimited_entry auth_lang_map auth_abbrev_map origin_abbrev_map
        clean (Some (first :: others)) = Returned e ->
      entry_origin e = lang /\ entry_src e = src).
Proof.
  intros author src H.
  assert (R : forall original translation,
             resolve_origin auth_lang_map auth_abbrev_map origin_abbrev_map
               original translation (Some (first :: others)) =
             (original, translation, lang, src)).
  { intros original translation. unfold resolve_origin. fold author.
    rewrite H. reflexivity. }
  split; [exact R|].
  intros clean e. unfold delimited_entry.
  repeat match goal with
    | |- context [if ?b then _ else _] => destruct b
    end;
    rewrite ?R; intros He; inversion He; split; reflexivity.
Qed.

Lemma author_rule_first_witness :
  resolve_origin {[ ("L" : str) := ("English" : str) ]} ∅
    {[ ("L" : str) := ("French" : str) ]}
    "Be wise." "" (Some [("L" : str)]) =
  ("Be wise." : str, "" : str, "English" : str, SrcText "L").
Proof.
  assert (H : ({[ ("L" : str) := ("English" : str) ]} : gmap str str)
              !! refactor_src_info [("L" : str)] = Some ("English" : str))
    by (vm_compute; reflexivity).
  rewrite (proj1 (author_rule_first _ ∅ {[ ("L" : str) := ("French" : str) ]}
                    "L" [] "English" H)).
  vm_compute. reflexivity.
Defined.

(** C2, as stated, fails: a maxim of the law without translation gets its
    origin from the source information. *)
Lemma law_rule_without_translation :
  process_entry ∅ ∅ ∅ ∅ "=Ignorantia juris.= _L. Max._" =
  Returned ("Ignorantia juris." : str, "" : str, "Latin" : str,
            SrcText "Law. Max") /\
  ("Latin" : str) <> "UNK".
Proof. split; [vm_compute; reflexivity|discriminate]. Qed.

(** C2, as the code has it: the three rules are applied to the source
    information whether there is a translation or not, with the same origin
    and the same source information; only the last default depends on the
    translation.  Without translation, and without a rule that applies,
    the origin stays [UNK] and the source information is the expanded join
    of the tokens, or nothing when there are none. *)
Theorem resolution_without_translation
    (auth_lang_map auth_abbrev_map origin_abbrev_map : gmap str str)
    (original : str) (src_info : option (list str)) :
  let resolve :=
    resolve_origin auth_lang_map auth_abbrev_map origin_abbrev_map original in
  (rule_applies auth_lang_map origin_abbrev_map src_info ->
   forall translation,
     entry_origin (resolve translation src_info) =
       entry_origin (resolve [] src_info) /\
     entry_src (resolve translation src_info) =
       entry_src (resolve [] src_info)) /\
  (~ rule_applies auth_lang_map origin_abbrev_map src_info ->
   resolve [] src_info =
   (original, [], ("UNK" : str),
    match src_info with
    | Some (first :: others) => SrcText (refactor_src_info (first :: others))
    | _ => SrcNone
    end)).
Proof.
  intros resolve. subst resolve. unfold resolve_origin, rule_applies.
  destruct src_info as [[|first others]|]; [split; [tauto|reflexivity]| |
    split; [tauto|reflexivity]].
  destruct (auth_lang_map !! refactor_src_info (first :: others)) as [lang|].
  { split; [split; reflexivity|]. intros H. exfalso. apply H. left. eauto. }
  destruct (bool_decide (first ∈ [("L" : str); ("Law" : str)])) eqn:EL.
  { split; [split; reflexivity|]. intros H. exfalso. apply H. right. left.
    apply bool_decide_eq_true in EL. exact EL. }
  destruct (origin_abbrev_map !! first) as [o|].
  { split; [split; reflexivity|]. intros H. exfalso. apply H. right. right.
    eauto. }
  split; [|reflexivity].
  intros [[? H]|[H|[? H]]]; try discriminate.
  apply bool_decide_eq_false in EL. contradiction.
Qed.

Lemma resolution_without_translation_witness :
  let resolve :=
    resolve_origin ∅ ∅ {[ ("Fr" : str) := ("French" : str) ]}
      "Live and let live." in
  let src_info := Some [("Fr" : str); ("Pr" : str)] in
  entry_origin (resolve "" src_info) = "French" /\
  entry_origin (resolve "Leben und leben lassen." src_info) =
    entry_origin (resolve [] src_info) /\
  entry_src (resolve "Leben und leben lassen." src_info) =
    entry_src (resolve [] src_info).
Proof.
  intros resolve src_info. split; [vm_compute; reflexivity|].
  apply (proj1 (resolution_without_translation ∅ ∅
                  {[ ("Fr" : str) := ("French" : str) ]}
                  "Live and let live." src_info)).
  right. right. exists ("French" : str). vm_compute. reflexivity.
Defined.

(* ===================================================================== *)
(** ** The corpus (lines 264-285) *)
(* ===================================================================== *)

(** C1 fails on the last entry.  In the middle of the file an entry that
    breaks the assertion is printed and left out, and the entries after it
    are read; at the end of the file the same entry is parsed outside the
    [try], and its exception leaves [process_Wood]. *)
Theorem process_Wood_last_entry_uncaught
    (shakespeare_aliases : gset str)
    (auth_lang_map auth_abbrev_map origin_abbrev_map : gmap str str) :
  let run :=
    process_Wood shakespeare_aliases auth_lang_map auth_abbrev_map
      origin_abbrev_map in
  run ["=a=b" ++ [Char.newline]; [Char.newline]; ("=c=--d" : str)] =
    Returned [("Latin" : str, Some ("c" : str), "d" : str, SrcNone)] /\
  run [("=a=b" : str)] =
    Raised (AssertionError "b should start with an emdash.").
Proof. split; vm_compute; reflexivity. Qed.

(* ===================================================================== *)
(** ** The matcher and the positions that a pattern reaches *)
(* ===================================================================== *)

Section ReachFacts.
Context {A : Type}.
Implicit Types (k : mstate -> option A) (c : cls) (st : mstate).

Lemma rep_min_inv_length c n k prev grp rest a :
  rep_min c n k prev grp rest = Some a ->
  exists taken rest',
    rest = taken ++ rest' /\ forallb (cls_ok c) taken = true /\
    n <= length taken /\
    k (MState (prev_after prev taken) rest' grp) = Some a.
Proof.
  intros H. apply rep_min_inv in H as (t & r' & ? & ? & <- & ?).
  exists t, r'. auto.
Qed.

(** Soundness: a success of the matcher is a success of the continuation at
    a state that the pattern reaches. *)
Lemma exec_reach r : forall st k a,
  exec r st k = Some a -> exists st', reach r st st' /\ k st' = Some a.
Proof.
  induction r as [| c | greedy n c | | | | r1 IH1 r2 IH2 | r1 IH1 r2 IH2 | r1 IH1];
    intros st k a H; cbn [exec] in H; cbn [reach].
  - eauto.
  - destruct (ms_rest st) as [|x rest] eqn:E; [discriminate|].
    destruct (cls_ok c x) eqn:Hx; [|discriminate].
    eexists. split; [|exact H]. eauto.
  - apply rep_min_inv in H as (t1 & rest1 & E1 & H1 & L1 & H).
    cbn [ms_prev ms_grp ms_rest] in H.
    assert (exists t2 rest2, rest1 = t2 ++ rest2 /\
              forallb (cls_ok c) t2 = true /\
              k (MState (prev_after (prev_after (ms_prev st) t1) t2) rest2
                   (ms_grp st)) = Some a)
      as (t2 & rest2 & E2 & H2 & Hk).
    { destruct greedy.
      - apply star_greedy_inv in H as (t2 & rest2 & ? & ? & ?). eauto.
      - apply star_lazy_inv in H as (t2 & rest2 & ? & ? & ?). eauto. }
    eexists. split; [|exact Hk]. exists (t1 ++ t2), rest2.
    rewrite E1, E2, app_assoc, forallb_app, H1, H2, length_app, prev_after_app.
    repeat split. lia.
  - destruct (ms_prev st) eqn:E; [discriminate|]. eauto.
  - destruct (at_eol (ms_rest st)) eqn:E; [|discriminate]. eauto.
  - destruct (at_boundary (ms_prev st) (ms_rest st)) eqn:E; [|discriminate].
    eauto.
  - apply IH1 in H as (m & R1 & H). apply IH2 in H as (st' & R2 & H). eauto.
  - destruct (exec r1 st k) eqn:E.
    + injection H as ->. apply IH1 in E as (st' & R & E). eauto.
    + apply IH2 in H as (st' & R & H). eauto.
  - apply IH1 in H as (m & R & H). eauto.
Qed.

Lemma star_greedy_complete c k grp taken rest : forall prev,
  forallb (cls_ok c) taken = true ->
  is_Some (k (MState (prev_after prev taken) rest grp)) ->
  is_Some (star_greedy c k prev grp (taken ++ rest)).
Proof.
  induction taken as [|x taken IH]; intros prev Hall Hk.
  - cbn [app]. destruct rest as [|y rest]; cbn [star_greedy]; [exact Hk|].
    destruct (cls_ok c y); [|exact Hk].
    destruct (star_greedy c k (Some y) grp rest); [eauto|exact Hk].
  - cbn [forallb] in Hall. apply andb_prop in Hall as [Hx Hall].
    cbn [app star_greedy]. rewrite Hx. rewrite prev_after_cons in Hk.
    destruct (IH (Some x) Hall Hk) as [a ->]. eauto.
Qed.

Lemma star_lazy_complete c k grp taken rest : forall prev,
  forallb (cls_ok c) taken = true ->
  is_Some (k (MState (prev_after prev taken) rest grp)) ->
  is_Some (star_lazy c k prev grp (taken ++ rest)).
Proof.
  induction taken as [|x taken IH]; intros prev Hall Hk.
  - cbn [app]. destruct Hk as [a Hk].
    destruct rest as [|y rest]; cbn [star_lazy]; cbn [prev_after last] in Hk;
      rewrite Hk; eauto.
  - cbn [forallb] in Hall. apply andb_prop in Hall as [Hx Hall].
    cbn [app star_lazy]. rewrite Hx. rewrite prev_after_cons in Hk.
    destruct (k (MState prev (x :: taken ++ rest) grp)); [eauto|].
    apply IH; assumption.
Qed.

Lemma rep_min_complete c n k grp taken rest : forall prev,
  forallb (cls_ok c) taken = true -> length taken = n ->
  is_Some (k (MState (prev_after prev taken) rest grp)) ->
  is_Some (rep_min c n k prev grp (taken ++ rest)).
Proof.
  revert taken. induction n as [|n IH]; intros taken prev Hall Hlen Hk.
  - destruct taken; [|discriminate]. exact Hk.
  - destruct taken as [|x taken]; [discriminate|].
    cbn [forallb] in Hall. apply andb_prop in Hall as [Hx Hall].
    cbn [app rep_min]. rewrite Hx. rewrite prev_after_cons in Hk.
    apply IH; [assumption|simpl in Hlen; lia|assumption].
Qed.

(** Completeness: when the continuation succeeds at a state that the pattern
    reaches, the matcher succeeds. *)
Lemma exec_complete r : forall st st' k,
  reach r st st' -> is_Some (k st') -> is_Some (exec r st k).
Proof.
  induction r as [| c | greedy n c | | | | r1 IH1 r2 IH2 | r1 IH1 r2 IH2 | r1 IH1];
    intros st st' k R Hk; cbn [reach] in R; cbn [exec].
  - subst. exact Hk.
  - destruct R as (x & rest & -> & -> & ->). exact Hk.
  - destruct R as (taken & rest & -> & Hall & Hlen & ->).
    rewrite <- (take_drop n taken) in Hall |- *.
    rewrite forallb_app in Hall. apply andb_prop in Hall as [H1 H2].
    rewrite <- app_assoc. apply rep_min_complete.
    + exact H1.
    + rewrite length_take. lia.
    + cbn [ms_prev ms_rest ms_grp].
      rewrite <- (take_drop n taken), prev_after_app in Hk.
      destruct greedy;
        [apply star_greedy_complete|apply star_lazy_complete]; assumption.
  - destruct R as [-> ->]. exact Hk.
  - destruct R as [-> ->]. exact Hk.
  - destruct R as [-> ->]. exact Hk.
  - destruct R as (m & R1 & R2). eapply IH1; [exact R1|].
    eapply IH2; [exact R2|exact Hk].
  - destruct R as [R|R].
    + destruct (IH1 _ _ _ R Hk) as [a ->]. eauto.
    + destruct (exec r1 st k); [eauto|]. eapply IH2; eassumption.
  - destruct R as (m & R & ->). eapply IH1; [exact R|exact Hk].
Qed.
End ReachFacts.

(** An attempt succeeds exactly when the pattern reaches some state. *)
Lemma match_at_reach r prev rest n g :
  match_at r false prev rest = Some (n, g) ->
  exists st',
    reach r (MState prev rest None) st' /\
    n = length rest - length (ms_rest st') /\ g = ms_grp st'.
Proof.
  unfold match_at. intros H. apply exec_reach in H as (st' & R & H).
  cbn [andb] in H. injection H as <- <-. eauto.
Qed.

Lemma match_at_complete r prev rest st' :
  reach r (MState prev rest None) st' ->
  match_at r false prev rest <> None.
Proof.
  intros R. unfold match_at.
  destruct (exec_complete r _ _
              (fun st' => if false && (length rest - length (ms_rest st') =? 0)
                          then None
                          else Some (length rest - length (ms_rest st'),
                                     ms_grp st'))
              R) as [a E].
  - cbn [andb]. eauto.
  - rewrite E. discriminate.
Qed.

Lemma match_at_none r prev rest :
  (forall st', ~ reach r (MState prev rest None) st') ->
  match_at r false prev rest = None.
Proof.
  intros H. destruct (match_at r false prev rest) as [[n g]|] eqn:E;
    [|reflexivity].
  apply match_at_reach in E as (st' & R & _). destruct (H _ R).
Qed.

(* ===================================================================== *)
(** ** The two abbreviation patterns (lines 107-108) *)
(* ===================================================================== *)

Ltac reach_inv :=
  repeat match goal with
    | H : exists _, _ |- _ => destruct H
    | H : _ /\ _ |- _ => destruct H
    | H : context [ms_prev (MState _ _ _)] |- _ => cbn [ms_prev] in H
    | H : context [ms_rest (MState _ _ _)] |- _ => cbn [ms_rest] in H
    | H : context [ms_grp (MState _ _ _)] |- _ => cbn [ms_grp] in H
    | H : cls_ok (Lit _) _ = true |- _ => apply Ascii.eqb_eq in H
    | H : MState _ _ _ = MState _ _ _ |- _ => progress simplify_eq
    | H : _ :: _ = _ :: _ |- _ => progress simplify_eq
    | H : ?x = _ |- _ => is_var x; subst x
    | H : _ = ?x |- _ => is_var x; subst x
    end.

Ltac reach_intro :=
  cbn [reach ms_prev ms_rest ms_grp];
  repeat first
    [ reflexivity | eassumption | apply cls_ok_lit_eq
    | split | eexists ].

(** What a match of [\bPr.\b|\bPr\b|\bProv.\b|\bProv\b] looks like. *)
Lemma proverb_reach p s st' :
  reach proverb_re (MState p s None) st' <->
  at_boundary p s = true /\
  ((exists x rest,
      s = "P"%char :: "r"%char :: x :: rest /\ cls_ok Any x = true /\
      at_boundary (Some x) rest = true /\ st' = MState (Some x) rest None) \/
   (exists rest,
      s = "P"%char :: "r"%char :: rest /\
      at_boundary (Some "r"%char) rest = true /\
      st' = MState (Some "r"%char) rest None) \/
   (exists x rest,
      s = "P"%char :: "r"%char :: "o"%char :: "v"%char :: x :: rest /\
      cls_ok Any x = true /\
      at_boundary (Some x) rest = true /\ st' = MState (Some x) rest None) \/
   (exists rest,
      s = "P"%char :: "r"%char :: "o"%char :: "v"%char :: rest /\
      at_boundary (Some "v"%char) rest = true /\
      st' = MState (Some "v"%char) rest None)).
Proof.
  unfold proverb_re, whole_word_dot, whole_word.
  cbn [alt cat lits list_ascii_of_string]. split.
  - cbn [reach]. intros [H|[H|[H|H]]]; reach_inv; (split; [assumption|]).
    + left. eauto 10.
    + right. left. eauto 10.
    + right. right. left. eauto 10.
    + right. right. right. eauto 10.
  - intros [B [H|[H|[H|H]]]]; reach_inv.
    + left. reach_intro.
    + right. left. reach_intro.
    + right. right. left. reach_intro.
    + right. right. right. reach_intro.
Qed.

(** What a match of [\bM.\b|\bM\b] looks like. *)
Lemma maxim_reach p s st' :
  reach maxim_re (MState p s None) st' <->
  at_boundary p s = true /\
  ((exists x rest,
      s = "M"%char :: x :: rest /\ cls_ok Any x = true /\
      at_boundary (Some x) rest = true /\ st' = MState (Some x) rest None) \/
   (exists rest,
      s = "M"%char :: rest /\
      at_boundary (Some "M"%char) rest = true /\
      st' = MState (Some "M"%char) rest None)).
Proof.
  unfold maxim_re, whole_word_dot, whole_word.
  cbn [alt cat lits list_ascii_of_string]. split.
  - cbn [reach]. intros [H|H]; reach_inv; (split; [assumption|]).
    + left. eauto 10.
    + right. eauto 10.
  - intros [B [H|H]]; reach_inv.
    + left. reach_intro.
    + right. reach_intro.
Qed.

Lemma boundary_true_cases p s :
  at_boundary p s = true -> word_opt p = true \/ word_opt (head s) = true.
Proof.
  unfold at_boundary. destruct (word_opt p); [auto|]. simpl. auto.
Qed.

Lemma boundary_word_head p c s :
  Char.is_word c = true -> at_boundary p (c :: s) = true -> word_opt p = false.
Proof.
  unfold at_boundary. cbn [head word_opt]. intros ->.
  destruct (word_opt p); [discriminate|reflexivity].
Qed.

Lemma boundary_prev p q s :
  word_opt p = word_opt q -> at_boundary p s = at_boundary q s.
Proof. unfold at_boundary. intros ->. reflexivity. Qed.

Lemma boundary_head p s s' :
  word_opt (head s) = word_opt (head s') -> at_boundary p s = at_boundary p s'.
Proof. unfold at_boundary. intros ->. reflexivity. Qed.

(** A match of either pattern starts a word, takes at least one character
    and ends at the boundary of a word. *)
Lemma proverb_match p s n g :
  match_at proverb_re false p s = Some (n, g) ->
  word_opt p = false /\ word_opt (head s) = true /\ 0 < n /\
  at_boundary (prev_after p (take n s)) (drop n s) = true.
Proof.
  intros H. apply match_at_reach in H as (st' & R & -> & _).
  apply proverb_reach in R as [B [R|[R|[R|R]]]]; reach_inv;
    (split; [eapply boundary_word_head; [|exact B]; reflexivity|]);
    (split; [reflexivity|]); cbn [ms_rest length].
  - replace (S (S (S (length x0))) - length x0) with 3 by lia.
    split; [lia|assumption].
  - replace (S (S (length x)) - length x) with 2 by lia.
    split; [lia|assumption].
  - replace (S (S (S (S (S (length x0))))) - length x0) with 5 by lia.
    split; [lia|assumption].
  - replace (S (S (S (S (length x)))) - length x) with 4 by lia.
    split; [lia|assumption].
Qed.

Lemma maxim_match p s n g :
  match_at maxim_re false p s = Some (n, g) ->
  word_opt p = false /\ word_opt (head s) = true /\ 0 < n /\
  at_boundary (prev_after p (take n s)) (drop n s) = true.
Proof.
  intros H. apply match_at_reach in H as (st' & R & -> & _).
  apply maxim_reach in R as [B [R|R]]; reach_inv;
    (split; [eapply boundary_word_head; [|exact B]; reflexivity|]);
    (split; [reflexivity|]); cbn [ms_rest length].
  - replace (S (S (length x0)) - length x0) with 2 by lia.
    split; [lia|assumption].
  - replace (S (length x) - length x) with 1 by lia.
    split; [lia|assumption].
Qed.

Lemma proverb_prev p q s :
  word_opt p = word_opt q ->
  match_at proverb_re false p s = None -> match_at proverb_re false q s = None.
Proof.
  intros Hpq H. apply match_at_none. intros st' R.
  apply proverb_reach in R as [B R]. rewrite <- (boundary_prev p q s Hpq) in B.
  exact (match_at_complete _ _ _ _ (proj2 (proverb_reach p s st') (conj B R)) H).
Qed.

Lemma maxim_prev p q s :
  word_opt p = word_opt q ->
  match_at maxim_re false p s = None -> match_at maxim_re false q s = None.
Proof.
  intros Hpq H. apply match_at_none. intros st' R.
  apply maxim_reach in R as [B R]. rewrite <- (boundary_prev p q s Hpq) in B.
  exact (match_at_complete _ _ _ _ (proj2 (maxim_reach p s st') (conj B R)) H).
Qed.

(** Neither pattern matches at the start of one of the two words that are
    put in. *)
Lemma proverb_not_at_proverb q (Y : str) :
  match_at proverb_re false q ("Proverb" ++ Y) = None.
Proof.
  apply match_at_none. intros st' R.
  apply proverb_reach in R as [_ [R|[R|[R|R]]]];
    cbn [list_ascii_of_string app] in R; reach_inv;
    match goal with H : at_boundary _ _ = true |- _ => discriminate H end.
Qed.

Lemma proverb_not_at_maxim q (Y : str) :
  match_at proverb_re false q ("Maxim" ++ Y) = None.
Proof.
  apply match_at_none. intros st' R.
  apply proverb_reach in R as [_ [R|[R|[R|R]]]];
    cbn [list_ascii_of_string app] in R; reach_inv; discriminate.
Qed.

Lemma maxim_not_at_maxim q (Y : str) :
  match_at maxim_re false q ("Maxim" ++ Y) = None.
Proof.
  apply match_at_none. intros st' R.
  apply maxim_reach in R as [_ [R|R]];
    cbn [list_ascii_of_string app] in R; reach_inv;
    match goal with H : at_boundary _ _ = true |- _ => discriminate H end.
Qed.

(** A rewriting [T] of the text that copies the characters inside words and
    keeps the kind of the first character does not make either pattern
    match at the start of a word where it did not. *)
Section Local.
Variable T : option ascii -> str -> str.
Hypothesis T_nil : forall p, T p [] = [].
Hypothesis T_word : forall p c s,
  word_opt p = true -> T p (c :: s) = c :: T (Some c) s.
Hypothesis T_head : forall p s, word_opt (head (T p s)) = word_opt (head s).

Lemma T_inv p s c o :
  word_opt p = true -> T p s = c :: o ->
  exists s', s = c :: s' /\ o = T (Some c) s'.
Proof.
  intros Hp H. destruct s as [|x s].
  - rewrite T_nil in H. discriminate.
  - rewrite T_word in H by exact Hp. injection H as -> <-. eauto.
Qed.

Ltac T_step :=
  match goal with
  | H : T (Some ?c) ?s = _ :: _ |- _ =>
      apply (T_inv (Some c) s _ _ eq_refl) in H as (? & -> & ?)
  | H : _ :: _ = T (Some ?c) ?s |- _ =>
      symmetry in H; apply (T_inv (Some c) s _ _ eq_refl) in H as (? & -> & ?)
  end.

Lemma boundary_T p q s :
  at_boundary p (T q s) = true -> at_boundary p s = true.
Proof. intros H. rewrite <- H. apply boundary_head. symmetry. apply T_head. Qed.

Lemma proverb_local p c s :
  match_at proverb_re false p (c :: s) = None ->
  match_at proverb_re false p (c :: T (Some c) s) = None.
Proof.
  intros H. apply match_at_none. intros st' R.
  apply proverb_reach in R as [B R].
  assert (B' : at_boundary p (c :: s) = true)
    by (rewrite <- B; apply boundary_head; reflexivity).
  destruct R as [R|[R|[R|R]]]; reach_inv; repeat T_step; subst;
    repeat match goal with
      | Hb : at_boundary _ (T _ _) = true |- _ => apply boundary_T in Hb
      end;
    (eapply match_at_complete; [|exact H]); apply proverb_reach;
    (split; [exact B'|]).
  - left. eauto 10.
  - right. left. eauto 10.
  - right. right. left. eauto 10.
  - right. right. right. eauto 10.
Qed.

Lemma maxim_local p c s :
  match_at maxim_re false p (c :: s) = None ->
  match_at maxim_re false p (c :: T (Some c) s) = None.
Proof.
  intros H. apply match_at_none. intros st' R.
  apply maxim_reach in R as [B R].
  assert (B' : at_boundary p (c :: s) = true)
    by (rewrite <- B; apply boundary_head; reflexivity).
  destruct R as [R|R]; reach_inv; repeat T_step; subst;
    repeat match goal with
      | Hb : at_boundary _ (T _ _) = true |- _ => apply boundary_T in Hb
      end;
    (eapply match_at_complete; [|exact H]); apply maxim_reach;
    (split; [exact B'|]).
  - left. eauto 10.
  - right. eauto 10.
Qed.
End Local.

(* ===================================================================== *)
(** ** Expanding twice (lines 107-108) *)
(* ===================================================================== *)

Lemma quiet_end r q : nonnull r -> quiet r q [].
Proof.
  intros Hnn. split; [|exact I].
  destruct (match_at r false q []) as [[n g]|] eqn:E; [|reflexivity].
  pose proof (Hnn _ _ _ _ E). pose proof (match_at_le _ _ _ _ _ _ E).
  simpl in *. lia.
Qed.

Lemma calm_refl r s : forall p, calm r r p s.
Proof. induction s as [|c s IH]; intros p; simpl; auto. Qed.

Lemma calm_of_quiet r r' s : forall p, quiet r p s -> calm r r' p s.
Proof.
  induction s as [|c s IH]; intros p [H0 H]; simpl; auto.
Qed.

Lemma calm_drop r r' n : forall s p,
  calm r r' p s -> calm r r' (prev_after p (take n s)) (drop n s).
Proof.
  induction n as [|n IH]; intros s p H.
  - rewrite take_0, drop_0. exact H.
  - destruct s as [|c s]; [exact H|].
    cbn [take drop]. rewrite prev_after_cons. apply IH. apply H.
Qed.

Lemma word_run_last q (w : str) :
  w <> [] -> forallb Char.is_word w = true -> word_opt (prev_after q w) = true.
Proof.
  revert q. induction w as [|c w IH]; intros q Hne Hw; [congruence|].
  cbn [forallb] in Hw. apply andb_prop in Hw as [Hc Hw].
  rewrite prev_after_cons. destruct w as [|d w]; [exact Hc|].
  apply IH; [discriminate|exact Hw].
Qed.

Section Simulation.
(** [r] is the pattern looked for in the result of the substitution of
    [repl'] for [r']. *)
Variables (r r' : re) (repl' : str).
Hypothesis r_nonnull : nonnull r.
Hypothesis r_start : forall p s n g,
  match_at r false p s = Some (n, g) -> word_opt p = false.
Hypothesis r_prev : forall p q s,
  word_opt p = word_opt q ->
  match_at r false p s = None -> match_at r false q s = None.
Hypothesis r'_match : forall p s n g,
  match_at r' false p s = Some (n, g) ->
  word_opt p = false /\ word_opt (head s) = true /\ 0 < n /\
  at_boundary (prev_after p (take n s)) (drop n s) = true.
Hypothesis repl'_word : forallb Char.is_word repl' = true.
Hypothesis repl'_not_nil : repl' <> [].
Hypothesis r_not_at_repl' : forall q Y, match_at r false q (repl' ++ Y) = None.
Hypothesis r_local : forall T : option ascii -> str -> str,
  (forall p, T p [] = []) ->
  (forall p c s, word_opt p = true -> T p (c :: s) = c :: T (Some c) s) ->
  (forall p s, word_opt (head (T p s)) = word_opt (head s)) ->
  forall p c s,
    match_at r false p (c :: s) = None ->
    match_at r false p (c :: T (Some c) s) = None.

Lemma r'_nonnull : nonnull r'.
Proof. intros p s n g H. apply r'_match in H. tauto. Qed.

Lemma r_inside_word p s : word_opt p = true -> match_at r false p s = None.
Proof.
  intros Hp. destruct (match_at r false p s) as [[n g]|] eqn:E; [|reflexivity].
  apply r_start in E. congruence.
Qed.

Lemma r'_inside_word p s : word_opt p = true -> match_at r' false p s = None.
Proof.
  intros Hp. destruct (match_at r' false p s) as [[n g]|] eqn:E; [|reflexivity].
  apply r'_match in E as [E _]. congruence.
Qed.

Lemma subst_nil p : sub_from r' repl' p [] = [].
Proof. apply sub_from_nil, r'_nonnull. Qed.

Lemma subst_word p c s :
  word_opt p = true ->
  sub_from r' repl' p (c :: s) = c :: sub_from r' repl' (Some c) s.
Proof. intros Hp. apply sub_from_miss, r'_inside_word, Hp. Qed.

Lemma subst_head p s :
  word_opt (head (sub_from r' repl' p s)) = word_opt (head s).
Proof.
  destruct s as [|c s]; [rewrite subst_nil; reflexivity|].
  rewrite sub_from_cons by exact r'_nonnull.
  destruct (match_at r' false p (c :: s)) as [[n g]|] eqn:E; [|reflexivity].
  apply r'_match in E as (_ & -> & _).
  destruct repl' as [|h w]; [contradiction|].
  cbn [forallb] in repl'_word. apply andb_prop in repl'_word as [Hh _].
  exact Hh.
Qed.

(** A word put into the result, and what follows it. *)
Lemma quiet_word_run (w X : str) : forall q,
  w <> [] -> forallb Char.is_word w = true ->
  match_at r false q (w ++ X) = None ->
  quiet r (prev_after q w) X ->
  quiet r q (w ++ X).
Proof.
  induction w as [|c w IH]; intros q Hne Hw H0 HX; [congruence|].
  cbn [forallb] in Hw. apply andb_prop in Hw as [Hc Hw].
  rewrite prev_after_cons in HX. cbn [app]. split; [exact H0|].
  destruct w as [|d w]; [exact HX|].
  apply IH; [discriminate|exact Hw| |exact HX].
  apply r_inside_word. exact Hc.
Qed.

(** The pattern [r] matches nowhere in the result, provided that in the
    text it matched at most where [r'] did. *)
Lemma subst_quiet n : forall s p q,
  length s <= n -> in_step q p s -> calm r r' p s ->
  quiet r q (sub_from r' repl' p s).
Proof.
  induction n as [|n IH]; intros s p q Hlen Hstep Hcalm.
  { destruct s; [|simpl in Hlen; lia]. rewrite subst_nil.
    apply quiet_end, r_nonnull. }
  destruct s as [|c s]; [rewrite subst_nil; apply quiet_end, r_nonnull|].
  rewrite sub_from_cons by exact r'_nonnull.
  destruct (match_at r' false p (c :: s)) as [[m g]|] eqn:E.
  - pose proof (r'_match _ _ _ _ E) as (_ & _ & Hm & Hb).
    apply quiet_word_run;
      [exact repl'_not_nil|exact repl'_word|apply r_not_at_repl'|].
    apply IH.
    + rewrite length_drop. simpl in Hlen |- *. lia.
    + unfold in_step.
      rewrite (word_run_last q repl' repl'_not_nil repl'_word).
      apply boundary_true_cases in Hb as [Hb|Hb]; [left|right]; auto.
    + apply calm_drop, Hcalm.
  - destruct Hcalm as [H0 Hcalm]. specialize (H0 E). split.
    + destruct (word_opt q) eqn:Hq; [apply r_inside_word, Hq|].
      assert (Hp : word_opt p = false).
      { destruct Hstep as [Hs|[Hs _]]; congruence. }
      apply (r_prev p q); [congruence|].
      apply (r_local (sub_from r' repl'));
        [exact subst_nil|exact subst_word|exact subst_head|exact H0].
    + apply IH; [simpl in Hlen; lia|left; reflexivity|exact Hcalm].
Qed.

Lemma sub_result_quiet s :
  calm r r' None s -> quiet r None (sub r' repl' s).
Proof.
  intros H. rewrite sub_sub_from.
  apply (subst_quiet (length s)); [lia|left; reflexivity|exact H].
Qed.
End Simulation.

Lemma proverb_nonnull : nonnull proverb_re.
Proof. intros p s n g H. apply proverb_match in H. tauto. Qed.

Lemma maxim_nonnull : nonnull maxim_re.
Proof. intros p s n g H. apply maxim_match in H. tauto. Qed.

Lemma proverb_start p s n g :
  match_at proverb_re false p s = Some (n, g) -> word_opt p = false.
Proof. intros H. apply proverb_match in H. tauto. Qed.

Lemma maxim_start p s n g :
  match_at maxim_re false p s = Some (n, g) -> word_opt p = false.
Proof. intros H. apply maxim_match in H. tauto. Qed.

(** After the first substitution nothing is left of [Pr], [Pr.], [Prov] and
    [Prov.]; the second substitution brings none of them back and leaves
    nothing of [M] and [M.]. *)
Lemma proverb_gone s : quiet proverb_re None (sub proverb_re "Proverb" s).
Proof.
  apply (sub_result_quiet proverb_re proverb_re "Proverb").
  - exact proverb_nonnull.
  - exact proverb_start.
  - exact proverb_prev.
  - exact proverb_match.
  - reflexivity.
  - discriminate.
  - exact proverb_not_at_proverb.
  - exact proverb_local.
  - apply calm_refl.
Qed.

Lemma proverb_stays_gone u :
  quiet proverb_re None u -> quiet proverb_re None (sub maxim_re "Maxim" u).
Proof.
  intros H. apply (sub_result_quiet proverb_re maxim_re "Maxim").
  - exact proverb_nonnull.
  - exact proverb_start.
  - exact proverb_prev.
  - exact maxim_match.
  - reflexivity.
  - discriminate.
  - exact proverb_not_at_maxim.
  - exact proverb_local.
  - apply calm_of_quiet, H.
Qed.

Lemma maxim_gone u : quiet maxim_re None (sub maxim_re "Maxim" u).
Proof.
  apply (sub_result_quiet maxim_re maxim_re "Maxim").
  - exact maxim_nonnull.
  - exact maxim_start.
  - exact maxim_prev.
  - exact maxim_match.
  - reflexivity.
  - discriminate.
  - exact maxim_not_at_maxim.
  - exact maxim_local.
  - apply calm_refl.
Qed.

(** C9: expanding the abbreviations of a string that is already expanded
    changes nothing. *)
Theorem expand_abbrev_idempotent (s : str) :
  expand_abbrev (expand_abbrev s) = expand_abbrev s.
Proof.
  unfold expand_abbrev.
  rewrite (sub_quiet proverb_re "Proverb"
             (sub maxim_re "Maxim" (sub proverb_re "Proverb" s))).
  - apply sub_quiet, maxim_gone.
  - apply proverb_stays_gone, proverb_gone.
Qed.

(* ===================================================================== *)
(** ** What every entry and every row is like (lines 94-101 and 175-261) *)
(* ===================================================================== *)

Lemma format_output_src (e : entry) :
  (format_output e).2 = if src_truthy e.2 then e.2 else SrcNone.
Proof.
  destruct e as [[[original translation] src_origin] src_info].
  unfold format_output. destruct (bool_decide (translation = [])); reflexivity.
Qed.

Lemma src_plain_of_kind (e : entry) : src_kind e.2 -> src_plain (format_output e).2.
Proof.
  rewrite format_output_src. unfold src_kind, src_plain.
  intros [->|[->|[t ->]]]; cbn [src_truthy]; auto.
  destruct (bool_decide (t = [])) eqn:E; cbn [negb]; [auto|].
  apply bool_decide_eq_false in E. eauto.
Qed.

Lemma resolve_origin_kind alm aam oam original translation src_info :
  src_kind (resolve_origin alm aam oam original translation src_info).2.
Proof.
  unfold resolve_origin, src_kind.
  destruct src_info as [[|first others]|]; cbn [snd]; auto.
  destruct (alm !! _); cbn [snd]; eauto.
  destruct (bool_decide _); cbn [snd]; eauto.
  destruct (oam !! _); cbn [snd]; eauto.
Qed.

Lemma parse_entry_kind alm aam oam clean src_info e :
  parse_entry alm aam oam clean src_info = Returned e -> src_kind e.2.
Proof.
  unfold parse_entry, greek_entry, delimited_entry.
  destruct (findall greek_re clean) as [|original l].
  - repeat match goal with
      | |- context [if ?b then _ else _] => destruct b
      end; intros H; inversion H; apply resolve_origin_kind.
  - destruct (bool_decide _); intros H; inversion H. cbn [snd].
    unfold src_kind. destruct src_info as [[|first others]|]; eauto.
Qed.

Lemma process_entry_kind aliases alm aam oam s e :
  process_entry aliases alm aam oam s = Returned e -> src_kind e.2.
Proof.
  unfold process_entry.
  destruct (extract_attribution aliases (normalize s)) as [clean src_info].
  apply parse_entry_kind.
Qed.

(** Trimming on the right. *)
Lemma drop_while_idem f s :
  Str.drop_while f (Str.drop_while f s) = Str.drop_while f s.
Proof.
  induction s as [|x s IH]; [reflexivity|]. simpl.
  destruct (f x) eqn:E; [exact IH|]. simpl. rewrite E. reflexivity.
Qed.

Lemma rstrip_trimmed s : trimmed_right (Str.rstrip s).
Proof.
  unfold trimmed_right, Str.rstrip, Str.lstrip.
  rewrite rev_involutive, drop_while_idem. reflexivity.
Qed.

Lemma drop_while_fix_take f (l : str) m :
  Str.drop_while f l = l -> Str.drop_while f (take m l) = take m l.
Proof.
  destruct l as [|x l]; [destruct m; reflexivity|].
  destruct m; [reflexivity|]. simpl. destruct (f x) eqn:E; [|reflexivity].
  intros H. exfalso.
  assert (Hlen : forall t : str, length (Str.drop_while f t) <= length t).
  { induction t as [|y t IHt]; simpl; [lia|]. destruct (f y); simpl; lia. }
  pose proof (Hlen l) as Hl. rewrite H in Hl. simpl in Hl. lia.
Qed.

Lemma trimmed_drop n s : trimmed_right s -> trimmed_right (drop n s).
Proof.
  unfold trimmed_right, Str.rstrip, Str.lstrip. intros H.
  assert (Hrev : Str.drop_while Char.is_space (rev s) = rev s).
  { rewrite <- (rev_involutive (Str.drop_while _ _)), H. reflexivity. }
  assert (E : rev (drop n s) = take (length s - n) (rev s)).
  { rewrite firstn_rev. f_equal.
    destruct (decide (n <= length s)) as [Hn|Hn].
    - replace (length s - (length s - n)) with n by lia. reflexivity.
    - rewrite drop_ge by lia.
      replace (length s - (length s - n)) with (length s) by lia.
      rewrite drop_all. reflexivity. }
  rewrite E, (drop_while_fix_take _ _ _ Hrev), <- E. apply rev_involutive.
Qed.

(** X1: the translation of an entry has no white space at its end, and
    neither has the original of an entry that is not from the Greek. *)
Theorem entry_trimmed (alm aam oam : gmap str str) (clean : str)
    (src_info : option (list str)) (original translation origin : str)
    (src : src_value) :
  parse_entry alm aam oam clean src_info =
    Returned (original, translation, origin, src) ->
  trimmed_right translation /\
  (findall greek_re clean = [] -> trimmed_right original).
Proof.
  unfold parse_entry, greek_entry, delimited_entry.
  assert (R : forall o t, exists org s,
             resolve_origin alm aam oam o t src_info = (o, t, org, s)).
  { intros o t. unfold resolve_origin.
    repeat match goal with
      | |- context [match ?x with _ => _ end] => destruct x
      end; eauto. }
  destruct (findall greek_re clean) as [|X l].
  - repeat match goal with
      | |- context [if ?b then _ else _] => destruct b eqn:?
      end; intros H; inversion H as [H'];
      match type of H' with
      | resolve_origin _ _ _ ?o ?t _ = _ =>
          destruct (R o t) as (org & s & E); rewrite E in H'
      end;
      injection H' as <- <- _ _.
    + split; [apply rstrip_trimmed|]. intros _. apply rstrip_trimmed.
    + split; [apply trimmed_drop, rstrip_trimmed|].
      intros _. apply rstrip_trimmed.
  - destruct (bool_decide _); intros H; inversion H. subst.
    split; [apply rstrip_trimmed|discriminate].
Qed.

Lemma entry_trimmed_witness :
  trimmed_right ("From the egg" : str) /\
  (findall greek_re "=Ab ovo. =--From the egg  " = [] ->
   trimmed_right ("Ab ovo." : str)).
Proof.
  apply (entry_trimmed ∅ ∅ ∅ "=Ab ovo. =--From the egg  " None
           "Ab ovo." "From the egg" "Latin" SrcNone).
  vm_compute. reflexivity.
Defined.

(* ===================================================================== *)
(** ** The corpus, entry by entry (lines 264-285) *)
(* ===================================================================== *)

Section Corpus.
Variable shakespeare_aliases : gset str.
Variables auth_lang_map auth_abbrev_map origin_abbrev_map : gmap str str.

Let parse : str -> outcome entry :=
  process_entry shakespeare_aliases auth_lang_map auth_abbrev_map
    origin_abbrev_map.
Let line_step : wood -> str -> wood :=
  wood_line shakespeare_aliases auth_lang_map auth_abbrev_map
    origin_abbrev_map.

Let row_of : str -> option row :=
  entry_row shakespeare_aliases auth_lang_map auth_abbrev_map
    origin_abbrev_map.
Let print_of : str -> option str :=
  entry_print shakespeare_aliases auth_lang_map auth_abbrev_map
    origin_abbrev_map.

Lemma wood_loop lines : forall w,
  cleaned (fold_left line_step lines w) =
    cleaned w ++ omap row_of (blocks_from (lst w) lines).1 /\
  printed (fold_left line_step lines w) =
    printed w ++ omap print_of (blocks_from (lst w) lines).1 /\
  concat (lst (fold_left line_step lines w)) = (blocks_from (lst w) lines).2.
Proof.
  induction lines as [|line lines IH]; intros w.
  - cbn [fold_left blocks_from fst snd omap]. rewrite !app_nil_r. auto.
  - assert (Hstep : line_step w line =
              if bool_decide (line ≠ [Char.newline])
              then Wood (cleaned w) (lst w ++ [line]) (printed w)
              else match parse (concat (lst w)) with
                   | Returned e =>
                       Wood (cleaned w ++ [format_output e]) [] (printed w)
                   | Raised (IndexError msg) =>
                       Wood (cleaned w) [] (printed w ++ ["IndexError: " ++ msg])
                   | Raised (AssertionError msg) =>
                       Wood (cleaned w) []
                         (printed w ++ ["AssertionError: " ++ msg])
                   end) by reflexivity.
    cbn [fold_left blocks_from]. rewrite Hstep. clear Hstep.
    destruct (bool_decide (line ≠ [Char.newline])).
    + apply (IH (Wood (cleaned w) (lst w ++ [line]) (printed w))).
    + cbn [fst snd].
      assert (Hcons : forall {B} (f : str -> option B) x l,
                 omap f (x :: l) =
                 match f x with Some y => y :: omap f l | None => omap f l end)
        by reflexivity.
      rewrite !Hcons. unfold row_of at 1, print_of at 1, entry_row, entry_print.
      fold parse.
      destruct (parse (concat (lst w))) as [e|[msg|msg]];
        match goal with
        | |- context [fold_left line_step lines ?w'] =>
            destruct (IH w') as (H1 & H2 & H3)
        end;
        cbn [cleaned lst printed] in H1, H2, H3;
        rewrite H1, H2, H3, <- ?app_assoc; auto.
Qed.

(** X2: [process_Wood] parses the entries that the blank lines end and the
    text after the last blank line.  It returns exactly when this last
    entry is parsed; the rows are then those of the entries that are
    parsed, in the order of the file, with the row of the last entry at the
    end, and an entry before it that raises is left out without any other
    effect on the rows. *)
Theorem process_Wood_rows (lines : list str) :
  process_Wood shakespeare_aliases auth_lang_map auth_abbrev_map
    origin_abbrev_map lines =
  match parse (blocks_from [] lines).2 with
  | Returned e =>
      Returned (omap row_of (blocks_from [] lines).1 ++ [format_output e])
  | Raised err => Raised err
  end.
Proof.
  unfold process_Wood. fold line_step. fold parse.
  destruct (wood_loop lines (Wood [] [] [])) as (H1 & _ & H3).
  cbn [cleaned lst] in H1, H3. rewrite H1, H3. reflexivity.
Qed.

Lemma blocks_from_blank lines : forall lst,
  blocks_from lst (lines ++ [[Char.newline]]) =
  ((blocks_from lst lines).1 ++ [(blocks_from lst lines).2], []).
Proof.
  induction lines as [|line lines IH]; intros lst.
  - reflexivity.
  - cbn [app blocks_from]. destruct (bool_decide (line ≠ [Char.newline])).
    + apply IH.
    + rewrite IH. reflexivity.
Qed.

Lemma parse_empty : parse [] = Returned ([], [], ("UNK" : str), SrcNone).
Proof. reflexivity. Qed.

(** X3: a file that ends with a blank line is always read to its end,
    whatever its entries are: the last call of [process_entry] gets the
    empty text, which is parsed, and its row, without origin and without
    any text, is the last row of the result. *)
Theorem process_Wood_blank_end (lines : list str) :
  process_Wood shakespeare_aliases auth_lang_map auth_abbrev_map
    origin_abbrev_map (lines ++ [[Char.newline]]) =
  Returned
    (omap row_of ((blocks_from [] lines).1 ++ [(blocks_from [] lines).2]) ++
     [(("UNK" : str), None, [], SrcNone)]).
Proof.
  unfold process_Wood. fold line_step. fold parse.
  destruct (wood_loop (lines ++ [[Char.newline]]) (Wood [] [] []))
    as (H1 & _ & H3).
  cbn [cleaned lst] in H1, H3. rewrite H1, H3, blocks_from_blank.
  cbn [fst snd]. rewrite parse_empty. reflexivity.
Qed.

(** X4: what is printed, one line for each entry before the last that
    raises, in the order of the file; nothing else is printed. *)
Theorem process_Wood_printed (lines : list str) :
  printed (fold_left line_step lines (Wood [] [] [])) =
  omap print_of (blocks_from [] lines).1.
Proof.
  destruct (wood_loop lines (Wood [] [] [])) as (_ & H2 & _). exact H2.
Qed.
Lemma rows_plain (blocks : list str) :
  Forall (fun r : row => src_plain r.2) (omap row_of blocks).
Proof.
  induction blocks as [|b blocks IH]; [constructor|].
  change (omap row_of (b :: blocks)) with
    (match row_of b with
     | Some y => y :: omap row_of blocks
     | None => omap row_of blocks
     end).
  unfold row_of at 1, entry_row. fold parse.
  destruct (parse b) as [e|err] eqn:E; [|exact IH].
  constructor; [|exact IH].
  apply src_plain_of_kind. eapply process_entry_kind. exact E.
Qed.

Lemma tally_plain (rows : list row) : forall authorset,
  Forall (fun r : row => src_plain r.2) rows -> is_Some (tally rows authorset).
Proof.
  induction rows as [|[[[o original] english] src] rows IH];
    intros authorset H; [cbn; eauto|].
  apply Forall_cons in H as [Hsrc H]. cbn [snd] in Hsrc. cbn [tally].
  destruct Hsrc as [->|(t & Ht & ->)]; cbn [src_truthy].
  - apply IH, H.
  - rewrite bool_decide_eq_false_2 by exact Ht. cbn [negb]. apply IH, H.
Qed.

(** X5: in every row that [process_Wood] returns the source information is
    [None] or a string that is not empty, never a list and never the empty
    string; so every source can be a key of [authorset], and the tally of
    the sources does not raise. *)
Theorem process_Wood_sources (lines : list str) (rows : list row) :
  process_Wood shakespeare_aliases auth_lang_map auth_abbrev_map
    origin_abbrev_map lines = Returned rows ->
  Forall (fun r : row => src_plain r.2) rows /\ is_Some (tally rows []).
Proof.
  unfold process_Wood. fold line_step. fold parse.
  destruct (wood_loop lines (Wood [] [] [])) as (H1 & _ & H3).
  cbn [cleaned lst] in H1, H3. rewrite H1, H3.
  destruct (parse (blocks_from [] lines).2) as [e|err] eqn:E; [|discriminate].
  intros H. injection H as <-.
  assert (HF : Forall (fun r : row => src_plain r.2)
                 (omap row_of (blocks_from [] lines).1 ++ [format_output e])).
  { apply Forall_app. split; [apply rows_plain|].
    constructor; [|constructor].
    apply src_plain_of_kind. eapply process_entry_kind. exact E. }
  split; [exact HF|apply tally_plain, HF].
Qed.
End Corpus.


Lemma process_Wood_sources_witness :
  Forall (fun r : row => src_plain r.2)
    [(("Latin" : str), Some ("Ab ovo." : str), ("From the egg." : str),
      SrcText "Hor")] /\
  is_Some
    (tally [(("Latin" : str), Some ("Ab ovo." : str), ("From the egg." : str),
             SrcText "Hor")] []).
Proof.
  apply (process_Wood_sources ∅ ∅ ∅ ∅ ["=Ab ovo.=--From the egg. _Hor._" : str]).
  vm_compute. reflexivity.
Defined.

(* ===================================================================== *)
(** ** What the normalizer leaves (lines 112-125) *)
(* ===================================================================== *)

Lemma reach_min_len r : forall st st',
  reach r st st' ->
  exists taken,
    ms_rest st = taken ++ ms_rest st' /\ min_len r <= length taken.
Proof.
  induction r as [| c | greedy n c | | | | r1 IH1 r2 IH2 | r1 IH1 r2 IH2 | r1 IH1];
    intros st st' R; cbn [reach min_len] in *.
  - subst. exists []. auto.
  - destruct R as (x & rest & E & _ & ->). exists [x]. auto.
  - destruct R as (taken & rest & E & _ & Hn & ->). exists taken. auto.
  - destruct R as [_ ->]. exists []. auto.
  - destruct R as [_ ->]. exists []. auto.
  - destruct R as [_ ->]. exists []. auto.
  - destruct R as (m & R1 & R2).
    apply IH1 in R1 as (t1 & E1 & L1). apply IH2 in R2 as (t2 & E2 & L2).
    exists (t1 ++ t2). rewrite E1, E2, app_assoc, length_app. split; [auto|lia].
  - destruct R as [R|R]; [apply IH1 in R|apply IH2 in R];
      destruct R as (t & E & L); exists t; split; auto; lia.
  - destruct R as (m & R & ->). apply IH1 in R as (t & E & L). exists t. auto.
Qed.

Lemma min_len_nonnull r : 0 < min_len r -> nonnull r.
Proof.
  intros H p s n g E. apply match_at_reach in E as (st' & R & -> & _).
  apply reach_min_len in R as (taken & E & L). cbn [ms_rest] in E.
  rewrite E, length_app. lia.
Qed.

(** A substitution whose matches are at least as long as the replacement
    does not make the text longer. *)
Lemma sub_from_length r repl : nonnull r -> length repl <= 1 ->
  forall n s p, length s <= n -> length (sub_from r repl p s) <= length s.
Proof.
  intros Hnn Hrepl. induction n as [|n IH]; intros s p Hlen.
  - destruct s; [|simpl in Hlen; lia]. rewrite sub_from_nil by exact Hnn.
    reflexivity.
  - destruct s as [|c s]; [rewrite sub_from_nil by exact Hnn; reflexivity|].
    rewrite sub_from_cons by exact Hnn.
    destruct (match_at r false p (c :: s)) as [[m g]|] eqn:E.
    + pose proof (Hnn _ _ _ _ E). pose proof (match_at_le _ _ _ _ _ _ E) as Hle.
      rewrite length_app.
      assert (H1 : length (drop m (c :: s)) <= n)
        by (rewrite length_drop; simpl in *; lia).
      pose proof (IH (drop m (c :: s)) (prev_after p (take m (c :: s))) H1) as H2.
      rewrite length_drop in H2. lia.
    + simpl. pose proof (IH s (Some c) ltac:(simpl in Hlen; lia)). lia.
Qed.

(** What a substitution by nothing keeps are characters at which its
    pattern does not match. *)
Lemma sub_from_kept r x : nonnull r ->
  forall n s p, length s <= n -> x ∈ sub_from r "" p s ->
  exists p' s', match_at r false p' (x :: s') = None.
Proof.
  intros Hnn. induction n as [|n IH]; intros s p Hlen Hin.
  - destruct s; [|simpl in Hlen; lia]. rewrite sub_from_nil in Hin by exact Hnn.
    inversion Hin.
  - destruct s as [|c s];
      [rewrite sub_from_nil in Hin by exact Hnn; inversion Hin|].
    rewrite sub_from_cons in Hin by exact Hnn.
    destruct (match_at r false p (c :: s)) as [[m g]|] eqn:E.
    + pose proof (Hnn _ _ _ _ E). cbn [list_ascii_of_string app] in Hin.
      eapply IH; [|exact Hin]. rewrite length_drop. simpl in *. lia.
    + apply elem_of_cons in Hin as [->|Hin]; [eauto|].
      eapply IH; [|exact Hin]. simpl in Hlen. lia.
Qed.

Lemma digits_match p x s :
  Char.is_digit x = true -> match_at (Rep true 1 Digit) false p (x :: s) <> None.
Proof.
  intros Hx. apply (match_at_complete _ _ _ (MState (Some x) s None)).
  cbn [reach ms_rest ms_prev ms_grp]. exists [x], s. cbn [forallb cls_ok].
  rewrite Hx. repeat split. simpl. lia.
Qed.

Lemma fold_sub_invariant (P : ascii -> Prop) rules s :
  Forall (fun rule : re * str => forall x, x ∈ rule.2 -> P x) rules ->
  (forall x, x ∈ s -> P x) ->
  forall x, x ∈ fold_left (fun clean rule => sub rule.1 rule.2 clean) rules s ->
  P x.
Proof.
  intros H. revert s. induction H as [|rule rules Hr _ IH]; intros s Hs x Hx;
    simpl in Hx; [auto|].
  eapply IH; [|exact Hx]. intros y Hy.
  apply sub_chars in Hy as [Hy|Hy]; auto.
Qed.

Lemma fold_sub_length rules : 
  Forall (fun rule : re * str => nonnull rule.1 /\ length rule.2 <= 1) rules ->
  forall s,
    length (fold_left (fun clean rule => sub rule.1 rule.2 clean) rules s)
    <= length s.
Proof.
  induction 1 as [|rule rules [Hnn Hl] _ IH]; intros s; simpl; [lia|].
  etrans; [apply IH|]. rewrite sub_sub_from.
  apply (sub_from_length _ _ Hnn Hl (length s)). lia.
Qed.

(** X6: the normalized text holds no digit; every character of it is a
    character of the raw text, a space or an equals sign; and it is not
    longer than the raw text. *)
Theorem normalize_result (s : str) :
  (forall x, x ∈ normalize s ->
     Char.is_digit x = false /\
     (x ∈ s \/ x = " "%char \/ x = "="%char)) /\
  length (normalize s) <= length s.
Proof.
  split.
  - intros x Hx. split.
    + revert x Hx. unfold normalize, substitutions.
      cbn [fold_left rule fst snd].
      apply (fold_sub_invariant (fun x => Char.is_digit x = false)
               (drop 1 substitutions)).
      * repeat first [apply List.Forall_nil | apply List.Forall_cons];
          cbn [rule snd list_ascii_of_string]; intros x Hx;
          repeat (apply elem_of_cons in Hx as [->|Hx]; [reflexivity|]);
          inversion Hx.
      * intros x Hx. rewrite sub_sub_from in Hx.
        apply (sub_from_kept _ _ (min_len_nonnull (Rep true 1 Digit) ltac:(simpl; lia))
                 (length s) s None ltac:(lia)) in Hx as (p' & s' & E).
        destruct (Char.is_digit x) eqn:D; [|reflexivity].
        destruct (digits_match p' x s' D E).
    + revert x Hx. unfold normalize.
      apply (fold_sub_invariant
               (fun x => x ∈ s \/ x = " "%char \/ x = "="%char)).
      * unfold substitutions.
        repeat first [apply List.Forall_nil | apply List.Forall_cons];
          cbn [rule snd list_ascii_of_string]; intros x Hx;
          repeat (apply elem_of_cons in Hx as [->|Hx]; [auto|]);
          inversion Hx.
      * auto.
  - unfold normalize, substitutions. apply fold_sub_length.
    repeat first [apply List.Forall_nil | apply List.Forall_cons];
      (split; [apply min_len_nonnull; cbn; lia|cbn; lia]).
Qed.

(* ===================================================================== *)
(** ** When there is source information, and what its tokens are like
       (lines 127-173) *)
(* ===================================================================== *)

Lemma count_two_split (x : ascii) (t : str) :
  2 <= Str.count x t ->
  exists c b a, t = c ++ x :: b ++ x :: a /\ (x ∉ c) /\ (x ∉ b).
Proof.
  unfold Str.count. intros H.
  assert (H1 : x ∈ t).
  { apply list_elem_of_In, (count_occ_In ascii_dec). lia. }
  apply list_elem_of_split_l in H1 as (c & t1 & -> & Hc).
  rewrite count_occ_app, count_occ_cons_eq in H by reflexivity.
  assert (Hc0 : count_occ ascii_dec c x = 0).
  { apply count_occ_not_In. intros Hin. apply Hc, list_elem_of_In, Hin. }
  assert (H2 : x ∈ t1).
  { apply list_elem_of_In, (count_occ_In ascii_dec). lia. }
  apply list_elem_of_split_l in H2 as (b & a & -> & Hb).
  exists c, b, a. auto.
Qed.

Lemma not_elem_of_rev_iff (x : ascii) (l : str) : x ∉ rev l <-> x ∉ l.
Proof. rewrite elem_of_rev. reflexivity. Qed.

(** Every text without newline that holds two underscores ends with a
    span [_b_c] in which [b] and [c] hold neither an underscore nor a
    newline: the form of the text in which source information is found. *)
Lemma last_span_shape (text : str) :
  Char.newline ∉ text -> 2 <= Str.count "_" text ->
  exists a b c : str,
    text = a ++ "_" ++ b ++ "_" ++ c /\
    ("_"%char ∉ b) /\ ("_"%char ∉ c) /\
    (Char.newline ∉ b) /\ (Char.newline ∉ c).
Proof.
  intros Hn H.
  assert (Hr : 2 <= Str.count "_" (rev text))
    by (unfold Str.count in *; rewrite count_occ_rev; exact H).
  apply count_two_split in Hr as (c & b & a & E & Hc & Hb).
  assert (Et : text = rev a ++ "_" ++ rev b ++ "_" ++ rev c).
  { rewrite <- (rev_involutive text), E, rev_app_distr. cbn [rev].
    rewrite rev_app_distr. cbn [rev list_ascii_of_string app].
    rewrite <- !app_assoc. reflexivity. }
  exists (rev a), (rev b), (rev c). split; [exact Et|].
  rewrite Et in Hn. cbn [list_ascii_of_string app] in Hn.
  repeat split.
  - apply not_elem_of_rev_iff, Hb.
  - apply not_elem_of_rev_iff, Hc.
  - intros Hin. apply Hn. apply elem_of_app. right. right.
    apply elem_of_app. left. exact Hin.
  - intros Hin. apply Hn. apply elem_of_app. right. right.
    apply elem_of_app. right. right. exact Hin.
Qed.

(** X7: in a text without newline, as the normalizer returns it, source
    information is found exactly when the text holds two underscores; the
    text that is handed on is then trimmed on the right. *)
Theorem attribution_found_iff (aliases : gset str) (text : str) :
  Char.newline ∉ text ->
  (Str.count "_" text < 2 -> (extract_attribution aliases text).2 = None) /\
  (2 <= Str.count "_" text ->
   is_Some (extract_attribution aliases text).2 /\
   trimmed_right (extract_attribution aliases text).1).
Proof.
  intros Hn. split.
  - intros H. unfold extract_attribution.
    rewrite findall_quiet; [reflexivity|].
    apply span_quiet. unfold Str.count in *. rewrite count_occ_rev. exact H.
  - intros H.
    assert (H' : 2 <= Str.count "_" (rev text))
      by (unfold Str.count in *; rewrite count_occ_rev; exact H).
    apply count_two_split in H' as (c & b & a & E & Hc & Hb).
    assert (Hn' : Char.newline ∉ rev text) by (apply not_elem_of_rev; exact Hn).
    rewrite E in Hn'.
    rewrite not_elem_of_app, not_elem_of_cons, not_elem_of_app in Hn'.
    destruct Hn' as (Hnc & _ & Hnb & _).
    unfold extract_attribution. rewrite E, span_findall by assumption.
    cbn [fst snd]. split; [eauto|apply rstrip_trimmed].
Qed.

Lemma attribution_found_iff_witness :
  (Str.count "_" "=Festina lente.= _Pr._" < 2 ->
   (extract_attribution ∅ "=Festina lente.= _Pr._").2 = None) /\
  (2 <= Str.count "_" "=Festina lente.= _Pr._" ->
   is_Some (extract_attribution ∅ "=Festina lente.= _Pr._").2 /\
   trimmed_right (extract_attribution ∅ "=Festina lente.= _Pr._").1).
Proof.
  apply (attribution_found_iff ∅ "=Festina lente.= _Pr._"). decide_by_vm.
Defined.

(** [str.replace] by nothing of a single character, [str.split] and
    [str.strip]. *)
Lemma replace_char_none c (s : str) : c ∉ Str.replace [c] [] s.
Proof.
  unfold Str.replace. induction s as [|x s IH]; [inversion 1|].
  cbn [Str.replace_go Str.starts_with length]. rewrite andb_true_r.
  destruct (Ascii.eqb_spec c x) as [->|Hx]; cbn [app Nat.sub]; [exact IH|].
  apply not_elem_of_cons. auto.
Qed.

Lemma split_fields_no_sep c (s f : str) : f ∈ Str.split [c] s -> c ∉ f.
Proof.
  revert f. induction s as [|x s IH]; intros f H.
  - apply list_elem_of_singleton in H as ->. inversion 1.
  - rewrite split_cons in H. destruct (Ascii.eqb_spec c x) as [->|Hx].
    + apply elem_of_cons in H as [->|H]; [inversion 1|auto].
    + pose proof (split_not_nil c s) as Hne.
      destruct (Str.split [c] s) as [|g l] eqn:E; [congruence|].
      cbn [Str.cons_hd] in H. apply elem_of_cons in H as [->|H].
      * apply not_elem_of_cons. split; [exact Hx|]. apply IH. left.
      * apply IH. right. exact H.
Qed.

Lemma elem_of_strip (x : ascii) s : x ∈ Str.strip s -> x ∈ s.
Proof.
  unfold Str.strip, Str.lstrip. intros H. apply elem_of_rstrip in H.
  apply elem_of_drop_while in H. exact H.
Qed.

Lemma drop_while_id f (s : str) :
  match s with [] => True | x :: _ => f x = false end ->
  Str.drop_while f s = s.
Proof. destruct s as [|x s]; [reflexivity|]. simpl. intros ->. reflexivity. Qed.

Lemma drop_while_snoc_keep f (l : str) x :
  f x = false -> Str.drop_while f (l ++ [x]) = Str.drop_while f l ++ [x].
Proof.
  intros Hx. induction l as [|y l IH]; simpl; [rewrite Hx; reflexivity|].
  destruct (f y); [exact IH|reflexivity].
Qed.

(** Trimming on the right keeps a first character that is not white
    space. *)
Lemma rstrip_head x (s : str) :
  Char.is_space x = false ->
  exists s', Str.rstrip (x :: s) = x :: s'.
Proof.
  intros Hx. unfold Str.rstrip, Str.lstrip. cbn [rev].
  rewrite drop_while_snoc_keep by exact Hx. rewrite rev_app_distr. cbn.
  eauto.
Qed.

Lemma strip_strip s : Str.strip (Str.strip s) = Str.strip s.
Proof.
  change (Str.rstrip (Str.lstrip (Str.rstrip (Str.lstrip s))) =
          Str.rstrip (Str.lstrip s)).
  pose proof (drop_while_head Char.is_space s) as H.
  fold (Str.lstrip s) in H.
  destruct (Str.lstrip s) as [|x u]; [reflexivity|].
  destruct (rstrip_head x u H) as [s' E]. rewrite E.
  unfold Str.lstrip. rewrite (drop_while_id _ (x :: s')) by exact H.
  rewrite <- E. apply rstrip_trimmed.
Qed.

(** X8: every token of the source information is not empty, has no white
    space at its ends and holds neither a dot nor an underscore. *)
Theorem src_tokens_clean (src_info_string token : str) :
  token ∈ src_tokens src_info_string ->
  token <> [] /\ Str.strip token = token /\
  ("."%char ∉ token) /\ ("_"%char ∉ token).
Proof.
  unfold src_tokens. intros H.
  apply list_elem_of_omap in H as (f & Hf & H).
  destruct (bool_decide (Str.strip f = [])) eqn:E; [discriminate|].
  injection H as <-. apply bool_decide_eq_false in E.
  split; [exact E|]. split; [apply strip_strip|].
  split; intros Hin; apply elem_of_strip in Hin.
  - exact (split_fields_no_sep "." _ _ Hf Hin).
  - apply (replace_char_none "_" src_info_string).
    assert (G : forall (g : str) (s : str), g ∈ Str.split ["."%char] s ->
                  forall y, y ∈ g -> y ∈ s).
    { intros g s. revert g. induction s as [|x s IH]; intros g Hg y Hy.
      - apply list_elem_of_singleton in Hg as ->. inversion Hy.
      - rewrite split_cons in Hg.
        pose proof (split_not_nil "." s) as Hne.
        destruct (Ascii.eqb "." x).
        + apply elem_of_cons in Hg as [->|Hg]; [inversion Hy|].
          right. eapply IH; eassumption.
        + destruct (Str.split ["."%char] s) as [|h l] eqn:Es; [congruence|].
          cbn [Str.cons_hd] in Hg. apply elem_of_cons in Hg as [->|Hg].
          * apply elem_of_cons in Hy as [->|Hy]; [left|].
            right. eapply IH; [left|exact Hy].
          * right. eapply IH; [right; exact Hg|exact Hy]. }
    exact (G _ _ Hf _ Hin).
Qed.

Lemma src_tokens_clean_witness :
  ("Pr" : str) <> [] /\ Str.strip "Pr" = "Pr" /\
  ("."%char ∉ ("Pr" : str)) /\ ("_"%char ∉ ("Pr" : str)).
Proof.
  apply (src_tokens_clean "_Fr. Pr._" "Pr"). decide_by_vm.
Defined.

(* ===================================================================== *)
(** ** The expanded source information (lines 104-109) *)
(* ===================================================================== *)

Lemma has_match_quiet r s : quiet r None s -> has_match r s = false.
Proof.
  intros H. unfold has_match, scan. rewrite (scan_quiet _ _ _ H). clear H.
  induction s as [|x s IH]; [reflexivity|exact IH].
Qed.

(** X9: in an expanded string neither pattern of [refactor_src_info]
    matches any more: there is no [Pr], [Pr.], [Prov], [Prov.], [M] or [M.]
    as a whole word left. *)
Theorem expand_abbrev_complete (s : str) :
  has_match proverb_re (expand_abbrev s) = false /\
  has_match maxim_re (expand_abbrev s) = false.
Proof.
  unfold expand_abbrev. split; apply has_match_quiet.
  - apply proverb_stays_gone, proverb_gone.
  - apply maxim_gone.
Qed.

Lemma sub_not_nil r repl s :
  nonnull r -> repl <> [] -> s <> [] -> sub r repl s <> [].
Proof.
  intros Hnn Hr Hs. destruct s as [|c s]; [congruence|].
  rewrite sub_sub_from, sub_from_cons by exact Hnn.
  destruct (match_at r false None (c :: s)) as [[n g]|]; [|discriminate].
  destruct repl; [congruence|discriminate].
Qed.

Lemma expand_abbrev_nil (s : str) : expand_abbrev s = [] <-> s = [].
Proof.
  split; [|intros ->; reflexivity].
  intros H. destruct s as [|c s]; [reflexivity|]. exfalso. revert H.
  unfold expand_abbrev.
  apply (sub_not_nil maxim_re); [exact maxim_nonnull|discriminate|].
  apply (sub_not_nil proverb_re); [exact proverb_nonnull|discriminate|].
  discriminate.
Qed.

(** X10: of tokens that are not empty, as [src_tokens] returns them, the
    joined and expanded string is empty only when there is no token: this
    is the one case in which [format_output] turns the string into
    [None]. *)
Theorem refactor_src_info_nil (tokens : list str) :
  Forall (fun token => token <> []) tokens ->
  (refactor_src_info tokens = [] <-> tokens = []).
Proof.
  intros H. unfold refactor_src_info. rewrite expand_abbrev_nil.
  split; [|intros ->; reflexivity].
  destruct H as [|token tokens Ht _]; [reflexivity|].
  intros E. exfalso. apply Ht.
  destruct tokens as [|t2 tokens]; [exact E|].
  cbn [Str.join] in E. apply app_eq_nil in E as [E _]. exact E.
Qed.

Lemma refactor_src_info_nil_witness :
  refactor_src_info [("Fr" : str); ("Pr" : str)] = [] <->
  [("Fr" : str); ("Pr" : str)] = [].
Proof.
  apply (refactor_src_info_nil [("Fr" : str); ("Pr" : str)]).
  repeat constructor; discriminate.
Defined.

Lemma if_bool_decide_true {A} (P : Prop) `{Decision P} (a b : A) :
  P -> (if bool_decide P then a else b) = a.
Proof. intros HP. rewrite bool_decide_eq_true_2 by exact HP. reflexivity. Qed.

(** X11: an entry in whose normalized text there are fewer than two
    underscores has no source information; when it is not from the Greek
    its origin is Latin if it has a translation and [UNK] if it has none,
    and when it is from the Greek its origin is Greek. *)
Theorem entry_without_attribution
    (aliases : gset str) (alm aam oam : gmap str str)
    (s original translation origin : str) (src : src_value) :
  Str.count "_" (normalize s) < 2 ->
  process_entry aliases alm aam oam s =
    Returned (original, translation, origin, src) ->
  src = SrcNone /\
  origin =
    (if bool_decide (findall greek_re (normalize s) = []) then
       if bool_decide (translation = []) then ("UNK" : str)
       else ("Latin" : str)
     else ("Greek" : str)).
Proof.
  intros Hc. unfold process_entry, extract_attribution.
  rewrite findall_quiet.
  2:{ apply span_quiet. unfold Str.count in *. rewrite count_occ_rev.
      exact Hc. }
  unfold parse_entry, greek_entry, delimited_entry, resolve_origin.
  destruct (findall greek_re (normalize s)) as [|X l].
  - rewrite (bool_decide_eq_true_2 (@nil str = [])) by reflexivity.
    destruct (bool_decide (Str.rstrip _ = [])) eqn:E1.
    + intros H. injection H as <- <- <- <-. apply bool_decide_eq_true in E1.
      split; [reflexivity|]. symmetry. apply if_bool_decide_true. exact E1.
    + destruct (bool_decide (take 2 _ = _)); [|discriminate].
      intros H. injection H as <- <- <- <-. split; reflexivity.
  - rewrite (bool_decide_eq_false_2 (X :: l = [])) by discriminate.
    destruct (bool_decide _); [|discriminate].
    intros H. injection H as <- <- <- <-. split; reflexivity.
Qed.

Lemma entry_without_attribution_witness :
  SrcNone = SrcNone /\
  ("Latin" : str) =
    (if bool_decide (findall greek_re (normalize "=Ab ovo.=--From the egg.") = [])
     then if bool_decide (("From the egg." : str) = []) then ("UNK" : str)
          else ("Latin" : str)
     else ("Greek" : str)).
Proof.
  apply (entry_without_attribution ∅ ∅ ∅ ∅ "=Ab ovo.=--From the egg."
           "Ab ovo." "From the egg." "Latin" SrcNone).
  - vm_compute. lia.
  - vm_compute. reflexivity.
Defined.

(* ===================================================================== *)
(** ** The original, fragment by fragment (lines 193-214) *)
(* ===================================================================== *)

(** Fragments without separator, joined by the separator, are split into
    the same fragments. *)
Lemma split_join c (fs : list str) :
  fs <> [] -> Forall (fun f => c ∉ f) fs ->
  Str.split [c] (Str.join [c] fs) = fs.
Proof.
  intros Hne H. induction H as [|f fs Hf H IH]; [congruence|].
  destruct fs as [|g fs].
  - cbn [Str.join]. apply split_no_sep, Hf.
  - change (Str.join [c] (f :: g :: fs)) with (f ++ c :: Str.join [c] (g :: fs)).
    rewrite split_app_sep, (split_no_sep c f Hf), IH by discriminate.
    reflexivity.
Qed.

Lemma resolve_origin_texts alm aam oam original translation src_info :
  entry_original (resolve_origin alm aam oam original translation src_info)
    = original /\
  entry_translation (resolve_origin alm aam oam original translation src_info)
    = translation.
Proof.
  unfold resolve_origin.
  repeat match goal with
    | |- context [match ?x with _ => _ end] => destruct x
    end; split; reflexivity.
Qed.

Lemma delimited_original alm aam oam clean src_info e :
  findall greek_re clean = [] ->
  parse_entry alm aam oam clean src_info = Returned e ->
  entry_original e =
  Str.rstrip
    (Str.join " "
       (Str.every_other
          (filter (fun chunk : str => chunk ≠ []) (Str.split "=" clean)))).
Proof.
  intros Hg. unfold parse_entry, delimited_entry. rewrite Hg.
  repeat match goal with
    | |- context [if ?b then _ else _] => destruct b
    end; intros H; inversion H; apply resolve_origin_texts.
Qed.

Lemma filter_chunks_cons (x : str) (l : list str) :
  filter (fun chunk : str => chunk ≠ []) (x :: l) =
  match x with
  | [] => filter (fun chunk : str => chunk ≠ []) l
  | _ :: _ => x :: filter (fun chunk : str => chunk ≠ []) l
  end.
Proof.
  destruct x as [|c x].
  - apply filter_cons_False. intros H. apply H. reflexivity.
  - apply filter_cons_True. discriminate.
Qed.

Lemma every_other_head_pair {A} (x y : A) (l : list A) :
  Str.every_other (x :: y :: l) = x :: Str.every_other l.
Proof. reflexivity. Qed.

(** X12: the original of an entry that is not from the Greek, for three
    shapes of the text, in which [o], [a], [b], [p] and [t] hold no equals
    sign.  In [=o=t] the original is [o].  In [=o=a=b=t], where the aside
    [a] interrupts the original, it is [o b].  In [p=o=t], where a text [p]
    comes before the first equals sign, it is [p t]: the text between the
    equals signs is left out and the text after them is taken in. *)
Theorem delimited_shapes (alm aam oam : gmap str str)
    (src_info : option (list str)) (o a b p t : str) (e : entry) :
  "="%char ∉ o -> "="%char ∉ a -> "="%char ∉ b -> "="%char ∉ p ->
  "="%char ∉ t ->
  o <> [] -> a <> [] -> b <> [] -> p <> [] -> t <> [] ->
  (findall greek_re ("=" ++ o ++ "=" ++ t) = [] ->
   parse_entry alm aam oam ("=" ++ o ++ "=" ++ t) src_info = Returned e ->
   entry_original e = Str.rstrip o) /\
  (findall greek_re ("=" ++ o ++ "=" ++ a ++ "=" ++ b ++ "=" ++ t) = [] ->
   parse_entry alm aam oam ("=" ++ o ++ "=" ++ a ++ "=" ++ b ++ "=" ++ t)
     src_info = Returned e ->
   entry_original e = Str.rstrip (o ++ " " ++ b)) /\
  (findall greek_re (p ++ "=" ++ o ++ "=" ++ t) = [] ->
   parse_entry alm aam oam (p ++ "=" ++ o ++ "=" ++ t) src_info = Returned e ->
   entry_original e = Str.rstrip (p ++ " " ++ t)).
Proof.
  intros Ho Ha Hb Hp Ht No Na Nb Np Nt.
  assert (Hnil : "="%char ∉ ([] : str)) by inversion 1.
  split; [|split]; intros Hg H;
    rewrite (delimited_original _ _ _ _ _ _ Hg H);
    cbn [list_ascii_of_string].
  - change (["="%char] ++ o ++ ["="%char] ++ t)
      with (Str.join ["="%char] [[]; o; t]).
    rewrite split_join by (try discriminate; repeat constructor; assumption).
    rewrite !filter_chunks_cons.
    destruct o as [|? ?]; [congruence|]. destruct t as [|? ?]; [congruence|].
    reflexivity.
  - change (["="%char] ++ o ++ ["="%char] ++ a ++ ["="%char] ++ b ++
            ["="%char] ++ t)
      with (Str.join ["="%char] [[]; o; a; b; t]).
    rewrite split_join by (try discriminate; repeat constructor; assumption).
    rewrite !filter_chunks_cons.
    destruct o as [|? ?]; [congruence|]. destruct a as [|? ?]; [congruence|].
    destruct b as [|? ?]; [congruence|]. destruct t as [|? ?]; [congruence|].
    reflexivity.
  - change (p ++ ["="%char] ++ o ++ ["="%char] ++ t)
      with (Str.join ["="%char] [p; o; t]).
    rewrite split_join by (try discriminate; repeat constructor; assumption).
    rewrite !filter_chunks_cons.
    destruct p as [|? ?]; [congruence|]. destruct o as [|? ?]; [congruence|].
    destruct t as [|? ?]; [congruence|].
    reflexivity.
Qed.

Lemma delimited_shapes_witness :
  entry_original
    (("Some text --True cause." : str), ("True cause." : str),
     ("Latin" : str), SrcNone) =
  Str.rstrip ("Some text" ++ " " ++ "--True cause.").
Proof.
  refine (proj2 (proj2 (delimited_shapes ∅ ∅ ∅ None
                          "Vera causa." "aside" "Verbatim." "Some text"
                          "--True cause." _ _ _ _ _ _ _ _ _ _ _)) _ _);
    try decide_by_vm; try discriminate; vm_compute; reflexivity.
Defined.

Lemma drop_while_suffix f (s : str) : Str.drop_while f s `suffix_of` s.
Proof.
  induction s as [|x s IH]; simpl; [reflexivity|].
  destruct (f x); [apply suffix_cons_r, IH|reflexivity].
Qed.

Lemma rstrip_prefix (s : str) : Str.rstrip s `prefix_of` s.
Proof.
  unfold Str.rstrip, Str.lstrip.
  destruct (drop_while_suffix Char.is_space (rev s)) as [k E].
  exists (rev k). rewrite <- rev_app_distr, <- E, rev_involutive. reflexivity.
Qed.

Lemma starts_with_prefix (p a b : str) :
  a `prefix_of` b -> Str.starts_with p a = true -> Str.starts_with p b = true.
Proof.
  intros [k ->]. revert a. induction p as [|x p IH]; intros a H; [reflexivity|].
  destruct a as [|y a]; [discriminate|]. simpl in *.
  apply andb_prop in H as [-> H]. apply IH, H.
Qed.

(** X13: an entry that is not from the Greek and has no equals sign is
    taken whole as its own translation.  Unless it starts with the two
    dashes it raises the assertion error; it is only returned when nothing
    but white space comes before the end or before a clarification
    [, _i.e._]. *)
Theorem entry_without_equals (alm aam oam : gmap str str) (clean : str)
    (src_info : option (list str)) :
  "="%char ∉ clean -> Char.newline ∉ clean ->
  findall greek_re clean = [] ->
  Str.starts_with "--" clean = false ->
  let translation := Str.rstrip (cut_at at_ie_marker clean) in
  parse_entry alm aam oam clean src_info =
  if bool_decide (translation = []) then
    Returned (resolve_origin alm aam oam (Str.rstrip clean) [] src_info)
  else Raised (AssertionError (translation ++ " should start with an emdash.")).
Proof.
  intros He Hn Hg Hd translation. unfold parse_entry, delimited_entry.
  rewrite Hg. cbn [list_ascii_of_string].
  rewrite (split_no_sep "=" clean He). cbn [Str.last_field List.last].
  pose proof (ie_cut clean Hn) as Hie. cbn [list_ascii_of_string] in Hie.
  rewrite Hie. fold translation.
  assert (Ho : Str.rstrip
                 (Str.join [" "%char]
                    (Str.every_other
                       (filter (fun chunk : str => chunk ≠ []) [clean]))) =
               Str.rstrip clean).
  { rewrite filter_chunks_cons. destruct clean; reflexivity. }
  rewrite Ho.
  destruct (bool_decide (translation = [])) eqn:E.
  - apply bool_decide_eq_true in E. rewrite E. reflexivity.
  - rewrite take2_dashes.
    destruct (Str.starts_with "--" translation) eqn:D; [|reflexivity].
    exfalso. assert (Str.starts_with "--" clean = true); [|congruence].
    eapply starts_with_prefix; [|exact D].
    etrans; [apply rstrip_prefix|apply cut_at_prefix].
Qed.

Lemma entry_without_equals_witness :
  parse_entry ∅ ∅ ∅ "Know thyself." None =
  Raised (AssertionError "Know thyself. should start with an emdash.").
Proof.
  rewrite (entry_without_equals ∅ ∅ ∅ "Know thyself." None).
  - vm_compute. reflexivity.
  - decide_by_vm.
  - decide_by_vm.
  - vm_compute. reflexivity.
  - vm_compute. reflexivity.
Defined.

(* ===================================================================== *)
(** ** The tally of the sources (lines 313-355) *)
(* ===================================================================== *)

Lemma count_author_get name src authorset :
  author_count name (count_author src authorset) =
  if bool_decide (src = name)
  then Some (default 0 (author_count src authorset) + 1)%Z
  else author_count name authorset.
Proof.
  induction authorset as [|[other count] others IH]; cbn [count_author].
  - cbn [author_count default]. destruct (bool_decide (src = name)); reflexivity.
  - destruct (decide (other = src)) as [->|Hne].
    + rewrite (bool_decide_eq_true_2 (src = src)) by reflexivity.
      cbn [author_count].
      rewrite (bool_decide_eq_true_2 (src = src)) by reflexivity.
      destruct (bool_decide (src = name)); reflexivity.
    + rewrite (bool_decide_eq_false_2 (other = src)) by exact Hne.
      cbn [author_count]. rewrite IH.
      rewrite (bool_decide_eq_false_2 (other = src)) by exact Hne.
      destruct (decide (other = name)) as [->|Hne'].
      * rewrite (bool_decide_eq_true_2 (name = name)) by reflexivity.
        rewrite (bool_decide_eq_false_2 (src = name)) by congruence.
        reflexivity.
      * rewrite (bool_decide_eq_false_2 (other = name)) by exact Hne'.
        reflexivity.
Qed.

Lemma count_author_keys src authorset :
  (count_author src authorset).*1 =
  if bool_decide (src ∈ authorset.*1) then authorset.*1
  else authorset.*1 ++ [src].
Proof.
  induction authorset as [|[other count] others IH]; cbn [count_author].
  - rewrite bool_decide_eq_false_2 by inversion 1. reflexivity.
  - destruct (bool_decide (other = src)) eqn:E1.
    + apply bool_decide_eq_true in E1 as ->.
      rewrite bool_decide_eq_true_2 by (cbn; left). reflexivity.
    + apply bool_decide_eq_false in E1. cbn [fmap list_fmap fst] in IH |- *.
      rewrite IH. destruct (bool_decide (src ∈ others.*1)) eqn:E2.
      * apply bool_decide_eq_true in E2.
        rewrite bool_decide_eq_true_2 by (right; exact E2). reflexivity.
      * apply bool_decide_eq_false in E2. rewrite bool_decide_eq_false_2.
        -- reflexivity.
        -- intros H. apply elem_of_cons in H as [H|H]; congruence.
Qed.

Lemma count_author_nodup src authorset :
  NoDup authorset.*1 -> NoDup (count_author src authorset).*1.
Proof.
  intros H. rewrite count_author_keys.
  destruct (bool_decide (src ∈ authorset.*1)) eqn:E; [exact H|].
  apply bool_decide_eq_false in E. apply NoDup_app. split; [exact H|].
  split; [|apply NoDup_singleton].
  intros x Hx Hin. apply list_elem_of_singleton in Hin as ->. contradiction.
Qed.

Lemma count_author_total src authorset :
  total_docs (count_author src authorset) = (total_docs authorset + 1)%Z.
Proof.
  unfold total_docs.
  induction authorset as [|[other count] others IH]; cbn [count_author].
  - reflexivity.
  - destruct (bool_decide (other = src)); cbn [map foldr snd] in *; lia.
Qed.

Lemma tally_step (r : row) rows authorset :
  tally (r :: rows) authorset =
  match r.2 with
  | SrcNone => tally rows authorset
  | SrcTokens [] => tally rows authorset
  | SrcTokens (_ :: _) => None
  | SrcText t =>
      if bool_decide (t = []) then tally rows authorset
      else tally rows (count_author t authorset)
  end.
Proof.
  destruct r as [[[o original] english] src]. cbn [tally snd].
  destruct src as [|[|x l]|t]; cbn [src_truthy]; try reflexivity.
  destruct (bool_decide (t = [])); reflexivity.
Qed.

Lemma tally_invariant rows : forall authorset result,
  tally rows authorset = Some result ->
  (NoDup authorset.*1 -> NoDup result.*1) /\
  total_docs result =
    (total_docs authorset + Z.of_nat (length (omap row_source rows)))%Z /\
  forall name,
    author_count name result =
    match occurrences name (omap row_source rows) with
    | O => author_count name authorset
    | S n =>
        Some (default 0 (author_count name authorset) + Z.of_nat (S n))%Z
    end.
Proof.
  induction rows as [|r rows IH]; intros authorset result H.
  - cbn in H. injection H as <-. cbn. repeat split; [auto|lia].
  - rewrite tally_step in H.
    assert (Hskip : row_source r = None -> tally rows authorset = Some result ->
              (NoDup authorset.*1 -> NoDup result.*1) /\
              total_docs result =
                (total_docs authorset +
                 Z.of_nat (length (omap row_source (r :: rows))))%Z /\
              forall name,
                author_count name result =
                match occurrences name (omap row_source (r :: rows)) with
                | O => author_count name authorset
                | S n =>
                    Some (default 0 (author_count name authorset)
                          + Z.of_nat (S n))%Z
                end).
    { intros Hr H'. change (omap row_source (r :: rows)) with
        (match row_source r with
         | Some y => y :: omap row_source rows
         | None => omap row_source rows
         end). rewrite Hr. apply IH, H'. }
    unfold row_source in Hskip.
    destruct (r.2) as [|[|x l]|t] eqn:Er; try (apply Hskip; [reflexivity|exact H]);
      [discriminate|].
    destruct (bool_decide (t = [])) eqn:Et; [apply Hskip; [reflexivity|exact H]|].
    clear Hskip. apply IH in H as (H1 & H2 & H3).
    assert (Hr : row_source r = Some t)
      by (unfold row_source; rewrite Er, Et; reflexivity).
    assert (Hcons : omap row_source (r :: rows) =
                    match row_source r with
                    | Some y => y :: omap row_source rows
                    | None => omap row_source rows
                    end) by reflexivity.
    rewrite Hcons, Hr. clear Hcons.
    split; [|split].
    + intros Hnd. apply H1, count_author_nodup, Hnd.
    + rewrite H2, count_author_total. cbn [length]. lia.
    + intros name. rewrite H3, count_author_get. unfold occurrences.
      rewrite filter_cons. destruct (decide (t = name)) as [->|Hne].
      * rewrite bool_decide_eq_true_2 by reflexivity. cbn [length].
        destruct (author_count name authorset), (length (filter _ _));
          unfold default; cbn [from_option id]; f_equal; lia.
      * rewrite bool_decide_eq_false_2 by exact Hne. reflexivity.
Qed.

Lemma count_author_positive src authorset :
  Forall (fun item : str * Z => 0 < item.2)%Z authorset ->
  Forall (fun item : str * Z => 0 < item.2)%Z (count_author src authorset).
Proof.
  induction 1 as [|[other count] others Hc Hs IH]; cbn [count_author].
  - repeat constructor.
  - destruct (bool_decide (other = src)); constructor; cbn [snd] in *;
      try assumption; lia.
Qed.

(** The counts of a tally are positive. *)
Lemma tally_positive rows : forall authorset result,
  Forall (fun item : str * Z => 0 < item.2)%Z authorset ->
  tally rows authorset = Some result ->
  Forall (fun item : str * Z => 0 < item.2)%Z result.
Proof.
  induction rows as [|r rows IH]; intros authorset result Hpos H.
  - cbn in H. injection H as <-. exact Hpos.
  - rewrite tally_step in H.
    destruct (r.2) as [|[|x l]|t]; try (eapply IH; eassumption);
      [discriminate|].
    destruct (bool_decide (t = [])); [eapply IH; eassumption|].
    eapply IH; [|exact H]. apply count_author_positive, Hpos.
Qed.

(** X14: the tally counts every source as often as it occurs: after the
    loop the keys of [authorset] are all different, a name is a key
    exactly when it is the source, a string that is not empty, of some row,
    and its count is the number of these rows. *)
Theorem tally_counts (rows : list row) (authorset : authors) (name : str) :
  tally rows [] = Some authorset ->
  NoDup authorset.*1 /\
  author_count name authorset =
    match occurrences name (omap row_source rows) with
    | O => None
    | S n => Some (Z.of_nat (S n))
    end.
Proof.
  intros H. apply tally_invariant in H as (H1 & _ & H3).
  split; [apply H1; constructor|]. rewrite H3. reflexivity.
Qed.

Lemma tally_counts_witness :
  let rows : list row :=
    [(("Latin" : str), Some ("Ab ovo." : str), ("From the egg." : str),
      SrcText "Hor");
     (("UNK" : str), None, ("Know thyself." : str), SrcNone);
     (("Latin" : str), Some ("Carpe diem." : str), ("Seize the day." : str),
      SrcText "Hor")] in
  NoDup [(("Hor" : str), 2%Z)].*1 /\
  author_count "Hor" [(("Hor" : str), 2%Z)] =
    match occurrences "Hor" (omap row_source rows) with
    | O => None
    | S n => Some (Z.of_nat (S n))
    end.
Proof.
  intros rows. apply (tally_counts rows [(("Hor" : str), 2%Z)] "Hor").
  vm_compute. reflexivity.
Defined.

(** X15: [total_docs], the sum of the counts, is the number of rows that
    have a source. *)
Theorem tally_total (rows : list row) (authorset : authors) :
  tally rows [] = Some authorset ->
  total_docs authorset = Z.of_nat (length (omap row_source rows)).
Proof.
  intros H. apply tally_invariant in H as (_ & H2 & _). rewrite H2.
  reflexivity.
Qed.

Lemma tally_total_witness :
  total_docs [(("Hor" : str), 2%Z)] =
  Z.of_nat
    (length
       (omap row_source
          [(("Latin" : str), Some ("Ab ovo." : str), ("From the egg." : str),
            SrcText "Hor");
           (("UNK" : str), None, ("Know thyself." : str), SrcNone);
           (("Latin" : str), Some ("Carpe diem." : str),
            ("Seize the day." : str), SrcText "Hor")])).
Proof.
  apply (tally_total _ [(("Hor" : str), 2%Z)]). vm_compute. reflexivity.
Defined.

(* ===================================================================== *)
(** ** The ranking of the sources (lines 327-355) *)
(* ===================================================================== *)

Lemma insert_by_count_perm item sorted :
  insert_by_count item sorted ≡ₚ item :: sorted.
Proof.
  induction sorted as [|other rest IH]; cbn [insert_by_count]; [reflexivity|].
  destruct (other.2 <=? item.2)%Z; [reflexivity|].
  rewrite IH. apply Permutation_swap.
Qed.

Lemma insert_by_count_falling item sorted :
  falling sorted -> falling (insert_by_count item sorted).
Proof.
  induction sorted as [|other rest IH]; cbn [insert_by_count falling].
  - intros _. split; constructor.
  - intros [Hall Hs]. destruct (other.2 <=? item.2)%Z eqn:E.
    + apply Z.leb_le in E. cbn [falling]. split; [|split; assumption].
      constructor; [exact E|].
      eapply List.Forall_impl; [|exact Hall]. cbn. intros y Hy. lia.
    + apply Z.leb_gt in E. cbn [falling]. split; [|apply IH, Hs].
      apply Forall_forall. intros y Hy.
      rewrite insert_by_count_perm in Hy.
      apply elem_of_cons in Hy as [->|Hy]; [lia|].
      rewrite Forall_forall in Hall. apply Hall, Hy.
Qed.

Lemma falling_lookup items : forall i j x y,
  falling items -> i < j ->
  items !! i = Some x -> items !! j = Some y -> (y.2 <= x.2)%Z.
Proof.
  induction items as [|item others IH]; intros i j x y Hs Hij Hi Hj.
  - discriminate.
  - destruct Hs as [Hall Hs]. destruct j as [|j]; [lia|].
    cbn in Hj. destruct i as [|i].
    + cbn in Hi. simplify_eq. rewrite Forall_forall in Hall.
      apply Hall. eapply list_elem_of_lookup_2, Hj.
    + cbn in Hi. apply (IH i j); [assumption|lia|assumption..].
Qed.

Lemma insert_by_count_stable count item sorted :
  filter (fun x : str * Z => x.2 = count) (insert_by_count item sorted) =
  filter (fun x : str * Z => x.2 = count) (item :: sorted).
Proof.
  induction sorted as [|other rest IH]; cbn [insert_by_count]; [reflexivity|].
  destruct (other.2 <=? item.2)%Z eqn:E; [reflexivity|].
  apply Z.leb_gt in E. rewrite filter_cons, IH, !filter_cons.
  destruct (decide (other.2 = count)) as [Ho|Ho];
    destruct (decide (item.2 = count)) as [Hi|Hi]; try reflexivity.
  lia.
Qed.

(** X16: [auth_counts], the sorted items of the tally, has the same items,
    is in the order of falling counts, and keeps the items of one count
    in the order of the dictionary. *)
Theorem sorted_by_count_ranking (items : list (str * Z)) :
  sorted_by_count items ≡ₚ items /\
  (forall i j x y,
     i < j ->
     sorted_by_count items !! i = Some x ->
     sorted_by_count items !! j = Some y ->
     (y.2 <= x.2)%Z) /\
  forall count,
    filter (fun x : str * Z => x.2 = count) (sorted_by_count items) =
    filter (fun x : str * Z => x.2 = count) items.
Proof.
  assert (H : sorted_by_count items ≡ₚ items /\
              falling (sorted_by_count items) /\
              forall count,
                filter (fun x : str * Z => x.2 = count)
                  (sorted_by_count items) =
                filter (fun x : str * Z => x.2 = count) items).
  { unfold sorted_by_count.
    induction items as [|item items (IH1 & IH2 & IH3)].
    - cbn. repeat split; constructor.
    - cbn [foldr]. split; [|split].
      + rewrite insert_by_count_perm, IH1. reflexivity.
      + apply insert_by_count_falling, IH2.
      + intros count. rewrite insert_by_count_stable, !filter_cons, IH3.
        reflexivity. }
  destruct H as (H1 & H2 & H3). split; [exact H1|]. split; [|exact H3].
  intros i j x y Hij Hi Hj. exact (falling_lookup _ i j x y H2 Hij Hi Hj).
Qed.

Lemma split_by_rank_cons i name count others :
  split_by_rank i ((name, count) :: others) =
  if bool_decide (name ∈ generic_auths)
  then ((i, count) :: (split_by_rank (S i) others).1,
        (split_by_rank (S i) others).2)
  else ((split_by_rank (S i) others).1,
        (i, count) :: (split_by_rank (S i) others).2).
Proof.
  cbn [split_by_rank]. destruct (split_by_rank (S i) others) as [g s].
  reflexivity.
Qed.

Lemma split_by_rank_ranks auth_counts : forall i,
  (split_by_rank i auth_counts).1.*1 ++ (split_by_rank i auth_counts).2.*1
  ≡ₚ seq i (length auth_counts).
Proof.
  induction auth_counts as [|[name count] others IH]; intros i.
  - reflexivity.
  - rewrite split_by_rank_cons. cbn [length seq].
    destruct (bool_decide (name ∈ generic_auths)); cbn [fst snd fmap list_fmap].
    + cbn. f_equiv. apply IH.
    + rewrite <- Permutation_middle. cbn. f_equiv. apply IH.
Qed.

Lemma split_by_rank_lookup auth_counts : forall i rank count,
  ((rank, count) ∈ (split_by_rank i auth_counts).1 <->
   exists name, i <= rank /\ auth_counts !! (rank - i) = Some (name, count) /\
                name ∈ generic_auths) /\
  ((rank, count) ∈ (split_by_rank i auth_counts).2 <->
   exists name, i <= rank /\ auth_counts !! (rank - i) = Some (name, count) /\
                name ∉ generic_auths).
Proof.
  induction auth_counts as [|[name count] others IH]; intros i rank c.
  - cbn. split; (split; [inversion 1|intros (? & _ & ? & _); discriminate]).
  - rewrite split_by_rank_cons. destruct (IH (S i) rank c) as [IHg IHs].
    assert (Hlater : forall P : str -> Prop,
              (exists n, S i <= rank /\ others !! (rank - S i) = Some (n, c)
                         /\ P n) ->
              exists n, i <= rank /\
                ((name, count) :: others) !! (rank - i) = Some (n, c) /\ P n).
    { intros P (n & Hle & Hl & Hp). exists n. split; [lia|]. split; [|exact Hp].
      replace (rank - i) with (S (rank - S i)) by lia. exact Hl. }
    assert (Hback : forall P : str -> Prop,
              (exists n, i <= rank /\
                ((name, count) :: others) !! (rank - i) = Some (n, c) /\ P n) ->
              (rank = i /\ c = count /\ P name) \/
              exists n, S i <= rank /\ others !! (rank - S i) = Some (n, c)
                        /\ P n).
    { intros P (n & Hle & Hl & Hp). destruct (decide (rank = i)) as [->|Hne].
      - left. rewrite Nat.sub_diag in Hl. cbn in Hl. simplify_eq. auto.
      - right. exists n. split; [lia|]. split; [|exact Hp].
        replace (rank - i) with (S (rank - S i)) in Hl by lia. exact Hl. }
    destruct (bool_decide (name ∈ generic_auths)) eqn:E; cbn [fst snd].
    + apply bool_decide_eq_true in E. split.
      * rewrite elem_of_cons, IHg. split.
        -- intros [Heq|H]; [|apply Hlater, H]. simplify_eq. exists name.
           rewrite Nat.sub_diag. auto.
        -- intros H. apply Hback in H as [(-> & -> & _)|H]; auto.
      * rewrite IHs. split; [apply Hlater|].
        intros H. apply Hback in H as [(_ & _ & Hn)|H]; [contradiction|exact H].
    + apply bool_decide_eq_false in E. split.
      * rewrite IHg. split; [apply Hlater|].
        intros H. apply Hback in H as [(_ & _ & Hn)|H]; [contradiction|exact H].
      * rewrite elem_of_cons, IHs. split.
        -- intros [Heq|H]; [|apply Hlater, H]. simplify_eq. exists name.
           rewrite Nat.sub_diag. auto.
        -- intros H. apply Hback in H as [(-> & -> & _)|H]; auto.
Qed.

(** X17: the loop over [auth_counts] gives every rank, from 0 on, to
    exactly one of the two dictionaries: the count at a rank is in
    [generic_auth_counts] when the name at that rank is a generic one and
    in [specific_auth_counts] when it is not. *)
Theorem split_by_rank_partition (auth_counts : list (str * Z))
    (rank : nat) (count : Z) :
  let generic_auth_counts := (split_by_rank 0 auth_counts).1 in
  let specific_auth_counts := (split_by_rank 0 auth_counts).2 in
  generic_auth_counts.*1 ++ specific_auth_counts.*1
    ≡ₚ seq 0 (length auth_counts) /\
  ((rank, count) ∈ generic_auth_counts <->
   exists name, auth_counts !! rank = Some (name, count) /\
                name ∈ generic_auths) /\
  ((rank, count) ∈ specific_auth_counts <->
   exists name, auth_counts !! rank = Some (name, count) /\
                name ∉ generic_auths).
Proof.
  cbv zeta. split; [apply split_by_rank_ranks|].
  destruct (split_by_rank_lookup auth_counts 0 rank count) as [Hg Hs].
  rewrite Nat.sub_0_r in Hg, Hs. rewrite Hg, Hs.
  split; (split; [intros (n & _ & H); exists n; exact H
                 |intros (n & H); exists n; split; [lia|exact H]]).
Qed.

Lemma cumulative_from_length counts : forall cum_count,
  length (cumulative_from cum_count counts) = length counts.
Proof.
  induction counts as [|count others IH]; intros cum_count; [reflexivity|].
  cbn [cumulative_from length]. rewrite IH. reflexivity.
Qed.

Lemma cumulative_from_lookup counts : forall cum_count i,
  cumulative_from cum_count counts !! i =
  if bool_decide (i < length counts)
  then Some (cum_count + sum_counts (take (S i) counts))%Z
  else None.
Proof.
  induction counts as [|count others IH]; intros cum_count i.
  - cbn [cumulative_from length]. rewrite bool_decide_eq_false_2 by lia.
    reflexivity.
  - cbn [cumulative_from length]. destruct i as [|i].
    + rewrite bool_decide_eq_true_2 by lia.
      change (Some (cum_count + count)%Z = Some (cum_count + (count + 0))%Z).
      f_equal. lia.
    + change ((?x :: ?l) !! S i) with (l !! i). rewrite IH.
      destruct (decide (i < length others)).
      * rewrite !bool_decide_eq_true_2 by lia. f_equal.
        change (take (S (S i)) (count :: others))
          with (count :: take (S i) others).
        unfold sum_counts. cbn [foldr]. lia.
      * rewrite !bool_decide_eq_false_2 by lia. reflexivity.
Qed.

(** X18: [cumulative_counts] yields one value for every count, and the
    value at place [i] is the sum of the counts up to and with place [i];
    so the last value is the sum of all counts. *)
Theorem cumulative_counts_sums (counts : list Z) (i : nat) :
  length (cumulative_counts counts) = length counts /\
  cumulative_counts counts !! i =
    (if bool_decide (i < length counts)
     then Some (sum_counts (take (S i) counts))
     else None) /\
  last (cumulative_counts counts) =
    match counts with
    | [] => None
    | _ :: _ => Some (sum_counts counts)
    end.
Proof.
  unfold cumulative_counts. split; [apply cumulative_from_length|].
  split.
  - rewrite cumulative_from_lookup.
    destruct (bool_decide (i < length counts)); [f_equal; lia|reflexivity].
  - rewrite last_lookup, cumulative_from_length, cumulative_from_lookup.
    destruct counts as [|count others]; [reflexivity|].
    cbn [length Nat.pred]. rewrite bool_decide_eq_true_2 by lia.
    rewrite firstn_all2 by (cbn [length]; lia). reflexivity.
Qed.

Lemma sum_counts_take_mono counts : forall i j,
  Forall (fun count => 0 < count)%Z counts ->
  i < j -> i < length counts ->
  (sum_counts (take i counts) < sum_counts (take j counts))%Z.
Proof.
  induction counts as [|count others IH]; intros i j Hpos Hij Hi.
  - cbn in Hi. lia.
  - apply Forall_cons in Hpos as [Hc Hpos]. cbn [length] in Hi.
    destruct j as [|j]; [lia|]. destruct i as [|i].
    + cbn [take sum_counts foldr].
      assert (Hnn : forall l, Forall (fun count => 0 < count)%Z l ->
                (0 <= foldr Z.add 0 l)%Z).
      { induction 1; cbn [foldr]; lia. }
      specialize (Hnn (take j others) (Forall_take _ _ _ Hpos)).
      change (firstn j others) with (take j others). lia.
    + change (take (S i) (count :: others)) with (count :: take i others).
      change (take (S j) (count :: others)) with (count :: take j others).
      unfold sum_counts in *. cbn [foldr].
      specialize (IH i j Hpos). lia.
Qed.

(** X19: for counts that are all positive, as the counts of a tally are,
    the values of [cumulative_counts] rise strictly. *)
Theorem cumulative_counts_rise (counts : list Z) (i j : nat) (x y : Z) :
  Forall (fun count => 0 < count)%Z counts ->
  i < j ->
  cumulative_counts counts !! i = Some x ->
  cumulative_counts counts !! j = Some y ->
  (x < y)%Z.
Proof.
  unfold cumulative_counts. intros Hpos Hij Hi Hj.
  rewrite cumulative_from_lookup in Hi, Hj.
  destruct (decide (j < length counts)) as [Hlt|Hge].
  - rewrite bool_decide_eq_true_2 in Hi, Hj by lia. simplify_eq.
    pose proof (sum_counts_take_mono counts (S i) (S j) Hpos). lia.
  - rewrite bool_decide_eq_false_2 in Hj by lia. discriminate.
Qed.

Lemma cumulative_counts_rise_witness : (3 < 6)%Z.
Proof.
  apply (cumulative_counts_rise [3; 2; 1]%Z 0 2 3 6).
  - repeat constructor.
  - lia.
  - reflexivity.
  - reflexivity.
Defined.
